(** * tla-web: the TLA+ interpreter of [js/eval.js]

    A shallow embedding of the value model, the state and context classes
    and the expression evaluator of [js/eval.js] (the second, current
    version of the file, from "TLA+ interpreter." on), with the properties
    the specification states about them.

    Conventions of the embedding.
    - JavaScript numbers are integers ([Z]), in the range in which a
      double holds every integer ([Number.MAX_SAFE_INTEGER] in absolute
      value); a numeral or a result of [+], [-], [*] outside this range,
      and results that would be [NaN] or need a string-to-number coercion,
      are outside the embedding and are reported as [Unmodelled], never as
      an error of the program.
    - A JavaScript object used as a map (state variables, bound
      identifiers, constants, definitions) is an association list of its
      own enumerable properties, with unique keys in insertion order.  A key
      named [hasOwnProperty] hides the method of that name, so that a call
      [o.hasOwnProperty(k)] on such an object throws.  An assignment
      [o["__proto__"] = v] sets the prototype of [o] and adds no key; it is
      outside the embedding and reported as [Unmodelled].
    - [Context] objects are mutable and passed by reference: they live in
      a heap and are named by their location.
    - The libraries loaded by the page and not defined in the repository
      are modelled from their documented behaviour: lodash ([Lodash]) and
      hash-sum, which is a parameter [hashSum] of the development. *)

From Stdlib Require Import ZArith List String Ascii Bool Lia Arith.
From Stdlib Require Import DecimalString DecimalPos Permutation.
Import ListNotations.

#[local] Set Warnings "-register-all".

Local Open Scope string_scope.
Local Open Scope Z_scope.

(** ** JavaScript primitives *)

(** What [hashSum] is applied to in [eval.js]: numbers, booleans, strings,
    [undefined] (padding of [_.zip]) and arrays of those. *)
Inductive JSData : Type :=
| DNum (n : Z)
| DBool (b : bool)
| DStr (s : string)
| DUndef
| DArr (l : list JSData).

(** [Number.prototype.toString] on an integer. *)
Definition num_toString (n : Z) : string :=
  NilZero.string_of_int (Z.to_int n).

(** The double quote character. *)
Definition dquote : string := String "034"%char EmptyString.

(** [Array.prototype.join]. *)
Definition join (sep : string) (l : list string) : string := String.concat sep l.

(** [s.endsWith("'")] and [s.slice(0, s.length - 1)]. *)
Fixpoint endsWithPrime (s : string) : bool :=
  match s with
  | EmptyString => false
  | String c EmptyString => Ascii.eqb c "'"%char
  | String _ rest => endsWithPrime rest
  end.

Fixpoint dropLast (s : string) : string :=
  match s with
  | EmptyString => EmptyString
  | String _ EmptyString => EmptyString
  | String c rest => String c (dropLast rest)
  end.

(** Insertion into a list sorted by [gt]: the new element goes behind every
    element that is not greater, so that equal elements keep their order. *)
Fixpoint insertBy {A : Type} (gt : A -> A -> bool) (x : A) (l : list A) : list A :=
  match l with
  | [] => [x]
  | y :: t => if gt y x then x :: y :: t else y :: insertBy gt x t
  end.

Definition stableSort {A : Type} (gt : A -> A -> bool) (l : list A) : list A :=
  fold_left (fun acc x => insertBy gt x acc) l [].

(** [Array.prototype.sort()] without a comparator, on an array of strings:
    order of the code units. *)
Definition js_sort (l : list string) : list string :=
  stableSort (fun a b => String.ltb b a) l.

(** JavaScript objects used as maps. *)
Section Obj.
Context {V : Type}.

Definition Obj := list (string * V).

Fixpoint obj_get (o : list (string * V)) (k : string) : option V :=
  match o with
  | [] => None
  | (k', v) :: t => if String.eqb k' k then Some v else obj_get t k
  end.

Definition obj_has (o : list (string * V)) (k : string) : bool :=
  match obj_get o k with Some _ => true | None => false end.

(** [o[k] = v]: an existing key keeps its place. *)
Fixpoint obj_set (o : list (string * V)) (k : string) (v : V) : list (string * V) :=
  match o with
  | [] => [(k, v)]
  | (k', v') :: t =>
      if String.eqb k' k then (k', v) :: t else (k', v') :: obj_set t k v
  end.

Definition obj_keys (o : list (string * V)) : list string := map fst o.
End Obj.

(** ** lodash *)
Module Lodash.

(** [_.range(start, end)] of lodash 4: without a step the range descends
    when [start] is not below [end]. *)
Definition range (start stop : Z) : list Z :=
  if start <? stop
  then map (fun i => start + Z.of_nat i) (seq 0 (Z.to_nat (stop - start)))
  else map (fun i => start - Z.of_nat i) (seq 0 (Z.to_nat (start - stop))).

(** [_.uniqBy(l, key)]: the first element of each key is kept. *)
Fixpoint uniqByAux {A : Type} (key : A -> string) (seen : list string) (l : list A) : list A :=
  match l with
  | [] => []
  | x :: t =>
      if existsb (String.eqb (key x)) seen then uniqByAux key seen t
      else x :: uniqByAux key (key x :: seen) t
  end.

Definition uniqBy {A : Type} (key : A -> string) (l : list A) : list A :=
  uniqByAux key [] l.

(** [_.sortBy(l, crit)]: a stable sort by [compareAscending] on the
    criteria; [gt a b] is "[compareAscending(a, b)] is 1". *)
Definition sortBy {A C : Type} (gt : C -> C -> bool) (crit : A -> C) (l : list A) : list A :=
  stableSort (fun a b => gt (crit a) (crit b)) l.

(** [_.mapValues(o, f)], [_.pickBy(o, p)] on keys, [_.mapKeys(o, f)]. *)
Definition mapValues {V W : Type} (f : string -> V -> W) (o : list (string * V)) : list (string * W) :=
  map (fun kv => (fst kv, f (fst kv) (snd kv))) o.

Definition pickByKey {V : Type} (p : string -> bool) (o : list (string * V)) : list (string * V) :=
  filter (fun kv => p (fst kv)) o.

Definition mapKeys {V : Type} (f : string -> string) (o : list (string * V)) : list (string * V) :=
  fold_left (fun acc kv => obj_set acc (f (fst kv)) (snd kv)) o [].

End Lodash.

(** ** TLA+ values *)

(** The classes [IntValue], [BoolValue], [StringValue], [SetValue],
    [TupleValue] and [FcnRcdValue].  A [SetValue] holds the elements left by
    the constructor (see [mkSetValue]). *)
Inductive TLAValue : Type :=
| IntValue (n : Z)
| BoolValue (b : bool)
| StringValue (s : string)
| SetValue (elems : list TLAValue)
| TupleValue (elems : list TLAValue)
| FcnRcdValue (domain : list TLAValue) (values : list TLAValue) (isRecord : bool).

(** A JavaScript primitive, as returned by [getVal()]. *)
Inductive Prim : Type :=
| PNum (n : Z)
| PBool (b : bool)
| PStr (s : string).

(** Outcome of a JavaScript computation. *)
Inductive Res (A : Type) : Type :=
| Ok (a : A)
| Throw (msg : string)
| Unmodelled
| OutOfFuel.
Arguments Ok {A} a.
Arguments Throw {A} msg.
Arguments Unmodelled {A}.
Arguments OutOfFuel {A}.

Definition TypeError : string := "TypeError".

(** [o.hasOwnProperty(k)] on an object used as a map.  The method is looked
    up on [o] first: when [o] has a key named [hasOwnProperty], what is
    called is the value stored under it, which is no function. *)
Definition hasOwnProperty {V : Type} (o : list (string * V)) (k : string) : Res bool :=
  if obj_has o "hasOwnProperty" then Throw TypeError else Ok (obj_has o k).

(** [o.hasOwnProperty(k)] and, where it holds, [o[k]]. *)
Definition ownProperty {V : Type} (o : list (string * V)) (k : string) : Res (option V) :=
  if obj_has o "hasOwnProperty" then Throw TypeError else Ok (obj_get o k).

(** [v.getVal()]: defined by [IntValue], [BoolValue] and [StringValue] only. *)
Definition getVal (v : TLAValue) : Res Prim :=
  match v with
  | IntValue n => Ok (PNum n)
  | BoolValue b => Ok (PBool b)
  | StringValue s => Ok (PStr s)
  | _ => Throw TypeError
  end.

(** Truthiness of a primitive. *)
Definition truthy (p : Prim) : bool :=
  match p with
  | PNum n => negb (n =? 0)
  | PBool b => b
  | PStr s => negb (String.eqb s EmptyString)
  end.

Definition prim_toString (p : Prim) : string :=
  match p with
  | PNum n => num_toString n
  | PBool b => if b then "true" else "false"
  | PStr s => s
  end.

Fixpoint allSome {A : Type} (l : list (option A)) : option (list A) :=
  match l with
  | [] => Some []
  | None :: _ => None
  | Some x :: t => option_map (cons x) (allSome t)
  end.

(** [v.toString()]; [None] when it throws (a record whose domain holds a
    value without [getVal]). *)
Fixpoint toString (v : TLAValue) : option string :=
  match v with
  | IntValue n => Some (num_toString n)
  | BoolValue b => Some (if b then "TRUE" else "FALSE")
  | StringValue s => Some (dquote ++ s ++ dquote)%string
  | SetValue es =>
      option_map (fun ss => ("{" ++ join "," ss ++ "}")%string) (allSome (map toString es))
  | TupleValue es =>
      option_map (fun ss => ("<<" ++ join "," ss ++ ">>")%string) (allSome (map toString es))
  | FcnRcdValue d vs isRecord =>
      let vstr := map toString vs in
      let valAt (idx : nat) : option string :=
        match nth_error vstr idx with
        | Some r => r
        | None => Some "undefined"
        end in
      let entry (idx : nat) (dv : TLAValue) (dstr : option string) : option string :=
        match (if isRecord
               then match getVal dv with Ok p => Some (prim_toString p) | _ => None end
               else dstr), valAt idx with
        | Some k, Some x =>
            Some (k ++ (if isRecord then " |-> " else " :> ") ++ x)%string
        | _, _ => None
        end in
      let entries :=
        map (fun p => entry (fst p) (fst (snd p)) (snd (snd p)))
            (combine (seq 0 (List.length d)) (combine d (map toString d))) in
      option_map
        (fun ss => if isRecord then ("[" ++ join ", " ss ++ "]")%string
                   else ("(" ++ join " @@ " ss ++ ")")%string)
        (allSome entries)
  end.

(** [_.zip(a, b)] followed by [hashSum] on each pair: the shorter array is
    padded with [undefined]. *)
Fixpoint zipPad (a b : list string) {struct a} : list JSData :=
  match a with
  | [] => map (fun y => DArr [DUndef; DStr y]) b
  | x :: a' =>
      match b with
      | [] => DArr [DStr x; DUndef] :: zipPad a' []
      | y :: b' => DArr [DStr x; DStr y] :: zipPad a' b'
      end
  end.

Section Values.

(** The hash-sum library. *)
Variable hashSum : JSData -> string.

(** [FcnRcdValue.fingerprint], from the fingerprints of the domain and of
    the values. *)
Definition fcnFingerprint (domFps valsFp : list string) : string :=
  hashSum (DArr (map DStr (js_sort (map hashSum (zipPad domFps valsFp))))).

(** [fingerprint()] of each class; a tuple is hashed as the function on
    [1..n] it stands for. *)
Fixpoint fingerprint (v : TLAValue) : string :=
  match v with
  | IntValue n => hashSum (DNum n)
  | BoolValue b => hashSum (DBool b)
  | StringValue s => s
  | SetValue es => hashSum (DArr (map DStr (js_sort (map fingerprint es))))
  | TupleValue es =>
      fcnFingerprint
        (map (fun i => hashSum (DNum i)) (Lodash.range 1 (Z.of_nat (List.length es) + 1)))
        (map fingerprint es)
  | FcnRcdValue d vs _ => fcnFingerprint (map fingerprint d) (map fingerprint vs)
  end.

(** [new SetValue(elems)]: duplicates are removed by fingerprint. *)
Definition mkSetValue (elems : list TLAValue) : TLAValue :=
  SetValue (Lodash.uniqBy fingerprint elems).

(** [TupleValue.toFcnRcd]. *)
Definition toFcnRcd (elems : list TLAValue) : TLAValue :=
  FcnRcdValue (map IntValue (Lodash.range 1 (Z.of_nat (List.length elems) + 1))) elems false.

End Values.

(** [FcnRcdValue.toTuple] and [TupleValue.toTuple]. *)
Definition isIntValue (v : TLAValue) : bool :=
  match v with IntValue _ => true | _ => false end.

Fixpoint list_eqb {A : Type} (eqb : A -> A -> bool) (a b : list A) : bool :=
  match a, b with
  | [], [] => true
  | x :: a', y :: b' => eqb x y && list_eqb eqb a' b'
  | _, _ => false
  end.

(** lodash's [compareAscending(a, b) === 1] on two criteria that are TLA
    values or [undefined] ([None]): objects are compared with [>], which
    compares their [toString()] as strings; [undefined] is the greatest. *)
Definition critGt (a b : option TLAValue) : bool :=
  match a, b with
  | None, None => false
  | None, Some _ => true
  | Some _, None => false
  | Some x, Some y =>
      match toString x, toString y with
      | Some sx, Some sy => String.ltb sy sx
      | _, _ => false
      end
  end.

(** [valsRevIndex]: an object from [String(vals[ind])] to
    [this.getDomain()[ind]], filled for [ind = 0 .. vals.length - 1]. *)
Fixpoint valsRevIndexFrom (keys : list string) (dom : list TLAValue)
    (o : list (string * option TLAValue)) : list (string * option TLAValue) :=
  match keys with
  | [] => o
  | k :: keys' => valsRevIndexFrom keys' (tl dom) (obj_set o k (hd_error dom))
  end.

Definition revIndexLookup (o : list (string * option TLAValue)) (v : TLAValue) : option TLAValue :=
  match toString v with
  | Some k => match obj_get o k with Some d => d | None => None end
  | None => None
  end.

Definition toTuple (v : TLAValue) : Res TLAValue :=
  match v with
  | TupleValue _ => Ok v
  | FcnRcdValue dom vals _ =>
      if negb (forallb isIntValue dom) then Throw "cannot convert record to tuple"
      else
        let expectedDomain := Lodash.range 1 (Z.of_nat (List.length dom) + 1) in
        let domNums := flat_map (fun d => match d with IntValue n => [n] | _ => [] end) dom in
        if negb (list_eqb Z.eqb expectedDomain (Lodash.sortBy Z.gtb (fun n => n) domNums))
        then Throw "cannot convert record to tuple"
        else
          match allSome (map toString vals) with
          | None => Throw TypeError
          | Some keys =>
              let valsRevIndex := valsRevIndexFrom keys dom [] in
              Ok (TupleValue (Lodash.sortBy critGt (revIndexLookup valsRevIndex) vals))
          end
  | _ => Throw "value cannot be converted to tuple"
  end.

(** ** States *)

(** A JavaScript value where a TLA value is expected: [null] (an unassigned
    variable, no result yet), [undefined] (a missing property) or a value. *)
Inductive JSVal : Type :=
| JNull
| JUndefined
| JV (v : TLAValue).

Definition isNull (v : JSVal) : bool :=
  match v with JNull => true | _ => false end.

(** [TLAState]: the object [stateVars]. *)
Definition TLAState := list (string * JSVal).

(** [hasVar(varname)] is [this.stateVars.hasOwnProperty(varname)]. *)
Definition hasVar (st : TLAState) (varname : string) : Res bool :=
  hasOwnProperty st varname.

Definition getVarVal (st : TLAState) (varname : string) : JSVal :=
  match obj_get st varname with Some v => v | None => JUndefined end.

Definition withVarVal (st : TLAState) (varName : string) (newVal : JSVal) : TLAState :=
  Lodash.mapValues (fun k v => if String.eqb k varName then newVal else v) st.

Definition deprimeVars (st : TLAState) : TLAState :=
  Lodash.mapKeys dropLast (Lodash.pickByKey endsWithPrime st).

(** [_.keys(stateVars).filter(k => stateVars[k] !== null)]. *)
Definition assignedVars (st : TLAState) : list string :=
  filter (fun k => negb (isNull (getVarVal st k))) (obj_keys st).

(** ** Syntax trees *)

(** A tree-sitter node: its type, its source text, whether it is a named
    node, the field name it has in its parent (empty when none) and its
    children. *)
Inductive Node : Type :=
| mkNode (type : string) (text : string) (named : bool) (field : string)
         (children : list Node).

Definition type (n : Node) : string := let (t, _, _, _, _) := n in t.
Definition text (n : Node) : string := let (_, t, _, _, _) := n in t.
Definition isNamed (n : Node) : bool := let (_, _, b, _, _) := n in b.
Definition fieldName (n : Node) : string := let (_, _, _, f, _) := n in f.
Definition children (n : Node) : list Node := let (_, _, _, _, c) := n in c.
Definition namedChildren (n : Node) : list Node := filter isNamed (children n).
Definition childForFieldName (n : Node) (f : string) : option Node :=
  find (fun c => String.eqb (fieldName c) f) (children n).
Definition lastNamedChild (n : Node) : option Node :=
  last (map Some (namedChildren n)) None.
Definition typeIs (n : Node) (t : string) : bool := String.eqb (type n) t.

(** [a.slice(1, a.length - 1)]. *)
Definition sliceInner {A : Type} (l : list A) : list A := removelast (tl l).

(** An entry of [op_defs]. *)
Record Defn : Type := mkDefn {
  defn_name : string;
  defn_args : list string;
  defn_node : Node
}.

(** ** Contexts *)

Record Context : Type := mkContext {
  val : JSVal;
  state : TLAState;
  defns : list (string * Defn);
  quant_bound : list (string * JSVal);
  constants : option (list (string * JSVal));
  prev_func_val : JSVal;
  primed : bool
}.

(** [new Context(val, state, defns, quant_bound, constants)]. *)
Definition newContext (v : JSVal) (st : TLAState) (ds : list (string * Defn))
    (qb : list (string * JSVal)) (cs : option (list (string * JSVal))) : Context :=
  mkContext v st ds qb cs JUndefined false.

(** The object [clone()] returns: the constructor resets [primed]. *)
Definition cloned (c : Context) : Context :=
  mkContext (val c) (state c) (defns c) (quant_bound c) (constants c) (prev_func_val c) false.

Definition setVal (c : Context) (v : JSVal) : Context :=
  mkContext v (state c) (defns c) (quant_bound c) (constants c) (prev_func_val c) (primed c).
Definition setState (c : Context) (st : TLAState) : Context :=
  mkContext (val c) st (defns c) (quant_bound c) (constants c) (prev_func_val c) (primed c).
Definition setQuantBound (c : Context) (qb : list (string * JSVal)) : Context :=
  mkContext (val c) (state c) (defns c) qb (constants c) (prev_func_val c) (primed c).
Definition setPrimed (c : Context) (b : bool) : Context :=
  mkContext (val c) (state c) (defns c) (quant_bound c) (constants c) (prev_func_val c) b.

(** ** The store and the evaluation monad *)

(** The [Context] objects allocated so far, by location, and the global
    flag [ASSIGN_PRIMED]. *)
Record Store : Type := mkStore {
  heap : list Context;
  ASSIGN_PRIMED : bool
}.

Definition loc := nat.

Definition M (A : Type) : Type := Store -> Res (A * Store).

Definition ret {A : Type} (a : A) : M A := fun s => Ok (a, s).

Definition bind {A B : Type} (m : M A) (k : A -> M B) : M B :=
  fun s =>
    match m s with
    | Ok (a, s') => k a s'
    | Throw msg => Throw msg
    | Unmodelled => Unmodelled
    | OutOfFuel => OutOfFuel
    end.

Definition throw {A : Type} (msg : string) : M A := fun _ => Throw msg.
Definition unmodelled {A : Type} : M A := fun _ => Unmodelled.
Definition outOfFuel {A : Type} : M A := fun _ => OutOfFuel.

Definition lift {A : Type} (r : Res A) : M A :=
  fun s =>
    match r with
    | Ok a => Ok (a, s)
    | Throw msg => Throw msg
    | Unmodelled => Unmodelled
    | OutOfFuel => OutOfFuel
    end.

Declare Scope eval_scope.
Delimit Scope eval_scope with eval.
Notation "x <- m ;; k" := (bind m (fun x => k))
  (at level 61, m at next level, right associativity) : eval_scope.
Notation "m ;;; k" := (bind m (fun _ => k))
  (at level 61, right associativity) : eval_scope.
Local Open Scope eval_scope.

(** [assert(cond, message)]. *)
Definition assert (cond : bool) : M unit :=
  if cond then ret tt else throw "Assertion failed".

Fixpoint mapM {A B : Type} (f : A -> M B) (l : list A) : M (list B) :=
  match l with
  | [] => ret []
  | x :: t => y <- f x ;; ys <- mapM f t ;; ret (y :: ys)
  end.

Fixpoint foldM {A B : Type} (f : B -> A -> M B) (l : list A) (b : B) : M B :=
  match l with
  | [] => ret b
  | x :: t => b' <- f b x ;; foldM f t b'
  end.

(** Reading and writing the object at a location. *)
Definition getCtx (l : loc) : M Context :=
  fun s =>
    match nth_error (heap s) l with
    | Some c => Ok (c, s)
    | None => Throw "no object at this location"
    end.

Fixpoint replaceNth {A : Type} (n : nat) (x : A) (l : list A) : list A :=
  match l, n with
  | [], _ => []
  | _ :: t, O => x :: t
  | y :: t, S n' => y :: replaceNth n' x t
  end.

Definition putCtx (l : loc) (c : Context) : M unit :=
  fun s => Ok (tt, mkStore (replaceNth l c (heap s)) (ASSIGN_PRIMED s)).

Definition alloc (c : Context) : M loc :=
  fun s => Ok (List.length (heap s), mkStore (heap s ++ [c]) (ASSIGN_PRIMED s)).

Definition getAssignPrimed : M bool := fun s => Ok (ASSIGN_PRIMED s, s).
Definition setAssignPrimed (b : bool) : M unit :=
  fun s => Ok (tt, mkStore (heap s) b).

(** The methods of [Context]; each returns the location of a new object. *)
Definition clone (ctx : loc) : M loc :=
  c <- getCtx ctx ;; alloc (cloned c).

Definition withValAndState (ctx : loc) (valNew : JSVal) (stateNew : TLAState) : M loc :=
  c <- getCtx ctx ;; alloc (setState (setVal (cloned c) valNew) stateNew).

Definition withVal (ctx : loc) (valNew : JSVal) : M loc :=
  c <- getCtx ctx ;; alloc (setVal (cloned c) valNew).

Definition withState (ctx : loc) (stateNew : TLAState) : M loc :=
  c <- getCtx ctx ;; alloc (setState (cloned c) stateNew).

Definition withBoundVar (ctx : loc) (name : string) (v : JSVal) : M loc :=
  c <- getCtx ctx ;;
  if String.eqb name "__proto__" then unmodelled
  else alloc (setQuantBound (cloned c) (obj_set (quant_bound c) name v)).

Definition withPrimed (ctx : loc) : M loc :=
  c <- getCtx ctx ;; alloc (setPrimed (cloned c) true).

(** What [evalExpr] returns: an array of contexts, or [undefined] ([None])
    where a handler falls off its end. *)
Definition RetVal := option (list loc).

(** [r[0]["val"]]. *)
Definition firstVal (r : RetVal) : M JSVal :=
  match r with
  | Some (l :: _) => c <- getCtx l ;; ret (val c)
  | _ => throw TypeError
  end.

(** [assert(r.length === 1)] followed by [r[0]["val"]]. *)
Definition singleVal (r : RetVal) : M JSVal :=
  match r with
  | None => throw TypeError
  | Some ls => assert (Nat.eqb (List.length ls) 1) ;;; firstVal r
  end.

(** Method calls on a value that may be [null] or [undefined]. *)
Definition callGetVal (v : JSVal) : M Prim :=
  match v with
  | JV x => lift (getVal x)
  | _ => throw TypeError
  end.

Definition instanceofInt (v : JSVal) : bool :=
  match v with JV (IntValue _) => true | _ => false end.
Definition instanceofBool (v : JSVal) : bool :=
  match v with JV (BoolValue _) => true | _ => false end.
Definition instanceofSet (v : JSVal) : bool :=
  match v with JV (SetValue _) => true | _ => false end.
Definition instanceofTLAValue (v : JSVal) : bool :=
  match v with JV _ => true | _ => false end.

(** [a.and(b)] of [BoolValue]: [new BoolValue(a.getVal() && b.getVal())].
    Only a [BoolValue] has the method; [&&] does not look at [b] when [a] is
    false.  A result that is not a boolean is not modelled. *)
Definition callAnd (a b : JSVal) : M JSVal :=
  match a with
  | JV (BoolValue false) => ret (JV (BoolValue false))
  | JV (BoolValue true) =>
      p <- callGetVal b ;;
      match p with
      | PBool x => ret (JV (BoolValue x))
      | _ => unmodelled
      end
  | _ => throw TypeError
  end.

(** [ToNumber] on a primitive; strings are not modelled. *)
Definition toNumber (p : Prim) : M Z :=
  match p with
  | PNum n => ret n
  | PBool b => ret (if b then 1 else 0)
  | PStr _ => unmodelled
  end.

(** [evalExpr(n, ctx)] on a child that may be missing: reading [n.type] of
    [undefined] throws. *)
Definition evalOpt (ev : Node -> loc -> M RetVal) (n : option Node) (ctx : loc) : M RetVal :=
  match n with
  | Some x => ev x ctx
  | None => throw TypeError
  end.

(** [Number.MAX_SAFE_INTEGER], and a number the evaluator has computed:
    outside the safe range the double is rounded, which is not modelled. *)
Definition maxSafeInteger : Z := 9007199254740991.

Definition number (n : Z) : M Z :=
  if Z.abs n <=? maxSafeInteger then ret n else unmodelled.

(** [parseInt] on a string of decimal digits. *)
Definition digitOf (c : ascii) : option Z :=
  let n := nat_of_ascii c in
  if (48 <=? n)%nat && (n <=? 57)%nat then Some (Z.of_nat (n - 48)) else None.

Fixpoint parseDigits (s : string) (acc : option Z) : option Z :=
  match s with
  | EmptyString => acc
  | String c rest =>
      match digitOf c with
      | Some d => parseDigits rest (Some (match acc with Some a => 10 * a + d | None => d end))
      | None => acc
      end
  end.

Definition parseInt (s : string) : option Z := parseDigits s None.

(** ** The evaluator *)

Section Evaluator.

(** The hash-sum library. *)
Variable hashSum : JSData -> string.

Definition callFingerprint (v : JSVal) : M string :=
  match v with
  | JV x => ret (fingerprint hashSum x)
  | _ => throw TypeError
  end.

Definition unJV (v : JSVal) : option TLAValue :=
  match v with JV x => Some x | _ => None end.

(** [new SetValue(vals)]: the constructor takes the fingerprint of every
    element. *)
Definition newSetValue (vals : list JSVal) : M JSVal :=
  match allSome (map unJV vals) with
  | Some xs => ret (JV (mkSetValue hashSum xs))
  | None => throw TypeError
  end.

(** [new TupleValue(vals)]; a tuple holding [null] or [undefined] is not
    modelled. *)
Definition newTupleValue (vals : list JSVal) : M JSVal :=
  match allSome (map unJV vals) with
  | Some xs => ret (JV (TupleValue xs))
  | None => unmodelled
  end.

(** [_.flattenDeep] of the array of the results of several calls of
    [evalExpr]: a call that returned [undefined] leaves [undefined]
    ([None]) as an element. *)
Definition flattenDeep (rs : list RetVal) : list (option loc) :=
  flat_map (fun r => match r with Some ls => map Some ls | None => [None] end) rs.

(** An array of contexts as a return value; one that holds [undefined]
    is not modelled. *)
Definition returnCtxs (cs : list (option loc)) : M RetVal :=
  match allSome cs with
  | Some ls => ret (Some ls)
  | None => unmodelled
  end.

Definition valOf (l : loc) : M JSVal := c <- getCtx l ;; ret (val c).
Definition stateOf (l : loc) : M TLAState := c <- getCtx l ;; ret (state c).

(** [processDisjunctiveContexts(ctx, retCtxs, currAssignedVars)]. *)
Definition processDisjunctiveContexts (ctx : loc) (retCtxs : list (option loc))
    (currAssignedVars : list string) : M RetVal :=
  if (1 <? List.length retCtxs)%nat then
    match allSome retCtxs with
    | None => throw TypeError
    | Some ls =>
        vals <- mapM valOf ls ;;
        assert (forallb instanceofTLAValue vals) ;;;
        assert (forallb instanceofBool vals) ;;;
        states <- mapM stateOf ls ;;
        let assignedInSub :=
          existsb (fun st => (List.length currAssignedVars <? List.length (assignedVars st))%nat)
                  states in
        if assignedInSub then ret (Some ls)
        else
          prims <- mapM callGetVal vals ;;
          let someTrue := existsb truthy prims in
          r <- withVal ctx (JV (BoolValue someTrue)) ;;
          ret (Some [r])
    end
  else returnCtxs retCtxs.

Section Handlers.

(** The recursive calls of [evalExpr]. *)
Variable ev : Node -> loc -> M RetVal.

Definition evalLnot (v : Node) (ctx : loc) : M RetVal :=
  r <- ev v ctx ;;
  lval <- firstVal r ;;
  p <- callGetVal lval ;;
  c <- withVal ctx (JV (BoolValue (negb (truthy p)))) ;;
  ret (Some [c]).

Definition evalLand (lhs rhs : Node) (ctx : loc) : M RetVal :=
  l <- ev lhs ctx ;;
  let lhsEval := match l with Some ls => ls | None => [] end in
  rhsEval <- mapM (fun lctx =>
               r <- ev rhs lctx ;;
               match r with
               | None => throw TypeError
               | Some acs =>
                   mapM (fun actx =>
                           lv <- valOf lctx ;;
                           av <- valOf actx ;;
                           b <- callAnd lv av ;;
                           st <- stateOf actx ;;
                           withValAndState actx b st) acs
               end) lhsEval ;;
  ret (Some (List.concat rhsEval)).

Definition evalLor (lhs rhs : Node) (ctx : loc) : M RetVal :=
  st <- stateOf ctx ;;
  let currAssignedVars := assignedVars st in
  ctxLhs <- ev lhs ctx ;;
  ctxRhs <- ev rhs ctx ;;
  match ctxLhs with
  | None => throw TypeError
  | Some ls =>
      let retCtxs :=
        (map Some ls ++ match ctxRhs with Some rs => map Some rs | None => [None] end)%list in
      processDisjunctiveContexts ctx retCtxs currAssignedVars
  end.

(** [isPrimedVar(treeNode, ctx)]: checks if a syntax tree node represents
    a primed variable.  The state is asked only when the node has the
    shape [x']. *)
Definition isPrimedVar (treeNode : Node) (ctx : loc) : M bool :=
  match children treeNode with
  | lhs :: symbol :: _ =>
      if typeIs treeNode "bound_postfix_op" &&
         typeIs lhs "identifier_ref" &&
         typeIs symbol "prime"
      then
        c <- getCtx ctx ;;
        h <- lift (hasVar (state c) (text lhs)) ;;
        ret (h && negb (isNull (getVarVal (state c) (text lhs))))
      else ret false
  | _ => ret false
  end.

(** [evalEq(lhs, rhs, ctx)].  [hasVar] and [isPrimedVar] only read the
    state, which nothing changes between their calls: each is called once
    here, where the source repeats the call. *)
Definition evalEq (lhs rhs : Node) (ctx : loc) : M RetVal :=
  let identName := text lhs in
  c <- getCtx ctx ;;
  hasIdent <- lift (hasVar (state c) identName) ;;
  pv <- isPrimedVar lhs ctx ;;
  let isUnprimedVar := hasIdent && negb pv in
  ap <- getAssignPrimed ;;
  if pv || (isUnprimedVar && negb ap) then
    if hasIdent && negb (isNull (getVarVal (state c) identName)) then
      rhsVals <- ev rhs ctx ;;
      rhsVal <- singleVal rhsVals ;;
      lhsVals <- ev lhs ctx ;;
      lhsVal <- firstVal lhsVals ;;
      lfp <- callFingerprint lhsVal ;;
      rfp <- callFingerprint rhsVal ;;
      r <- withVal ctx (JV (BoolValue (String.eqb lfp rfp))) ;;
      ret (Some [r])
    else
      stateUpdated <-
        mapM (fun kv : string * JSVal =>
                if String.eqb (fst kv) identName then
                  cl <- clone ctx ;;
                  rhsVals <- ev rhs cl ;;
                  rhsVal <- singleVal rhsVals ;;
                  ret (fst kv, if isNull (snd kv) then rhsVal else snd kv)
                else ret kv)
             (state c) ;;
      r <- withValAndState ctx (JV (BoolValue true)) stateUpdated ;;
      ret (Some [r])
  else
    cl <- clone ctx ;;
    lhsVals <- ev lhs cl ;;
    lhsVal <- singleVal lhsVals ;;
    cr <- clone ctx ;;
    rhsVals <- ev rhs cr ;;
    rhsVal <- singleVal rhsVals ;;
    lfp <- callFingerprint lhsVal ;;
    rfp <- callFingerprint rhsVal ;;
    r <- withVal ctx (JV (BoolValue (String.eqb lfp rfp))) ;;
    ret (Some [r]).

(** The loop of [evalUnchanged] that replaces an identifier by the body
    of its definition; it does not end on a cyclic chain of definitions,
    which is longer than the table. *)
Fixpoint expandUnchanged (n : nat) (ds : list (string * Defn)) (unchangedVal : Node)
    : Res Node :=
  if typeIs unchangedVal "identifier_ref" then
    match ownProperty ds (text unchangedVal) with
    | Ok (Some d) =>
        match n with
        | S n' => expandUnchanged n' ds (defn_node d)
        | O => OutOfFuel
        end
    | Ok None => Ok unchangedVal
    | Throw msg => Throw msg
    | Unmodelled => Unmodelled
    | OutOfFuel => OutOfFuel
    end
  else Ok unchangedVal.

(** [ctx.state = ctx.state.withVarVal(elem.text + "'", v)] for the value
    [v] of [elem]: the assignment is to the caller's object. *)
Definition assignUnchanged (elem : Node) (ctx : loc) : M unit :=
  r <- ev elem ctx ;;
  unprimedVarVal <- firstVal r ;;
  c <- getCtx ctx ;;
  putCtx ctx (setState c (withVarVal (state c) (text elem ++ "'") unprimedVarVal)).

Definition evalUnchanged (node : Node) (ctx : loc) : M RetVal :=
  c <- getCtx ctx ;;
  match nth_error (namedChildren node) 1 with
  | None => throw TypeError
  | Some n1 =>
      unchangedVal <- lift (expandUnchanged (S (List.length (defns c))) (defns c) n1) ;;
      if typeIs unchangedVal "tuple_literal" then
        let tupleElems :=
          filter (fun x => typeIs x "identifier_ref") (namedChildren unchangedVal) in
        mapM (fun elem => assignUnchanged elem ctx) tupleElems ;;;
        r <- withVal ctx (JV (BoolValue true)) ;;
        ret (Some [r])
      else
        assert (typeIs unchangedVal "identifier_ref") ;;;
        assignUnchanged unchangedVal ctx ;;;
        r <- withVal ctx (JV (BoolValue true)) ;;
        ret (Some [r])
  end.

(** The operands of an arithmetic or ordering operator that asserts
    [instanceof IntValue] on both before it computes. *)
Definition intOperands (lhs rhs : option Node) (ctx : loc) : M (Z * Z) :=
  l <- evalOpt ev lhs ctx ;;
  lhsVal <- firstVal l ;;
  r <- evalOpt ev rhs ctx ;;
  rhsVal <- firstVal r ;;
  assert (instanceofInt lhsVal) ;;;
  assert (instanceofInt rhsVal) ;;;
  match lhsVal, rhsVal with
  | JV (IntValue a), JV (IntValue b) => ret (a, b)
  | _, _ => throw TypeError
  end.

(** The operands of [*] and [%]: [getVal()] of both, coerced by the
    operator. *)
Definition numOperands (lhs rhs : option Node) (ctx : loc) : M (Z * Z) :=
  l <- evalOpt ev lhs ctx ;;
  lhsVal <- firstVal l ;;
  r <- evalOpt ev rhs ctx ;;
  rhsVal <- firstVal r ;;
  p <- callGetVal lhsVal ;;
  q <- callGetVal rhsVal ;;
  a <- toNumber p ;;
  b <- toNumber q ;;
  ret (a, b).

Definition retWithVal (ctx : loc) (v : JSVal) : M RetVal :=
  r <- withVal ctx v ;; ret (Some [r]).

Definition symbolIn (symbol : Node) (l : list string) : bool :=
  existsb (String.eqb (type symbol)) l.

Definition evalBoundInfix (node : Node) (ctx : loc) : M RetVal :=
  let lhs := nth_error (children node) 0 in
  let rhs := nth_error (children node) 2 in
  match nth_error (children node) 1 with
  | None => throw TypeError
  | Some symbol =>
      if typeIs symbol "mul" then
        ab <- numOperands lhs rhs ctx ;;
        n <- number (fst ab * snd ab) ;;
        retWithVal ctx (JV (IntValue n))
      else if typeIs symbol "plus" then
        ab <- intOperands lhs rhs ctx ;;
        n <- number (fst ab + snd ab) ;;
        retWithVal ctx (JV (IntValue n))
      else if typeIs symbol "minus" then
        ab <- intOperands lhs rhs ctx ;;
        n <- number (fst ab - snd ab) ;;
        retWithVal ctx (JV (IntValue n))
      else if typeIs symbol "gt" then
        ab <- intOperands lhs rhs ctx ;;
        retWithVal ctx (JV (BoolValue (fst ab >? snd ab)))
      else if typeIs symbol "lt" then
        ab <- intOperands lhs rhs ctx ;;
        retWithVal ctx (JV (BoolValue (fst ab <? snd ab)))
      else if typeIs symbol "geq" then
        ab <- intOperands lhs rhs ctx ;;
        retWithVal ctx (JV (BoolValue (fst ab >=? snd ab)))
      else if typeIs symbol "leq" then
        ab <- intOperands lhs rhs ctx ;;
        retWithVal ctx (JV (BoolValue (fst ab <=? snd ab)))
      else if typeIs symbol "mod" then
        ab <- numOperands lhs rhs ctx ;;
        if snd ab =? 0 then unmodelled
        else retWithVal ctx (JV (IntValue (Z.rem (fst ab) (snd ab))))
      else if typeIs symbol "lor" then
        match lhs, rhs with
        | Some l, Some r => evalLor l r ctx
        | _, _ => throw TypeError
        end
      else if typeIs symbol "land" then
        match lhs, rhs with
        | Some l, Some r => evalLand l r ctx
        | _, _ => throw TypeError
        end
      else if typeIs symbol "implies" then
        l <- evalOpt ev lhs ctx ;;
        a <- firstVal l ;;
        r <- evalOpt ev rhs ctx ;;
        b <- firstVal r ;;
        p <- callGetVal a ;;
        if negb (truthy p) then retWithVal ctx (JV (BoolValue true))
        else
          q <- callGetVal b ;;
          match q with
          | PBool x => retWithVal ctx (JV (BoolValue x))
          | _ => unmodelled
          end
      else if typeIs symbol "eq" then
        match lhs, rhs with
        | Some l, Some r => evalEq l r ctx
        | _, _ => throw TypeError
        end
      else if typeIs symbol "neq" then
        match lhs with
        | None => throw TypeError
        | Some lnode =>
            l <- ev lnode ctx ;;
            lhsVal <- firstVal l ;;
            r <- evalOpt ev rhs ctx ;;
            rhsVal <- singleVal r ;;
            lfp <- callFingerprint lhsVal ;;
            rfp <- callFingerprint rhsVal ;;
            retWithVal ctx (JV (BoolValue (negb (String.eqb lfp rfp))))
        end
      else if symbolIn symbol ["in"; "notin"] then
        throw "Assertion failed"
      else if symbolIn symbol ["cap"; "cup"; "setminus"; "times"] then
        unmodelled
      else if typeIs symbol "dots_2" then
        ab <- intOperands lhs rhs ctx ;;
        let rangeVal := map IntValue (Lodash.range (fst ab) (snd ab + 1)) in
        retWithVal ctx (JV (mkSetValue hashSum rangeVal))
      else if symbolIn symbol ["map_to"; "compose"; "circ"] then
        unmodelled
      else throw "unsupported infix symbol"
  end.

Definition evalBoundPrefix (node : Node) (ctx : loc) : M RetVal :=
  let rhs := nth_error (children node) 1 in
  match nth_error (children node) 0 with
  | None => throw TypeError
  | Some symbol =>
      if symbolIn symbol ["enabled"; "domain"; "powerset"] then unmodelled
      else if typeIs symbol "negative" then
        r <- evalOpt ev rhs ctx ;;
        rhsVal <- firstVal r ;;
        match rhsVal with
        | JV (IntValue n) => retWithVal ctx (JV (IntValue (- n)))
        | _ => unmodelled
        end
      else if typeIs symbol "lnot" then
        match rhs with
        | Some v => evalLnot v ctx
        | None => throw TypeError
        end
      else if typeIs symbol "unchanged" then evalUnchanged node ctx
      else ret None
  end.

Definition evalBoundPostfix (node : Node) (ctx : loc) : M RetVal :=
  let lhs := nth_error (namedChildren node) 0 in
  match nth_error (namedChildren node) 1 with
  | None => throw TypeError
  | Some symbol =>
      if typeIs symbol "prime" then
        p <- withPrimed ctx ;;
        evalOpt ev lhs p
      else ret None
  end.

Definition evalDisjList (parent : Node) (disjs : list Node) (ctx : loc) : M RetVal :=
  st <- stateOf ctx ;;
  let currAssignedVars := assignedVars st in
  rs <- mapM (fun disj => ev disj ctx) disjs ;;
  processDisjunctiveContexts ctx (flattenDeep rs) currAssignedVars.

Definition isComment (c : Node) : bool :=
  symbolIn c ["comment"; "block_comment"].

Definition evalConjList (parent : Node) (conjs : list Node) (ctx : loc) : M RetVal :=
  c <- getCtx ctx ;;
  (if isNull (val c) then putCtx ctx (setVal c (JV (BoolValue true))) else ret tt) ;;;
  res <- foldM (fun prev conj =>
             res <- mapM (fun ctxPrev =>
                       pv <- valOf ctxPrev ;;
                       p <- callGetVal pv ;;
                       match p with
                       | PBool false => ret [ctxPrev]
                       | _ =>
                           r <- ev conj ctxPrev ;;
                           match r with
                           | None => throw TypeError
                           | Some cs =>
                               mapM (fun ctxCurr =>
                                       cv <- valOf ctxCurr ;;
                                       pv' <- valOf ctxPrev ;;
                                       conjVal <- callAnd cv pv' ;;
                                       withVal ctxCurr conjVal) cs
                           end
                       end) prev ;;
             ret (List.concat res))
           (filter (fun x => negb (isComment x)) conjs) [ctx] ;;
  ret (Some res).

Definition evalIdentifierRef (node : Node) (ctx : loc) : M RetVal :=
  let ident_name := text node in
  c <- getCtx ctx ;;
  let isPrimed := primed c in
  isVar <- lift (hasVar (state c) ident_name) ;;
  if isVar && negb isPrimed then
    retWithVal ctx (getVarVal (state c) ident_name)
  else
    isVarPrimed <- lift (hasVar (state c) (ident_name ++ "'")) ;;
    if isVarPrimed && isPrimed then
      retWithVal ctx (getVarVal (state c) (ident_name ++ "'"))
    else
      bound <- lift (ownProperty (quant_bound c) ident_name) ;;
      match bound with
      | Some bound_val => retWithVal ctx bound_val
      | None =>
          defn <- lift (ownProperty (defns c) ident_name) ;;
          match defn with
          | Some d =>
              if typeIs (defn_node d) "function_definition" then unmodelled
              else ev (defn_node d) ctx
          | None =>
              match constants c with
              | Some cs =>
                  constant <- lift (ownProperty cs ident_name) ;;
                  match constant with
                  | Some constantVal => retWithVal ctx constantVal
                  | None => ret None
                  end
              | None => ret None
              end
          end
      end.

(** [currInd] after the loop over the quantifier bounds that follow the
    quantifier; [None] when the loop runs off the children. *)
Fixpoint skipQuantBounds (l : list Node) (currInd : nat) : option nat :=
  match l with
  | [] => None
  | n :: t =>
      if typeIs n "quantifier_bound" then skipQuantBounds t (S currInd)
      else Some currInd
  end.

Definition evalBoundedQuantification (node : Node) (ctx : loc) : M RetVal :=
  let named := namedChildren node in
  let quantBoundNodes := filter (fun c => typeIs c "quantifier_bound") named in
  assert (Nat.eqb (List.length quantBoundNodes) 1) ;;;
  assert (match quantBoundNodes with
          | q :: _ =>
              Nat.eqb (List.length (filter (fun c => typeIs c "identifier") (namedChildren q))) 1
          | [] => false
          end) ;;;
  match nth_error named 0 with
  | None => throw TypeError
  | Some quantifier =>
      assert (typeIs quantifier "exists" || typeIs quantifier "forall") ;;;
      match skipQuantBounds (tl named) 1, nth_error named 1 with
      | Some currInd, Some quantBound =>
          r <- evalOpt ev (lastNamedChild quantBound) ctx ;;
          domainVal <- firstVal r ;;
          assert (instanceofSet domainVal) ;;;
          let quantDomain := match domainVal with JV (SetValue es) => es | _ => [] end in
          match filter (fun c => typeIs c "identifier") (namedChildren quantBound) with
          | [] => throw TypeError
          | ident :: _ =>
              let quantIdent := text ident in
              if Nat.eqb (List.length quantDomain) 0 then
                retWithVal ctx (JV (BoolValue (typeIs quantifier "forall")))
              else
                st <- stateOf ctx ;;
                let currAssignedVars := assignedVars st in
                rs <- mapM (fun domVal =>
                          boundContext <- clone ctx ;;
                          bc <- getCtx boundContext ;;
                          (if String.eqb quantIdent "__proto__" then unmodelled
                           else putCtx boundContext
                                  (setQuantBound bc
                                     (obj_set (quant_bound bc) quantIdent (JV domVal)))) ;;;
                          bc2 <- clone boundContext ;;
                          evalOpt ev (nth_error named currInd) bc2) quantDomain ;;
                let retCtxs := flattenDeep rs in
                if typeIs quantifier "forall" then
                  match allSome retCtxs with
                  | None => throw TypeError
                  | Some ls =>
                      vals <- mapM valOf ls ;;
                      prims <- mapM callGetVal vals ;;
                      retWithVal ctx (JV (BoolValue (forallb truthy prims)))
                  end
                else processDisjunctiveContexts ctx retCtxs currAssignedVars
          end
      | _, _ => throw TypeError
      end
  end.

(** [getElems()]: a method of [SetValue] and [TupleValue]. *)
Definition callGetElems (v : JSVal) : M (list TLAValue) :=
  match v with
  | JV (SetValue es) => ret es
  | JV (TupleValue es) => ret es
  | _ => throw TypeError
  end.

(** The loop of [evalChoose] over the elements of the domain. *)
Fixpoint chooseFrom (boundVar : string) (condition : option Node) (ctx : loc)
    (elems : list TLAValue) : M RetVal :=
  match elems with
  | [] => throw "No value satisfying CHOOSE predicate"
  | v :: rest =>
      boundCtx <- withBoundVar ctx boundVar (JV v) ;;
      r <- evalOpt ev condition boundCtx ;;
      condVal <- firstVal r ;;
      p <- callGetVal condVal ;;
      if truthy p then retWithVal ctx (JV v)
      else chooseFrom boundVar condition ctx rest
  end.

Definition evalChoose (node : Node) (ctx : loc) : M RetVal :=
  let named := namedChildren node in
  r <- evalOpt ev (nth_error named 2) ctx ;;
  domainVal <- firstVal r ;;
  elems <- callGetElems domainVal ;;
  match elems, nth_error named 0 with
  | [], _ => throw "No value satisfying CHOOSE predicate"
  | _, None => throw TypeError
  | _, Some boundVar => chooseFrom (text boundVar) (nth_error named 3) ctx elems
  end.

Definition evalFiniteSetLiteral (node : Node) (ctx : loc) : M RetVal :=
  let innerChildren := sliceInner (children node) in
  let elems := filter (fun child => negb (typeIs child ",")) innerChildren in
  vals <- mapM (fun child => r <- ev child ctx ;; singleVal r) elems ;;
  s <- newSetValue vals ;;
  retWithVal ctx s.

Definition evalTupleLiteral (node : Node) (ctx : loc) : M RetVal :=
  let elems := sliceInner (namedChildren node) in
  tupleVals <- mapM (fun el => r <- ev el ctx ;; firstVal r) elems ;;
  t <- newTupleValue tupleVals ;;
  retWithVal ctx t.

Definition evalIfThenElse (node : Node) (ctx : loc) : M RetVal :=
  c0 <- clone ctx ;;
  r <- evalOpt ev (childForFieldName node "if") c0 ;;
  condVal <- firstVal r ;;
  p <- callGetVal condVal ;;
  c1 <- clone ctx ;;
  if truthy p then evalOpt ev (childForFieldName node "then") c1
  else evalOpt ev (childForFieldName node "else") c1.

(** [node.text.substring(1, node.text.length - 1)]. *)
Definition unquote (s : string) : string :=
  String.substring 1 (String.length s - 2) s.

(** The node types [evalExpr] handles that are outside the embedding. *)
Definition unmodelledTypes : list string :=
  ["let_in"; "prev_func_val"; "except"; "function_evaluation"; "bound_op"; "case";
   "set_of_functions"; "set_of_records"; "set_map"; "set_filter"; "record_value";
   "record_literal"; "function_literal"].

(** The body of [evalExpr]. *)
Definition evalExprBody (node : Node) (ctx : loc) : M RetVal :=
  if typeIs node "parentheses" then evalOpt ev (nth_error (namedChildren node) 0) ctx
  else if symbolIn node ["let_in"; "prev_func_val"] then unmodelled
  else if typeIs node "choose" then evalChoose node ctx
  else if symbolIn node ["except"; "function_evaluation"] then unmodelled
  else
    pv <- isPrimedVar node ctx ;;
    c <- getCtx ctx ;;
    if pv && negb (isNull (getVarVal (state c) (text node))) then
      retWithVal ctx (getVarVal (state c) (text node))
    else if typeIs node "conj_list" then evalConjList node (children node) ctx
    else if typeIs node "disj_list" then evalDisjList node (children node) ctx
    else if typeIs node "conj_item" then evalOpt ev (nth_error (children node) 1) ctx
    else if typeIs node "disj_item" then evalOpt ev (nth_error (children node) 1) ctx
    else if typeIs node "bound_op" then unmodelled
    else if typeIs node "bound_infix_op" then evalBoundInfix node ctx
    else if typeIs node "bound_prefix_op" then evalBoundPrefix node ctx
    else if typeIs node "bound_postfix_op" then evalBoundPostfix node ctx
    else if typeIs node "bounded_quantification" then evalBoundedQuantification node ctx
    else if typeIs node "identifier_ref" then evalIdentifierRef node ctx
    else if typeIs node "if_then_else" then evalIfThenElse node ctx
    else if symbolIn node unmodelledTypes then unmodelled
    else if typeIs node "boolean_set" then
      s <- newSetValue [JV (BoolValue true); JV (BoolValue false)] ;;
      retWithVal ctx s
    else if typeIs node "nat_number" then
      match parseInt (text node) with
      | Some n => m <- number n ;; retWithVal ctx (JV (IntValue m))
      | None => unmodelled
      end
    else if typeIs node "boolean" then
      retWithVal ctx (JV (BoolValue (String.eqb (text node) "TRUE")))
    else if typeIs node "string" then
      if (String.length (text node) <? 2)%nat then unmodelled
      else retWithVal ctx (JV (StringValue (unquote (text node))))
    else if typeIs node "finite_set_literal" then evalFiniteSetLiteral node ctx
    else if typeIs node "tuple_literal" then evalTupleLiteral node ctx
    else ret None.

End Handlers.

(** [evalExpr(node, ctx)], with a bound on the depth of the calls. *)
Fixpoint evalExpr (fuel : nat) (node : Node) (ctx : loc) : M RetVal :=
  match fuel with
  | O => outOfFuel
  | S fuel' => evalExprBody (evalExpr fuel') node ctx
  end.

(** ** State generation *)

(** What [parseSpec] extracts and the generators read.  [var_decls] is
    read by [for (v in vars)] only: the field holds the keys this loop
    yields on the object, in its order.  [op_defs] and [fn_defs] are the
    tables of the definitions. *)
Record TreeObjs : Type := mkTreeObjs {
  var_decls : list string;
  op_defs : list (string * Defn);
  fn_defs : list (string * Defn)
}.

(** [getInitStates(initDef, vars, defns, constvals)]. *)
Definition getInitStates (fuel : nat) (initDef : Node) (vars : list string)
    (ds : list (string * Defn)) (constvals : option (list (string * JSVal))) : M RetVal :=
  setAssignPrimed false ;;;
  (if existsb (String.eqb "__proto__") vars then unmodelled else ret tt) ;;;
  let init_var_vals := fold_left (fun o v => obj_set o v JNull) vars [] in
  initCtx <- alloc (newContext JNull init_var_vals ds [] constvals) ;;
  ret_ctxs <- evalExpr fuel initDef initCtx ;;
  match ret_ctxs with
  | None => throw TypeError
  | Some _ => ret ret_ctxs
  end.

(** [Object.assign(defns, fn_defs)]. *)
Definition assignDefs (ds fs : list (string * Defn)) : list (string * Defn) :=
  fold_left (fun o kv => obj_set o (fst kv) (snd kv)) fs ds.

(** [TlaInterpreter.computeInitStates(treeObjs, constvals)]. *)
Definition computeInitStates (fuel : nat) (treeObjs : TreeObjs)
    (constvals : option (list (string * JSVal))) : M (list TLAState) :=
  let ds := assignDefs (op_defs treeObjs) (fn_defs treeObjs) in
  match obj_get ds "Init" with
  | None => throw TypeError
  | Some initDef =>
      r <- getInitStates fuel (defn_node initDef) (var_decls treeObjs) ds constvals ;;
      let initStates := match r with Some ls => ls | None => [] end in
      kept <- mapM (fun actx =>
                v <- valOf actx ;;
                p <- callGetVal v ;;
                st <- stateOf actx ;;
                ret (truthy p, st)) initStates ;;
      ret (map snd (filter fst kept))
  end.

(** The loop of [getNextStates] that adds a primed slot for every
    variable of the state. *)
Definition addPrimed (st : TLAState) : TLAState :=
  fold_left (fun o k => obj_set o (k ++ "'") JNull) (obj_keys st) st.

Definition allPrimedAssigned (origVars : list string) (st : TLAState) : bool :=
  forallb (fun v => negb (isNull (getVarVal st (v ++ "'")))) origVars.

Definition isTrue (p : Prim) : bool :=
  match p with PBool true => true | _ => false end.

(** [getNextStates(nextDef, currStateVars, defns, constvals)]. *)
Definition getNextStates (fuel : nat) (nextDef : Node) (currStateVars : TLAState)
    (ds : list (string * Defn)) (constvals : option (list (string * JSVal))) : M (list loc) :=
  setAssignPrimed true ;;;
  let origVars := obj_keys currStateVars in
  initCtx <- alloc (newContext JNull (addPrimed currStateVars) ds [] constvals) ;;
  r <- evalExpr fuel nextDef initCtx ;;
  match r with
  | None => throw TypeError
  | Some cs =>
      enabled <- mapM (fun c => v <- valOf c ;; p <- callGetVal v ;; ret (isTrue p, c)) cs ;;
      let ret1 := map snd (filter fst enabled) in
      full <- mapM (fun c => st <- stateOf c ;; ret (allPrimedAssigned origVars st, c)) ret1 ;;
      ret (map snd (filter fst full))
  end.

(** [TlaInterpreter.computeNextStates(treeObjs, constvals, initStates)]. *)
Definition computeNextStates (fuel : nat) (treeObjs : TreeObjs)
    (constvals : option (list (string * JSVal))) (initStates : list TLAState) : M (list loc) :=
  let ds := op_defs treeObjs in
  allNext <- mapM (fun istate =>
               match obj_get ds "Next" with
               | None => throw TypeError
               | Some nextDef => getNextStates fuel (defn_node nextDef) istate ds constvals
               end) initStates ;;
  ret (List.concat allNext).

End Evaluator.

(** The store before a call from outside the evaluator. *)
Definition emptyStore : Store := mkStore [] false.

(** ** Syntax trees of the grammar, as the parser builds them *)
Module Syntax.

Definition leaf (ty txt : string) : Node := mkNode ty txt true EmptyString [].
Definition anon (txt : string) : Node := mkNode txt txt false EmptyString [].
Definition withField (f : string) (n : Node) : Node :=
  let (t, x, b, _, c) := n in mkNode t x b f c.

Definition identifier_ref (x : string) : Node := leaf "identifier_ref" x.
Definition identifier (x : string) : Node := leaf "identifier" x.
Definition nat_number (x : string) : Node := leaf "nat_number" x.
Definition boolean (x : string) : Node := leaf "boolean" x.

Definition bound_infix_op (lhs : Node) (sym symText : string) (rhs : Node) : Node :=
  mkNode "bound_infix_op" (text lhs ++ " " ++ symText ++ " " ++ text rhs) true EmptyString
    [withField "lhs" lhs; withField "symbol" (leaf sym symText); withField "rhs" rhs].

Definition bound_prefix_op (sym symText : string) (rhs : Node) : Node :=
  mkNode "bound_prefix_op" (symText ++ " " ++ text rhs) true EmptyString
    [withField "symbol" (leaf sym symText); withField "rhs" rhs].

Definition bound_postfix_op (lhs : Node) (sym symText : string) : Node :=
  mkNode "bound_postfix_op" (text lhs ++ symText) true EmptyString
    [withField "lhs" lhs; withField "symbol" (leaf sym symText)].

Definition primedVar (x : string) : Node := bound_postfix_op (identifier_ref x) "prime" "'".

Definition parentheses (e : Node) : Node :=
  mkNode "parentheses" ("(" ++ text e ++ ")") true EmptyString [anon "("; e; anon ")"].

Definition commaSep (l : list Node) : list Node :=
  match l with
  | [] => []
  | x :: t => x :: flat_map (fun y => [anon ","; y]) t
  end.

Definition finite_set_literal (elems : list Node) : Node :=
  mkNode "finite_set_literal" ("{" ++ join ", " (map text elems) ++ "}") true EmptyString
    (anon "{" :: commaSep elems ++ [anon "}"]).

Definition tuple_literal (elems : list Node) : Node :=
  mkNode "tuple_literal" ("<<" ++ join ", " (map text elems) ++ ">>") true EmptyString
    (leaf "langle_bracket" "<<" :: commaSep elems ++ [leaf "rangle_bracket" ">>"]).

Definition conj_item (e : Node) : Node :=
  mkNode "conj_item" ("/\ " ++ text e) true EmptyString [leaf "bullet_conj" "/\"; e].
Definition conj_list (es : list Node) : Node :=
  mkNode "conj_list" (join " " (map (fun e => text (conj_item e)) es)) true EmptyString
    (map conj_item es).

Definition quantifier_bound (x : string) (dom : Node) : Node :=
  mkNode "quantifier_bound" (x ++ " \in " ++ text dom) true EmptyString
    [identifier x; leaf "set_in" "\in"; withField "set" dom].

Definition bounded_quantification (q qText x : string) (dom e : Node) : Node :=
  mkNode "bounded_quantification" (qText ++ " " ++ x ++ " \in " ++ text dom ++ " : " ++ text e)
    true EmptyString
    [withField "quantifier" (leaf q qText); withField "bound" (quantifier_bound x dom);
     anon ":"; withField "expression" e].

Definition choose (x : string) (dom e : Node) : Node :=
  mkNode "choose" ("CHOOSE " ++ x ++ " \in " ++ text dom ++ " : " ++ text e) true EmptyString
    [anon "CHOOSE"; identifier x; leaf "set_in" "\in"; withField "set" dom; anon ":";
     withField "expression" e].

Definition if_then_else (c a b : Node) : Node :=
  mkNode "if_then_else" ("IF " ++ text c ++ " THEN " ++ text a ++ " ELSE " ++ text b)
    true EmptyString
    [anon "IF"; withField "if" c; anon "THEN"; withField "then" a; anon "ELSE";
     withField "else" b].

(** Shorthands for the operators. *)
Definition eq (a b : Node) := bound_infix_op a "eq" "=" b.
Definition neq (a b : Node) := bound_infix_op a "neq" "#" b.
Definition land (a b : Node) := bound_infix_op a "land" "/\" b.
Definition lor (a b : Node) := bound_infix_op a "lor" "\/" b.
Definition implies (a b : Node) := bound_infix_op a "implies" "=>" b.
Definition plus (a b : Node) := bound_infix_op a "plus" "+" b.
Definition mul (a b : Node) := bound_infix_op a "mul" "*" b.
Definition dots_2 (a b : Node) := bound_infix_op a "dots_2" ".." b.
Definition lnot (a : Node) := bound_prefix_op "lnot" "~" a.
Definition unchanged (a : Node) := bound_prefix_op "unchanged" "UNCHANGED" a.

End Syntax.

(** A collision-free stand-in for hash-sum, used in the concrete runs: it
    renders its argument. *)
Fixpoint renderData (d : JSData) : string :=
  match d with
  | DNum n => "n" ++ num_toString n ++ ";"
  | DBool b => if b then "T;" else "F;"
  | DStr s => "s" ++ num_toString (Z.of_nat (String.length s)) ++ ":" ++ s
  | DUndef => "u;"
  | DArr l => "[" ++ String.concat EmptyString (map renderData l) ++ "]"
  end.

(** ** Reading results *)

(** The value and the state of the contexts at the locations [ls]. *)
Definition readBranches (s : Store) (ls : list loc) : list (JSVal * TLAState) :=
  flat_map (fun l => match nth_error (heap s) l with
                     | Some c => [(val c, state c)]
                     | None => []
                     end) ls.

(** [evalExpr(node, new Context(null, st, defns, {}, undefined))] in a store
    that holds this context only, with [ASSIGN_PRIMED] set to [ap]: the
    value and state of every branch returned. *)
Definition evalFresh (hashSum : JSData -> string) (fuel : nat) (ap : bool)
    (st : TLAState) (ds : list (string * Defn)) (node : Node)
    : Res (option (list (JSVal * TLAState))) :=
  match evalExpr hashSum fuel node 0%nat (mkStore [newContext JNull st ds [] None] ap) with
  | Ok (r, s) => Ok (option_map (readBranches s) r)
  | Throw msg => Throw msg
  | Unmodelled => Unmodelled
  | OutOfFuel => OutOfFuel
  end.

(** [TLAState.fingerprint]: it throws on an unassigned variable. *)
Definition stateFingerprint (hashSum : JSData -> string) (st : TLAState) : option string :=
  let stateKeys := js_sort (obj_keys st) in
  option_map (fun fps => hashSum (DArr (map DStr (List.concat fps))))
    (allSome (map (fun k => match getVarVal st k with
                            | JV v => Some [k; fingerprint hashSum v]
                            | _ => None
                            end) stateKeys)).

(** ** Inputs and predicates of the statements *)

Import Syntax.

(** The result of a computation, without the store. *)
Definition resultOf {A : Type} (r : Res (A * Store)) : Res A :=
  match r with
  | Ok (a, _) => Ok a
  | Throw msg => Throw msg
  | Unmodelled => Unmodelled
  | OutOfFuel => OutOfFuel
  end.

(** [Init == foo /\ x = 1] over the variable [x]; [foo] is bound nowhere. *)
Definition initUnbound : TreeObjs :=
  mkTreeObjs ["x"]
    [("Init", mkDefn "Init" []
                (land (identifier_ref "foo") (eq (identifier_ref "x") (nat_number "1"))))]
    [].

(** The states of the branches of a result. *)
Definition branchStates (r : Res (option (list (JSVal * TLAState))))
  : Res (option (list TLAState)) :=
  match r with
  | Ok o => Ok (option_map (map snd) o)
  | Throw msg => Throw msg
  | Unmodelled => Unmodelled
  | OutOfFuel => OutOfFuel
  end.

(** The state [x = 0] with the slot of [x'] that [getNextStates] adds. *)
Definition stateX0 : TLAState := [("x", JV (IntValue 0)); ("x'", JNull)].

(** The set literals [{2, 1}] and [{1, 2}]. *)
Definition set21 : Node := finite_set_literal [nat_number "2"; nat_number "1"].
Definition set12 : Node := finite_set_literal [nat_number "1"; nat_number "2"].

(** The state in which the variable [S] holds the set [{2, 1}], with its
    elements in the order of this literal, and the one for [{1, 2}]. *)
Definition stateS21 : TLAState := [("S", JV (SetValue [IntValue 2; IntValue 1]))].
Definition stateS12 : TLAState := [("S", JV (SetValue [IntValue 1; IntValue 2]))].

(** The store after [ctx.withVal(v)] for the context [parent] at [ctx]. *)
Definition storeWith (s : Store) (c : Context) : Store :=
  mkStore (heap s ++ [c]) (ASSIGN_PRIMED s).

(** [x' = 1 \/ x' = 2]: two branches, both TRUE, with different states. *)
Definition twoBranches : Node :=
  lor (eq (primedVar "x") (nat_number "1")) (eq (primedVar "x") (nat_number "2")).


(** [x = 1 \/ UNCHANGED x]. *)
Definition orUnchanged : Node :=
  lor (eq (identifier_ref "x") (nat_number "1")) (unchanged (identifier_ref "x")).

(** The store in which [getNextStates] starts on the state [x = 0]. *)
Definition storeX0 : Store := mkStore [newContext JNull stateX0 [] [] None] true.

(** Truthiness of [v.getVal()] for the value of a branch. *)
Definition truthyVal (v : JSVal) : bool :=
  match v with
  | JV x => match getVal x with Ok p => truthy p | _ => false end
  | _ => false
  end.

(** Whether the branch at [l] is kept by [computeInitStates], and its state. *)
Definition branchInfo (s : Store) (l : loc) : bool * TLAState :=
  match nth_error (heap s) l with
  | Some c => (truthyVal (val c), state c)
  | None => (false, [])
  end.

(** The states of the branches [ls] whose value is true, in the order of the
    branches, one for each such branch. *)
Definition trueStates (s : Store) (ls : list loc) : list TLAState :=
  map snd (filter fst (map (branchInfo s) ls)).

(** Every branch holds a value that has [getVal]. *)
Definition branchesHaveGetVal (s : Store) (ls : list loc) : Prop :=
  Forall (fun l => exists c x p,
              nth_error (heap s) l = Some c /\ val c = JV x /\ getVal x = Ok p) ls.

(** [Init == x = 0 \/ x = 0] over the variable [x]. *)
Definition initTwice : TreeObjs :=
  mkTreeObjs ["x"]
    [("Init", mkDefn "Init" []
                (lor (eq (identifier_ref "x") (nat_number "0"))
                     (eq (identifier_ref "x") (nat_number "0"))))]
    [].

(** The value is the boolean TRUE. *)
Definition isTRUEVal (v : JSVal) : bool :=
  match v with JV (BoolValue true) => true | _ => false end.

(** The branch at [l] has the value TRUE and every primed variable of
    [origVars] assigned. *)
Definition keepNext (s : Store) (origVars : list string) (l : loc) : bool :=
  match nth_error (heap s) l with
  | Some c => isTRUEVal (val c) && allPrimedAssigned origVars (state c)
  | None => false
  end.

(** The store in which [getNextStates] evaluates [Next] from the state [S]:
    a new context on [S] with an unassigned slot for every primed variable,
    and [ASSIGN_PRIMED] set. *)
Definition nextStore (s0 : Store) (S : TLAState) (ds : list (string * Defn))
    (constvals : option (list (string * JSVal))) : Store :=
  mkStore (heap s0 ++ [newContext JNull (addPrimed S) ds [] constvals]) true.

(** [Next == x' = 1 \/ x = 0]: from [x = 0] both branches are TRUE, and
    the second leaves [x'] unassigned. *)
Definition nextPartial : Node :=
  lor (eq (primedVar "x") (nat_number "1")) (eq (identifier_ref "x") (nat_number "0")).




(** The context of the start of a next-state evaluation from [x = 0]. *)
Definition parentX0 : Context := newContext JNull stateX0 [] [] None.







(** What [isPrimedVar] answers on the state [st] when it answers: the node
    is a postfix operator whose operand is an identifier and whose symbol is
    the prime, and the identifier names a variable that holds a value. *)
Definition isPrimedVarIn (st : TLAState) (treeNode : Node) : bool :=
  match children treeNode with
  | lhs :: symbol :: _ =>
      typeIs treeNode "bound_postfix_op" &&
      typeIs lhs "identifier_ref" &&
      typeIs symbol "prime" &&
      obj_has st (text lhs) &&
      negb (isNull (getVarVal st (text lhs)))
  | _ => false
  end.

(** No variable of the state hides the method [hasOwnProperty]. *)
Definition plainNames (st : TLAState) : Prop := obj_has st "hasOwnProperty" = false.



(** The store of a next-state evaluation in which [x'] is assigned 1. *)
Definition storeX1 : Store :=
  mkStore [newContext JNull [("x", JV (IntValue 0)); ("x'", JV (IntValue 1))] [] [] None] true.

(** A collision of the hash function: two different arguments with the
    same hash. *)
Definition collision (hashSum : JSData -> string) : Prop :=
  exists a b : JSData, a <> b /\ hashSum a = hashSum b.

(** Whatever the store is, the condition of a CHOOSE, evaluated on the
    context in which [boundVar] is bound to [v], has a first branch that
    holds the boolean [P v], and the evaluation leaves the context [ctx]
    alone. *)
Definition conditionDecides (ev : Node -> loc -> M RetVal) (condition : Node)
    (boundVar : string) (ctx : loc) (parent : Context) (P : TLAValue -> bool)
    (v : TLAValue) : Prop :=
  forall s : Store,
    nth_error (heap s) ctx = Some parent ->
    exists (r : loc) (rest : list loc) (s' : Store) (cr : Context),
      ev condition (List.length (heap s))
         (storeWith s (setQuantBound (cloned parent)
                         (obj_set (quant_bound parent) boundVar (JV v))))
      = Ok (Some (r :: rest), s')
      /\ nth_error (heap s') r = Some cr
      /\ val cr = JV (BoolValue (P v))
      /\ nth_error (heap s') ctx = Some parent.

(** ** Enumerations *)

(** [cartesianProductOf(...arrays)]: [_.reduce] over the argument arrays,
    from [[[]]]; each step extends every tuple built so far by every
    element of the next array. *)
Definition cartesianProductOf {A : Type} (arrays : list (list A)) : list (list A) :=
  fold_left (fun a b => flat_map (fun x => map (fun y => (x ++ [y])%list) b) a) arrays [[]].

(** [generatePowerset(path, index)] of [subsets(vals)], on the elements
    [rest] of [vals] from [index] on: what it pushes, in order. *)
Fixpoint generatePowerset {A : Type} (path rest : list A) {struct rest} : list (list A) :=
  path ::
  (fix loop (r : list A) : list (list A) :=
     match r with
     | [] => []
     | v :: r' => (generatePowerset (path ++ [v]) r' ++ loop r')%list
     end) rest.

Definition subsets {A : Type} (vals : list A) : list (list A) := generatePowerset [] vals.

(** [combs(domain, range)]: all mappings from [domain] to [range], each a
    list of key-value pairs. *)
Fixpoint combs {A B : Type} (domain : list A) (range : list B) : list (list (A * B)) :=
  match domain with
  | [] => [[]]
  | d :: domain' =>
      flat_map (fun v => map (fun c => (c ++ [(d, v)])%list) (combs domain' range)) range
  end.

(** [s] is a subsequence of [l]: some elements of [l], in their order. *)
Inductive Subseq {A : Type} : list A -> list A -> Prop :=
| Subseq_nil : Subseq [] []
| Subseq_skip (x : A) (s l : list A) : Subseq s l -> Subseq s (x :: l)
| Subseq_take (x : A) (s l : list A) : Subseq s l -> Subseq (x :: s) (x :: l).

(** ** Set operations and function application *)

(** [_.isEqual] on two values: objects of the same class whose fields are
    equal, arrays element by element. *)
Fixpoint isEqual (a b : TLAValue) : bool :=
  match a, b with
  | IntValue n, IntValue m => Z.eqb n m
  | BoolValue x, BoolValue y => Bool.eqb x y
  | StringValue s, StringValue t => String.eqb s t
  | SetValue es, SetValue fs => list_eqb isEqual es fs
  | TupleValue es, TupleValue fs => list_eqb isEqual es fs
  | FcnRcdValue d v r, FcnRcdValue d' v' r' =>
      list_eqb isEqual d d' && list_eqb isEqual v v' && Bool.eqb r r'
  | _, _ => false
  end.

(** lodash's functions with a comparator; [includes(array, value)] calls
    [comparator(value, array[index])]. *)
Module LodashWith.

(** [_.uniqWith(array, comparator)]. *)
Fixpoint uniqWithFrom {A : Type} (comparator : A -> A -> bool) (result array : list A)
    : list A :=
  match array with
  | [] => result
  | value :: rest =>
      if existsb (comparator value) result then uniqWithFrom comparator result rest
      else uniqWithFrom comparator (result ++ [value]) rest
  end.

Definition uniqWith {A : Type} (comparator : A -> A -> bool) (array : list A) : list A :=
  uniqWithFrom comparator [] array.

(** [_.intersectionWith(array, other, comparator)]: the loop over [array]
    ends when the result has the length of the shorter argument. *)
Fixpoint intersectionWithFrom {A : Type} (comparator : A -> A -> bool) (maxLength : nat)
    (other result array : list A) : list A :=
  match array with
  | [] => result
  | value :: rest =>
      if (List.length result <? maxLength)%nat then
        if negb (existsb (comparator value) result) && existsb (comparator value) other
        then intersectionWithFrom comparator maxLength other (result ++ [value]) rest
        else intersectionWithFrom comparator maxLength other result rest
      else result
  end.

Definition intersectionWith {A : Type} (comparator : A -> A -> bool) (array other : list A)
    : list A :=
  intersectionWithFrom comparator (Nat.min (List.length array) (List.length other))
    other [] array.

(** [_.differenceWith(array, values, comparator)]. *)
Definition differenceWith {A : Type} (comparator : A -> A -> bool) (array values : list A)
    : list A :=
  filter (fun value => negb (existsb (comparator value) values)) array.

(** [_.findIndex(array, predicate)]; [None] is -1. *)
Fixpoint findIndex {A : Type} (predicate : A -> bool) (array : list A) : option nat :=
  match array with
  | [] => None
  | x :: rest => if predicate x then Some O else option_map S (findIndex predicate rest)
  end.

End LodashWith.

Section SetsAndFunctions.

Variable hashSum : JSData -> string.

(** [SetValue.unionWith], [intersectionWith] and [diffWith], on the
    elements of the two sets. *)
Definition unionWith (elems otherElems : list TLAValue) : TLAValue :=
  mkSetValue hashSum (LodashWith.uniqWith isEqual (elems ++ otherElems)).

Definition intersectionWith (elems otherElems : list TLAValue) : TLAValue :=
  mkSetValue hashSum (LodashWith.intersectionWith isEqual elems otherElems).

Definition diffWith (elems otherElems : list TLAValue) : TLAValue :=
  mkSetValue hashSum (LodashWith.differenceWith isEqual elems otherElems).

(** [FcnRcdValue.argIndex(arg)]. *)
Definition argIndex (domain : list TLAValue) (arg : TLAValue) : option nat :=
  LodashWith.findIndex
    (fun v => String.eqb (fingerprint hashSum v) (fingerprint hashSum arg)) domain.

(** [f.applyArg(arg)]; an index behind the values gives [undefined]. *)
Definition applyArg (f : TLAValue) (arg : TLAValue) : Res JSVal :=
  match f with
  | FcnRcdValue domain values _ =>
      match argIndex domain arg with
      | Some idx =>
          Ok (match nth_error values idx with Some v => JV v | None => JUndefined end)
      | None => Throw "Assertion failed"
      end
  | _ => Throw TypeError
  end.

(** [f.updateWith(arg, newVal)]: [newFn.values[idx] = newVal] on a copy.
    For the index -1 the assignment adds the property ["-1"], which is no
    element of the array; an index behind the end of the array leaves
    holes, which is not modelled. *)
Definition updateWith (f : TLAValue) (arg newVal : TLAValue) : Res TLAValue :=
  match f with
  | FcnRcdValue domain values isRecord =>
      match argIndex domain arg with
      | None => Ok (FcnRcdValue domain values isRecord)
      | Some idx =>
          if (idx <? List.length values)%nat
          then Ok (FcnRcdValue domain (replaceNth idx newVal values) isRecord)
          else if (idx =? List.length values)%nat
          then Ok (FcnRcdValue domain (values ++ [newVal]) isRecord)
          else Unmodelled
      end
  | _ => Throw TypeError
  end.

(** The values of an array that holds no [undefined]. *)
Fixpoint definedValues (l : list (Res JSVal)) : Res (list TLAValue) :=
  match l with
  | [] => Ok []
  | Ok (JV v) :: rest =>
      match definedValues rest with
      | Ok vs => Ok (v :: vs)
      | Throw msg => Throw msg
      | Unmodelled => Unmodelled
      | OutOfFuel => OutOfFuel
      end
  | Ok _ :: _ => Unmodelled
  | Throw msg :: _ => Throw msg
  | Unmodelled :: _ => Unmodelled
  | OutOfFuel :: _ => OutOfFuel
  end.

(** [f.compose(other)]; a function with [undefined] among its values is
    not modelled. *)
Definition compose (f other : TLAValue) : Res TLAValue :=
  match f with
  | FcnRcdValue domain values _ =>
      match other with
      | FcnRcdValue otherDomain _ _ =>
          let thisDomainFps := map (fingerprint hashSum) domain in
          let inThis (v : TLAValue) :=
            existsb (String.eqb (fingerprint hashSum v)) thisDomainFps in
          let newDomain := (domain ++ filter (fun v => negb (inThis v)) otherDomain)%list in
          match definedValues
                  (map (fun v => if inThis v then applyArg f v else applyArg other v)
                       newDomain) with
          | Ok newRange => Ok (FcnRcdValue newDomain newRange false)
          | Throw msg => Throw msg
          | Unmodelled => Unmodelled
          | OutOfFuel => OutOfFuel
          end
      | _ => Throw "Assertion failed"
      end
  | _ => Throw TypeError
  end.

End SetsAndFunctions.

(** ** Nested application and update of functions *)

Section FunctionPaths.

Variable hashSum : JSData -> string.

(** [f.applyPathArg(pathArg)]. *)
Fixpoint applyPathArg (f : TLAValue) (pathArg : list TLAValue) : Res JSVal :=
  match pathArg with
  | [] => Throw TypeError
  | arg :: rest =>
      match rest with
      | [] => applyArg hashSum f arg
      | _ :: _ =>
          match applyArg hashSum f arg with
          | Ok (JV fApplied) => applyPathArg fApplied rest
          | Ok _ => Throw TypeError
          | Throw msg => Throw msg
          | Unmodelled => Unmodelled
          | OutOfFuel => OutOfFuel
          end
      end
  end.

(** [values[idx] = newVal] on an array: an index behind the end of the
    array leaves holes, which is not modelled. *)
Definition assignIndex (values : list TLAValue) (idx : nat) (newVal : TLAValue)
    : Res (list TLAValue) :=
  if (idx <? List.length values)%nat then Ok (replaceNth idx newVal values)
  else if (idx =? List.length values)%nat then Ok (values ++ [newVal])%list
  else Unmodelled.

(** [f.updateWithPath(args, newVal)]: the update [f[a1]...[an] := newVal]. *)
Fixpoint updateWithPath (f : TLAValue) (args : list TLAValue) (newVal : TLAValue)
    : Res TLAValue :=
  match args with
  | [] => Throw TypeError
  | arg :: rest =>
      match f with
      | FcnRcdValue domain values isRecord =>
          match rest with
          | [] =>
              match argIndex hashSum domain arg with
              | None => Throw "Assertion failed"
              | Some idx =>
                  match assignIndex values idx newVal with
                  | Ok values' => Ok (FcnRcdValue domain values' isRecord)
                  | Throw msg => Throw msg
                  | Unmodelled => Unmodelled
                  | OutOfFuel => OutOfFuel
                  end
              end
          | _ :: _ =>
              match argIndex hashSum domain arg with
              | None => Throw TypeError
              | Some idx =>
                  match nth_error values idx with
                  | None => Throw TypeError
                  | Some inner =>
                      match updateWithPath inner rest newVal with
                      | Ok inner' => Ok (FcnRcdValue domain (replaceNth idx inner' values) isRecord)
                      | Throw msg => Throw msg
                      | Unmodelled => Unmodelled
                      | OutOfFuel => OutOfFuel
                      end
                  end
              end
          end
      | _ => Throw TypeError
      end
  end.

End FunctionPaths.

(** The record [[a |-> [b |-> 1]]]. *)
Definition nestedRecord : TLAValue :=
  FcnRcdValue [StringValue "a"]
    [FcnRcdValue [StringValue "b"] [IntValue 1] true] true.

(** ** Reachable states *)

(** What [computeReachableStates] returns. *)
Record Reachable : Type := mkReachable {
  initStates : list TLAState;
  states : list TLAState;
  edges : list (TLAState * TLAState)
}.

Section ReachableStates.

Variable hashSum : JSData -> string.

(** The loop of [computeReachableStates], with a bound on the number of
    its rounds: [stateQueue.pop()] takes the last state of the queue. *)
Fixpoint reachLoop (fuel steps : nat) (treeObjs : TreeObjs)
    (constvals : option (list (string * JSVal)))
    (stateQueue : list TLAState) (seenStatesHashSet : list string)
    (reachableStates : list TLAState) (edges : list (TLAState * TLAState))
    : M (list TLAState * list (TLAState * TLAState)) :=
  match steps with
  | O => outOfFuel
  | S steps' =>
      match rev stateQueue with
      | [] => ret (reachableStates, edges)
      | currState :: before =>
          let stateQueue := rev before in
          match stateFingerprint hashSum currState with
          | None => throw TypeError
          | Some currStateHash =>
              if existsb (String.eqb currStateHash) seenStatesHashSet then
                reachLoop fuel steps' treeObjs constvals stateQueue seenStatesHashSet
                  reachableStates edges
              else
                cs <- computeNextStates hashSum fuel treeObjs constvals [currState] ;;
                nextStates <- mapM (fun c => st <- stateOf c ;; ret (deprimeVars st)) cs ;;
                reachLoop fuel steps' treeObjs constvals (stateQueue ++ nextStates)
                  (currStateHash :: seenStatesHashSet)
                  (reachableStates ++ [currState])
                  (edges ++ map (fun nextSt => (currState, nextSt)) nextStates)
          end
      end
  end.

(** [TlaInterpreter.computeReachableStates(treeObjs, constvals)];
    [computeInitStates] has put the function definitions into
    [treeObjs["op_defs"]], where [computeNextStates] finds them. *)
Definition computeReachableStates (fuel steps : nat) (treeObjs : TreeObjs)
    (constvals : option (list (string * JSVal))) : M Reachable :=
  initStates <- computeInitStates hashSum fuel treeObjs constvals ;;
  let treeObjs' :=
    mkTreeObjs (var_decls treeObjs) (assignDefs (op_defs treeObjs) (fn_defs treeObjs))
      (fn_defs treeObjs) in
  r <- reachLoop fuel steps treeObjs' constvals initStates [] [] [] ;;
  ret (mkReachable initStates (fst r) (snd r)).

End ReachableStates.

(** [Init == x = 0] and [Next == x' = 1 \/ x' = 0] over the variable [x]. *)
Definition specFlip : TreeObjs :=
  mkTreeObjs ["x"]
    [("Init", mkDefn "Init" [] (eq (identifier_ref "x") (nat_number "0")));
     ("Next", mkDefn "Next" []
                (lor (eq (primedVar "x") (nat_number "1"))
                     (eq (primedVar "x") (nat_number "0"))))]
    [].

(** What holds of the queue, the fingerprints seen, the states recorded
    and the edges in every round of the loop of [computeReachableStates]
    that started from the states [init]. *)
Definition reachInv (hashSum : JSData -> string) (init queue : list TLAState)
    (seen : list string) (reachable : list TLAState) (es : list (TLAState * TLAState))
    : Prop :=
  map (stateFingerprint hashSum) reachable = map Some (rev seen)
  /\ NoDup seen
  /\ (forall st, In st init \/ (exists e, In e es /\ snd e = st) ->
        In st queue
        \/ exists h, stateFingerprint hashSum st = Some h /\ In h seen)
  /\ (forall st, In st reachable \/ In st queue ->
        In st init \/ exists e, In e es /\ snd e = st)
  /\ (forall e, In e es -> In (fst e) reachable).

(** ** Predicates and inputs of the further properties *)

(** Sorted by the code units: no element is behind a later one. *)
Fixpoint sortedStrings (l : list string) : Prop :=
  match l with
  | [] => True
  | x :: t => Forall (fun y => String.ltb y x = false) t /\ sortedStrings t
  end.

(** A list in the order of [gt]: no element is greater than a later one. *)
Fixpoint ordered {A : Type} (gt : A -> A -> bool) (l : list A) : Prop :=
  match l with
  | [] => True
  | x :: t => Forall (fun y => gt x y = false) t /\ ordered gt t
  end.

(** Every branch of [ls] holds the boolean FALSE. *)
Definition allFalse (s : Store) (ls : list loc) : Prop :=
  Forall (fun l => exists c, nth_error (heap s) l = Some c /\ val c = JV (BoolValue false)) ls.

(** [/\ FALSE /\ foo], the children of a conjunction list whose second
    conjunct is an identifier bound nowhere. *)
Definition conjFalse : list Node := [conj_item (boolean "FALSE")].
Definition conjUnbound : list Node := [conj_item (identifier_ref "foo")].

(** ** The variables of the states of an evaluation *)

Section StateVariables.

Variable base : nat.
Variable vars : list string.

(** From the location [base] on, every context of the store holds a state
    over the variables [vars]. *)
Definition statesOver (s : Store) : Prop :=
  (base <= List.length (heap s))%nat
  /\ forall (l : loc) (c : Context),
       (base <= l)%nat -> nth_error (heap s) l = Some c -> obj_keys (state c) = vars.

(** A computation that returns keeps this, and what it returns
    satisfies [Q]. *)
Definition keeps {A : Type} (m : M A) (Q : A -> Prop) : Prop :=
  forall (s : Store) (a : A) (s' : Store),
    statesOver s -> m s = Ok (a, s') -> statesOver s' /\ Q a.

(** The branches returned are at locations from [base] on. *)
Definition fromBase (r : RetVal) : Prop :=
  match r with
  | Some ls => Forall (fun l => (base <= l)%nat) ls
  | None => True
  end.

End StateVariables.

(** * Properties *)

(** ** Tuples and functions *)

(** C8.  The tuple [<<5, 7, 5>>], converted to a function and back, is the
    tuple [<<7, 5, 5>>]: [toTuple] sorts the values by the index it finds
    for their text, and equal values share the last one. *)
Theorem toTuple_roundtrip_duplicates :
  toTuple (toFcnRcd [IntValue 5; IntValue 7; IntValue 5])
  = Ok (TupleValue [IntValue 7; IntValue 5; IntValue 5]).
Proof. vm_compute. reflexivity. Qed.

(** The two tuples have different fingerprints under the rendering hash. *)
Lemma toTuple_roundtrip_duplicates_fingerprint :
  fingerprint renderData (TupleValue [IntValue 7; IntValue 5; IntValue 5])
  <> fingerprint renderData (TupleValue [IntValue 5; IntValue 7; IntValue 5]).
Proof. vm_compute. discriminate. Qed.

(** Beyond nine elements the indices are compared as text, so that even a
    tuple without duplicates is reordered. *)
Lemma toTuple_roundtrip_ten :
  toTuple (toFcnRcd (map IntValue (Lodash.range 1 11)))
  = Ok (TupleValue (map IntValue [1; 10; 2; 3; 4; 5; 6; 7; 8; 9])).
Proof. vm_compute. reflexivity. Qed.

(** ** Integer ranges *)

(** C9.  [3..1] is evaluated to the set [{3}], for every hash function:
    [_.range(3, 2)] counts down. *)
Theorem dots_2_descending_nonempty :
  forall hashSum : JSData -> string,
    evalFresh hashSum 3 true [] [] (dots_2 (nat_number "3") (nat_number "1"))
    = Ok (Some [(JV (SetValue [IntValue 3]), [])]).
Proof. intros hashSum. vm_compute. reflexivity. Qed.

(** [_.range(a, b + 1)] when [a <= b]: the integers from [a] to [b]. *)
Lemma range_ascending (a b : Z) :
  a <= b ->
  forall i, In i (Lodash.range a (b + 1)) <-> a <= i <= b.
Proof.
  intros Hab i. unfold Lodash.range.
  destruct (Z.ltb_spec a (b + 1)) as [_ | Hge]; [| lia].
  rewrite in_map_iff. split.
  - intros (k & <- & Hk). apply in_seq in Hk. lia.
  - intros Hi. exists (Z.to_nat (i - a)). split; [lia |].
    apply in_seq. lia.
Qed.

(** [_.range(a, b + 1)] when [a > b + 1]: the integers from [a] down to
    [b + 2]. *)
Lemma range_descending (a b : Z) :
  b + 1 < a ->
  forall i, In i (Lodash.range a (b + 1)) <-> b + 1 < i <= a.
Proof.
  intros Hab i. unfold Lodash.range.
  destruct (Z.ltb_spec a (b + 1)) as [Hlt | _]; [lia |].
  rewrite in_map_iff. split.
  - intros (k & <- & Hk). apply in_seq in Hk. lia.
  - intros Hi. exists (Z.to_nat (a - i)). split; [lia |].
    apply in_seq. lia.
Qed.

(** ** Failures *)

(** C6.  [TRUE * 2] is evaluated to the integer 2.  The identifier [foo],
    bound nowhere, is evaluated to [undefined]; in [foo /\ x = 1] the
    conjunction then has no branch at all, and [computeInitStates] returns
    an empty list of initial states for [Init == foo /\ x = 1].  None of
    these evaluations raises an error, for any hash function. *)
Theorem type_mismatch_and_unbound_identifier_silent :
  forall hashSum : JSData -> string,
    evalFresh hashSum 3 false [] [] (mul (boolean "TRUE") (nat_number "2"))
    = Ok (Some [(JV (IntValue 2), [])])
    /\ evalFresh hashSum 3 false [("x", JNull)] [] (identifier_ref "foo") = Ok None
    /\ evalFresh hashSum 3 false [("x", JNull)] []
         (land (identifier_ref "foo") (eq (identifier_ref "x") (nat_number "1")))
       = Ok (Some [])
    /\ resultOf (computeInitStates hashSum 4 initUnbound None emptyStore) = Ok [].
Proof. intros hashSum. repeat split; vm_compute; reflexivity. Qed.

(** The example of the specification, an integer operator on a set: [{1} *
    2] does raise an error, a [TypeError] for the method [getVal] that a
    set does not have. *)
Lemma mul_set_throws (hashSum : JSData -> string) :
  evalFresh hashSum 4 false [] []
    (mul (finite_set_literal [nat_number "1"]) (nat_number "2"))
  = Throw TypeError.
Proof. vm_compute. reflexivity. Qed.

(** So does [TRUE + 2]: the handler of [+] asserts that its operands are
    integers, which the handler of [*] does not. *)
Lemma plus_bool_throws (hashSum : JSData -> string) :
  evalFresh hashSum 3 false [] [] (plus (boolean "TRUE") (nat_number "2"))
  = Throw "Assertion failed".
Proof. vm_compute. reflexivity. Qed.

(** ** Mutation of the caller's context *)

(** C7.  [UNCHANGED x], evaluated on the context at location 0, assigns
    [x'] in that context itself, and not only in the context it returns.
    In [UNCHANGED x \/ x' = x + 1] the second disjunct is evaluated on the
    same context and finds [x'] assigned: both branches end with [x' = 0],
    and no branch has [x' = 1].  With the disjuncts exchanged the two
    branches are [x' = 1] and [x' = 0]. *)
Theorem evalUnchanged_mutates_caller :
  forall hashSum : JSData -> string,
    (exists s1 r,
        evalExpr hashSum 3 (unchanged (identifier_ref "x")) 0%nat
          (mkStore [newContext JNull stateX0 [] [] None] true) = Ok (r, s1)
        /\ option_map state (nth_error (heap s1) 0)
           = Some [("x", JV (IntValue 0)); ("x'", JV (IntValue 0))])
    /\ branchStates
         (evalFresh hashSum 5 true stateX0 []
            (lor (unchanged (identifier_ref "x"))
                 (eq (primedVar "x") (plus (identifier_ref "x") (nat_number "1")))))
       = Ok (Some [[("x", JV (IntValue 0)); ("x'", JV (IntValue 0))];
                   [("x", JV (IntValue 0)); ("x'", JV (IntValue 0))]])
    /\ branchStates
         (evalFresh hashSum 5 true stateX0 []
            (lor (eq (primedVar "x") (plus (identifier_ref "x") (nat_number "1")))
                 (unchanged (identifier_ref "x"))))
       = Ok (Some [[("x", JV (IntValue 0)); ("x'", JV (IntValue 1))];
                   [("x", JV (IntValue 0)); ("x'", JV (IntValue 0))]]).
Proof.
  intros hashSum. split; [| split].
  - eexists. eexists. split; [vm_compute; reflexivity |]. vm_compute. reflexivity.
  - vm_compute. reflexivity.
  - vm_compute. reflexivity.
Qed.

(** The successors of [x = 0] by [Next == UNCHANGED x \/ x' = x + 1], under
    the rendering hash: the successor [x = 1] is lost. *)
Lemma unchanged_first_loses_successor :
  match getNextStates renderData 6
          (lor (unchanged (identifier_ref "x"))
               (eq (primedVar "x") (plus (identifier_ref "x") (nat_number "1"))))
          [("x", JV (IntValue 0))] [] None emptyStore with
  | Ok (ls, s) => map (fun b => deprimeVars (snd b)) (readBranches s ls)
  | _ => []
  end = [[("x", JV (IntValue 0))]].
Proof. vm_compute. reflexivity. Qed.

(** In [x' = 1 /\ (UNCHANGED x \/ UNCHANGED x)] no disjunct assigns a new
    variable, and the disjunction is merged into one context, a copy of its
    parent; the parent is the context that [UNCHANGED x] has changed, so
    that the branch ends with TRUE and [x' = 0]. *)
Lemma unchanged_in_disjunction_changes_parent (hashSum : JSData -> string) :
  evalFresh hashSum 6 true stateX0 []
    (land (eq (primedVar "x") (nat_number "1"))
          (parentheses (lor (unchanged (identifier_ref "x"))
                            (unchanged (identifier_ref "x")))))
  = Ok (Some [(JV (BoolValue true),
               [("x", JV (IntValue 0)); ("x'", JV (IntValue 0))])]).
Proof. vm_compute. reflexivity. Qed.

(** ** CHOOSE *)

Lemma mkSetValue_pair (hashSum : JSData -> string) (a b : Z) :
  hashSum (DNum a) <> hashSum (DNum b) ->
  mkSetValue hashSum [IntValue a; IntValue b] = SetValue [IntValue a; IntValue b].
Proof.
  intros Hne. unfold mkSetValue, Lodash.uniqBy. cbn.
  destruct (String.eqb_spec (hashSum (DNum b)) (hashSum (DNum a))) as [E | _].
  - exfalso. apply Hne. symmetry. exact E.
  - reflexivity.
Qed.

(** C4.  [CHOOSE v \in S : TRUE] is 2 when [S] holds the set written
    [{2, 1}] and 1 when it holds the same set written [{1, 2}], for every
    hash function: the elements are tried in the order in which the set
    holds them, whatever their fingerprints are. *)
Theorem evalChoose_stored_order :
  forall hashSum : JSData -> string,
    evalFresh hashSum 3 false stateS21 [] (choose "v" (identifier_ref "S") (boolean "TRUE"))
    = Ok (Some [(JV (IntValue 2), stateS21)])
    /\ evalFresh hashSum 3 false stateS12 [] (choose "v" (identifier_ref "S") (boolean "TRUE"))
       = Ok (Some [(JV (IntValue 1), stateS12)]).
Proof. intros hashSum. split; vm_compute; reflexivity. Qed.

(** The same with the set literals, under the rendering hash. *)
Lemma evalChoose_literals :
  evalFresh renderData 4 false [] [] (choose "v" set21 (boolean "TRUE"))
  = Ok (Some [(JV (IntValue 2), [])])
  /\ evalFresh renderData 4 false [] [] (choose "v" set12 (boolean "TRUE"))
     = Ok (Some [(JV (IntValue 1), [])]).
Proof. split; vm_compute; reflexivity. Qed.

(** The two literals denote the same set: their fingerprints are equal, for
    every hash function. *)
Lemma set21_set12_same_fingerprint (hashSum : JSData -> string) :
  fingerprint hashSum (SetValue [IntValue 2; IntValue 1])
  = fingerprint hashSum (SetValue [IntValue 1; IntValue 2]).
Proof.
  cbn. unfold js_sort, stableSort. cbn.
  destruct (String.ltb (hashSum (DNum 1)) (hashSum (DNum 2))) eqn:E12;
    destruct (String.ltb (hashSum (DNum 2)) (hashSum (DNum 1))) eqn:E21;
    try reflexivity.
  - unfold String.ltb in E12, E21.
    destruct (String.compare (hashSum (DNum 1)) (hashSum (DNum 2))) eqn:Ecmp; try discriminate.
    rewrite String.compare_antisym, Ecmp in E21. discriminate.
  - unfold String.ltb in E12, E21.
    destruct (String.compare (hashSum (DNum 1)) (hashSum (DNum 2))) eqn:Ecmp; try discriminate.
    + apply String.compare_eq_iff in Ecmp. rewrite Ecmp. reflexivity.
    + rewrite String.compare_antisym, Ecmp in E21. discriminate.
Qed.

(** ** Steps of the evaluation *)

Lemma singleVal_run (r : loc) (s : Store) (c : Context) :
  nth_error (heap s) r = Some c ->
  singleVal (Some [r]) s = Ok (val c, s).
Proof.
  intros H. unfold singleVal, assert, bind, ret. cbn.
  unfold bind, getCtx. rewrite H. reflexivity.
Qed.

Lemma clone_run (ctx : loc) (s : Store) (c : Context) :
  nth_error (heap s) ctx = Some c ->
  clone ctx s = Ok (List.length (heap s), storeWith s (cloned c)).
Proof.
  intros H. unfold clone, bind, getCtx, alloc. rewrite H. reflexivity.
Qed.

Lemma withValAndState_run (ctx : loc) (v : JSVal) (st : TLAState) (s : Store) (c : Context) :
  nth_error (heap s) ctx = Some c ->
  withValAndState ctx v st s
  = Ok (List.length (heap s), storeWith s (setState (setVal (cloned c) v) st)).
Proof.
  intros H. unfold withValAndState, bind, getCtx, alloc. rewrite H. reflexivity.
Qed.

Lemma bind_ok {A B : Type} (m : M A) (k : A -> M B) (s s' : Store) (a : A) :
  m s = Ok (a, s') -> bind m k s = k a s'.
Proof. intros H. unfold bind. rewrite H. reflexivity. Qed.

Lemma getCtx_run (l : loc) (s : Store) (c : Context) :
  nth_error (heap s) l = Some c -> getCtx l s = Ok (c, s).
Proof. intros H. unfold getCtx. rewrite H. reflexivity. Qed.

Lemma withVal_run (ctx : loc) (v : JSVal) (s : Store) (parent : Context) :
  nth_error (heap s) ctx = Some parent ->
  withVal ctx v s = Ok (List.length (heap s), storeWith s (setVal (cloned parent) v)).
Proof.
  intros H. unfold withVal, bind, getCtx, alloc. rewrite H. reflexivity.
Qed.

Lemma retWithVal_run (ctx : loc) (v : JSVal) (s : Store) (parent : Context) :
  nth_error (heap s) ctx = Some parent ->
  retWithVal ctx v s
  = Ok (Some [List.length (heap s)], storeWith s (setVal (cloned parent) v)).
Proof.
  intros H. unfold retWithVal, bind. rewrite (withVal_run ctx v s parent H). reflexivity.
Qed.

Lemma firstVal_run (r0 : loc) (rest : list loc) (s : Store) (c0 : Context) :
  nth_error (heap s) r0 = Some c0 ->
  firstVal (Some (r0 :: rest)) s = Ok (val c0, s).
Proof.
  intros H. unfold firstVal, bind, getCtx. rewrite H. reflexivity.
Qed.

(** ** Negation and implication *)

(** [~E] and [a => b] read the value of the first branch of their
    operands only.  When [E] evaluates to the branches [r0 :: rest] and [r0]
    holds the boolean [b], [~E] is the single context [ctx.withVal(~b)],
    whatever [rest] is.  When [a] evaluates to [ra :: resta] with the
    boolean [x] and then [b] to [rb :: restb] with the boolean [y], [a => b]
    is the single context [ctx.withVal(x => y)].  The result is a copy of
    the caller's context [ctx] as it is when the operands have been
    evaluated, on [ctx] itself: it has the state that [ctx] holds then. *)
Theorem evalLnot_implies_first_branch :
  (forall (ev : Node -> loc -> M RetVal) (E : Node) (ctx : loc) (s s1 : Store)
          (r0 : loc) (rest : list loc) (c0 parent : Context) (b : bool),
      ev E ctx s = Ok (Some (r0 :: rest), s1) ->
      nth_error (heap s1) r0 = Some c0 ->
      val c0 = JV (BoolValue b) ->
      nth_error (heap s1) ctx = Some parent ->
      evalLnot ev E ctx s
      = Ok (Some [List.length (heap s1)],
            storeWith s1 (setVal (cloned parent) (JV (BoolValue (negb b))))))
  /\
  (forall (hashSum : JSData -> string) (ev : Node -> loc -> M RetVal)
          (node a sym b : Node) (ctx : loc) (s s1 s2 : Store)
          (ra rb : loc) (resta restb : list loc) (ca cb parent : Context) (x y : bool),
      children node = [a; sym; b] ->
      type sym = "implies" ->
      ev a ctx s = Ok (Some (ra :: resta), s1) ->
      nth_error (heap s1) ra = Some ca ->
      val ca = JV (BoolValue x) ->
      ev b ctx s1 = Ok (Some (rb :: restb), s2) ->
      nth_error (heap s2) rb = Some cb ->
      val cb = JV (BoolValue y) ->
      nth_error (heap s2) ctx = Some parent ->
      evalBoundInfix hashSum ev node ctx s
      = Ok (Some [List.length (heap s2)],
            storeWith s2 (setVal (cloned parent) (JV (BoolValue (implb x y)))))).
Proof.
  split.
  - intros ev E ctx s s1 r0 rest c0 parent b Hev Hr0 Hval Hctx.
    unfold evalLnot, bind. rewrite Hev.
    rewrite (firstVal_run r0 rest s1 c0 Hr0), Hval. cbn.
    rewrite (withVal_run ctx _ s1 parent Hctx). reflexivity.
  - intros hashSum ev node a sym b ctx s s1 s2 ra rb resta restb ca cb parent x y
           Hch Hsym Ha Hra Hx Hb Hrb Hy Hctx.
    unfold evalBoundInfix. rewrite Hch. cbn [nth_error].
    unfold typeIs, symbolIn. rewrite Hsym. cbn [String.eqb Ascii.eqb Bool.eqb existsb orb].
    unfold evalOpt, bind. rewrite Ha.
    rewrite (firstVal_run ra resta s1 ca Hra), Hx, Hb.
    rewrite (firstVal_run rb restb s2 cb Hrb), Hy. cbn.
    destruct x; cbn.
    + rewrite (retWithVal_run ctx _ s2 parent Hctx). reflexivity.
    + rewrite (retWithVal_run ctx _ s2 parent Hctx). reflexivity.
Qed.

Lemma evalLnot_implies_first_branch_witness :
  (exists s1,
      evalLnot (evalExpr renderData 4) twoBranches 0%nat storeX0
      = Ok (Some [List.length (heap s1)],
            storeWith s1 (setVal (cloned (newContext JNull stateX0 [] [] None))
                                 (JV (BoolValue false)))))
  /\
  (exists s2,
      evalBoundInfix renderData (evalExpr renderData 4)
        (implies twoBranches (boolean "FALSE")) 0%nat storeX0
      = Ok (Some [List.length (heap s2)],
            storeWith s2 (setVal (cloned (newContext JNull stateX0 [] [] None))
                                 (JV (BoolValue false))))).
Proof.
  split.
  - eexists.
    eapply (proj1 evalLnot_implies_first_branch) with (b := true).
    + cbv. reflexivity.
    + cbv. reflexivity.
    + reflexivity.
    + cbv. reflexivity.
  - eexists.
    eapply (proj2 evalLnot_implies_first_branch) with (x := true) (y := false).
    + cbv. reflexivity.
    + reflexivity.
    + cbv. reflexivity.
    + cbv. reflexivity.
    + reflexivity.
    + cbv. reflexivity.
    + cbv. reflexivity.
    + reflexivity.
    + cbv. reflexivity.
Defined.

(** C10.  The assignment of a branch that [~E] discards reaches the
    result.  From [x = 0], the operand [x = 1 \/ UNCHANGED x] has two
    branches: the first is FALSE and assigns nothing, the second is TRUE and
    assigns [x' = 0].  [~(x = 1 \/ UNCHANGED x)] reads the first branch only
    and is TRUE, yet its context holds [x' = 0]: [evalLnot] evaluates the
    operand on the caller's context itself, and [evalUnchanged] has written
    the assignment into that context.  Without the second branch the result
    assigns nothing.  [getNextStates] therefore returns the successor
    [x = 0], in which [Next] is false. *)
Theorem evalLnot_keeps_discarded_assignment :
  evalFresh renderData 4 true stateX0 [] orUnchanged
  = Ok (Some [(JV (BoolValue false), stateX0);
              (JV (BoolValue true), [("x", JV (IntValue 0)); ("x'", JV (IntValue 0))])])
  /\
  evalFresh renderData 6 true stateX0 [] (lnot (parentheses orUnchanged))
  = Ok (Some [(JV (BoolValue true), [("x", JV (IntValue 0)); ("x'", JV (IntValue 0))])])
  /\
  evalFresh renderData 6 true stateX0 []
    (lnot (parentheses (eq (identifier_ref "x") (nat_number "1"))))
  = Ok (Some [(JV (BoolValue true), stateX0)])
  /\
  (exists (ls : list loc) (s : Store),
      getNextStates renderData 6 (lnot (parentheses orUnchanged)) [("x", JV (IntValue 0))]
        [] None emptyStore
      = Ok (ls, s)
      /\ map (fun b => deprimeVars (snd b)) (readBranches s ls) = [[("x", JV (IntValue 0))]]).
Proof.
  split; [| split; [| split]]; try (vm_compute; reflexivity).
  eexists. eexists. split; vm_compute; reflexivity.
Qed.

(** ** Initial states *)

Lemma mapM_pure {A B : Type} (f : A -> M B) (g : A -> B) (l : list A) (s : Store) :
  Forall (fun a => f a s = Ok (g a, s)) l ->
  mapM f l s = Ok (map g l, s).
Proof.
  induction 1 as [| a l Ha _ IH]; [reflexivity |].
  cbn. unfold bind. rewrite Ha, IH. reflexivity.
Qed.

(** C5, as the specification states it, fails: for [Init == x = 0 \/ x = 0]
    the list of initial states holds the state [x = 0] twice, so two of its
    states have the same fingerprint. *)
Lemma computeInitStates_duplicates :
  exists sts s,
    computeInitStates renderData 4 initTwice None emptyStore = Ok (sts, s)
    /\ sts = [[("x", JV (IntValue 0))]; [("x", JV (IntValue 0))]]
    /\ ~ NoDup (map (stateFingerprint renderData) sts).
Proof.
  eexists. eexists. split; [vm_compute; reflexivity |]. split; [reflexivity |].
  intros H. inversion H as [| ? ? Hnotin _]. apply Hnotin. left. reflexivity.
Qed.

(** The same list for every hash function. *)
Lemma computeInitStates_duplicates_any_hash (hashSum : JSData -> string) :
  match computeInitStates hashSum 4 initTwice None emptyStore with
  | Ok (sts, _) => sts
  | _ => []
  end = [[("x", JV (IntValue 0))]; [("x", JV (IntValue 0))]].
Proof. vm_compute. reflexivity. Qed.

(** C5, amended.  [computeInitStates] returns the states of the branches
    of [Init] whose value is true, in the order of the branches and one
    state for each of them; nothing removes a state that occurs twice. *)
Theorem computeInitStates_one_state_per_true_branch :
  forall (hashSum : JSData -> string) (fuel : nat) (t : TreeObjs)
         (constvals : option (list (string * JSVal))) (s0 s1 : Store)
         (initDef : Defn) (ls : list loc),
    obj_get (assignDefs (op_defs t) (fn_defs t)) "Init" = Some initDef ->
    getInitStates hashSum fuel (defn_node initDef) (var_decls t)
      (assignDefs (op_defs t) (fn_defs t)) constvals s0 = Ok (Some ls, s1) ->
    branchesHaveGetVal s1 ls ->
    computeInitStates hashSum fuel t constvals s0 = Ok (trueStates s1 ls, s1)
    /\ List.length (trueStates s1 ls)
       = List.length (filter (fun l => fst (branchInfo s1 l)) ls).
Proof.
  intros hashSum fuel t constvals s0 s1 initDef ls HInit Hget Hvals. split.
  - unfold computeInitStates. rewrite HInit. unfold bind at 1. rewrite Hget.
    unfold bind at 1.
    rewrite (mapM_pure _ (branchInfo s1) ls s1); [reflexivity |].
    unfold branchesHaveGetVal in Hvals.
    eapply Forall_impl; [| exact Hvals].
    intros l (c & x & p & Hl & Hv & Hp).
    unfold bind, valOf, stateOf, bind, getCtx, callGetVal, lift, ret, branchInfo, truthyVal.
    rewrite Hl. cbn. rewrite Hv. cbn. rewrite Hp, Hl. reflexivity.
  - unfold trueStates. rewrite length_map. clear Hget Hvals.
    induction ls as [| l ls IH]; [reflexivity |].
    cbn. destruct (fst (branchInfo s1 l)); cbn; rewrite IH; reflexivity.
Qed.

Lemma computeInitStates_one_state_per_true_branch_witness :
  exists s1 ls,
    computeInitStates renderData 4 initTwice None emptyStore = Ok (trueStates s1 ls, s1)
    /\ List.length (trueStates s1 ls)
       = List.length (filter (fun l => fst (branchInfo s1 l)) ls)
    /\ List.length ls = 2%nat.
Proof.
  eexists. eexists.
  eassert (Hg : getInitStates renderData 4
                  (lor (eq (identifier_ref "x") (nat_number "0"))
                       (eq (identifier_ref "x") (nat_number "0")))
                  ["x"] (assignDefs (op_defs initTwice) (fn_defs initTwice)) None emptyStore
                = Ok (Some _, _)).
  { vm_compute. reflexivity. }
  match type of Hg with
  | _ = Ok (Some ?l, ?s) => assert (Hv : branchesHaveGetVal s l)
  end.
  { repeat constructor; eexists; eexists; eexists;
      (split; [vm_compute; reflexivity | split; reflexivity]). }
  destruct (computeInitStates_one_state_per_true_branch renderData 4 initTwice None
              emptyStore _ (mkDefn "Init" [] _) _ eq_refl Hg Hv) as [H1 H2].
  split; [exact H1 |]. split; [exact H2 | reflexivity].
Defined.

(** ** Next states *)

Lemma endsWithPrime_dropLast (k : string) :
  endsWithPrime k = true -> k = (dropLast k ++ "'")%string.
Proof.
  induction k as [| c k IH]; [discriminate |].
  destruct k as [| c' k'].
  - cbn. intros H. apply Ascii.eqb_eq in H. subst c. reflexivity.
  - intros H. change (endsWithPrime (String c' k') = true) in H.
    change (String c (String c' k')
            = String c (dropLast (String c' k') ++ "'")%string).
    f_equal. apply IH. exact H.
Qed.

Lemma endsWithPrime_app (x : string) : endsWithPrime (x ++ "'") = true.
Proof.
  induction x as [| c x IH]; [reflexivity |].
  cbn [String.append]. destruct (x ++ "'")%string eqn:E.
  - destruct x; discriminate.
  - exact IH.
Qed.

Lemma dropLast_app (x : string) : dropLast (x ++ "'") = x.
Proof.
  induction x as [| c x IH]; [reflexivity |].
  cbn [String.append]. destruct (x ++ "'")%string as [| a r] eqn:E.
  - destruct x; discriminate.
  - change (dropLast (String c (String a r))) with (String c (dropLast (String a r))).
    rewrite IH. reflexivity.
Qed.

Lemma obj_set_fresh {V : Type} (o : list (string * V)) (k : string) (v : V) :
  ~ In k (obj_keys o) -> obj_set o k v = (o ++ [(k, v)])%list.
Proof.
  induction o as [| [k' v'] o IH]; intros Hn; [reflexivity |].
  cbn. destruct (String.eqb_spec k' k) as [E | _].
  - exfalso. apply Hn. left. exact E.
  - rewrite IH; [reflexivity |]. intros Hin. apply Hn. right. exact Hin.
Qed.

Lemma mapKeys_nodup {V : Type} (f : string -> string) (o acc : list (string * V)) :
  NoDup (obj_keys acc ++ map f (obj_keys o)) ->
  fold_left (fun a kv => obj_set a (f (fst kv)) (snd kv)) o acc
  = (acc ++ map (fun kv => (f (fst kv), snd kv)) o)%list.
Proof.
  revert acc. induction o as [| [k v] o IH]; intros acc Hnd.
  - cbn. rewrite app_nil_r. reflexivity.
  - cbn [fold_left fst snd map]. cbn [obj_keys map fst] in Hnd.
    rewrite obj_set_fresh.
    + rewrite IH.
      * rewrite <- app_assoc. reflexivity.
      * unfold obj_keys in *. rewrite map_app. cbn [map fst].
        rewrite <- app_assoc. exact Hnd.
    + apply NoDup_remove_2 in Hnd. intros Hin. apply Hnd.
      apply in_or_app. left. exact Hin.
Qed.

Lemma dropLast_primed_nodup (ks : list string) :
  NoDup ks -> NoDup (map dropLast (filter endsWithPrime ks)).
Proof.
  induction 1 as [| k ks Hk _ IH]; [constructor |].
  cbn. destruct (endsWithPrime k) eqn:E; [| exact IH].
  cbn. constructor; [| exact IH].
  intros Hin. apply in_map_iff in Hin. destruct Hin as (k' & Hd & Hin').
  apply filter_In in Hin'. destruct Hin' as [Hin' Hp].
  apply Hk. rewrite (endsWithPrime_dropLast k E), <- Hd,
    <- (endsWithPrime_dropLast k' Hp). exact Hin'.
Qed.

(** [deprimeVars] maps [X] to what the state holds for [X']; the unprimed
    entries are dropped. *)
Lemma deprimeVars_lookup (st : TLAState) (X : string) :
  NoDup (obj_keys st) ->
  obj_get (deprimeVars st) X = obj_get st (X ++ "'").
Proof.
  intros Hnd. unfold deprimeVars, Lodash.mapKeys, Lodash.pickByKey.
  rewrite mapKeys_nodup.
  - cbn [app]. clear Hnd. induction st as [| [k v] st IH]; [reflexivity |].
    cbn [filter fst]. destruct (endsWithPrime k) eqn:E.
    + cbn [map fst snd obj_get].
      destruct (String.eqb_spec (dropLast k) X) as [E1 | N1].
      * subst X. rewrite <- (endsWithPrime_dropLast k E), String.eqb_refl. reflexivity.
      * destruct (String.eqb_spec k (X ++ "'")) as [E2 | _]; [| exact IH].
        exfalso. apply N1. rewrite E2. apply dropLast_app.
    + cbn [obj_get]. destruct (String.eqb_spec k (X ++ "'")) as [E2 | _]; [| exact IH].
      rewrite E2, endsWithPrime_app in E. discriminate.
  - cbn [obj_keys map app]. unfold obj_keys.
    replace (map dropLast (map fst (filter (fun kv : string * JSVal => endsWithPrime (fst kv)) st)))
      with (map dropLast (filter endsWithPrime (map fst st))).
    + apply dropLast_primed_nodup. exact Hnd.
    + f_equal. clear Hnd. induction st as [| [k v] st IH]; [reflexivity |].
      cbn. destruct (endsWithPrime k); cbn; rewrite IH; reflexivity.
Qed.

Lemma deprimeVars_keys (st : TLAState) :
  NoDup (obj_keys st) ->
  obj_keys (deprimeVars st) = map dropLast (filter endsWithPrime (obj_keys st)).
Proof.
  intros Hnd. unfold deprimeVars, Lodash.mapKeys, Lodash.pickByKey.
  assert (Hf : map dropLast (map fst (filter (fun kv : string * JSVal => endsWithPrime (fst kv)) st))
               = map dropLast (filter endsWithPrime (map fst st))).
  { f_equal. clear Hnd. induction st as [| [k v] st IH]; [reflexivity |].
    cbn. destruct (endsWithPrime k); cbn; rewrite IH; reflexivity. }
  rewrite mapKeys_nodup.
  - cbn [app]. unfold obj_keys. rewrite map_map. cbn [fst].
    rewrite <- Hf, map_map. reflexivity.
  - cbn [obj_keys map app]. unfold obj_keys. rewrite Hf.
    apply dropLast_primed_nodup. exact Hnd.
Qed.

Lemma filter_tagged {A : Type} (p : A -> bool) (l : list A) :
  map snd (filter fst (map (fun a => (p a, a)) l)) = filter p l.
Proof.
  induction l as [| a l IH]; [reflexivity |].
  cbn. destruct (p a); cbn; rewrite IH; reflexivity.
Qed.

Lemma filter_filter_and {A : Type} (p q : A -> bool) (l : list A) :
  filter q (filter p l) = filter (fun a => p a && q a) l.
Proof.
  induction l as [| a l IH]; [reflexivity |].
  cbn. destruct (p a); cbn; [destruct (q a); cbn |]; rewrite IH; reflexivity.
Qed.

(** C3.  [getNextStates] from the state [S] returns the branches of the
    evaluation of [Next], in their order, that hold TRUE and have every
    primed variable assigned; the other branches are left out and no error
    is raised for them.  [deprimeVars] gives [X] the value the state has
    for [X'] and keeps the primed keys only, without their prime. *)
Theorem getNextStates_enabled_and_assigned :
  forall (hashSum : JSData -> string) (fuel : nat) (nextDef : Node) (S : TLAState)
         (ds : list (string * Defn)) (constvals : option (list (string * JSVal)))
         (s0 s1 : Store) (cs : list loc),
    evalExpr hashSum fuel nextDef (List.length (heap s0)) (nextStore s0 S ds constvals)
    = Ok (Some cs, s1) ->
    branchesHaveGetVal s1 cs ->
    getNextStates hashSum fuel nextDef S ds constvals s0
    = Ok (filter (keepNext s1 (obj_keys S)) cs, s1)
    /\ (forall l, In l (filter (keepNext s1 (obj_keys S)) cs) <->
                  In l cs /\
                  exists c, nth_error (heap s1) l = Some c /\
                            val c = JV (BoolValue true) /\
                            forall v, In v (obj_keys S) ->
                                      getVarVal (state c) (v ++ "'") <> JNull)
    /\ (forall c X, NoDup (obj_keys (state c)) ->
                    obj_get (deprimeVars (state c)) X = obj_get (state c) (X ++ "'"))
    /\ (forall c, NoDup (obj_keys (state c)) ->
                  obj_keys (deprimeVars (state c))
                  = map dropLast (filter endsWithPrime (obj_keys (state c)))).
Proof.
  intros hashSum fuel nextDef S ds constvals s0 s1 cs Hev Hvals.
  split; [| split; [| split]].
  - unfold getNextStates, bind, setAssignPrimed, alloc. cbn [heap ASSIGN_PRIMED].
    unfold nextStore in Hev. rewrite Hev.
    rewrite (mapM_pure _ (fun c => (match nth_error (heap s1) c with
                                    | Some x => isTRUEVal (val x)
                                    | None => false
                                    end, c)) cs s1).
    + rewrite filter_tagged.
      rewrite (mapM_pure _ (fun c => (match nth_error (heap s1) c with
                                      | Some x => allPrimedAssigned (obj_keys S) (state x)
                                      | None => false
                                      end, c)) _ s1).
      * rewrite filter_tagged, filter_filter_and. unfold ret. f_equal. f_equal.
        apply filter_ext. intros l. unfold keepNext.
        destruct (nth_error (heap s1) l); reflexivity.
      * apply Forall_forall. intros l Hl. apply filter_In in Hl. destruct Hl as [Hl _].
        unfold branchesHaveGetVal in Hvals. rewrite Forall_forall in Hvals.
        destruct (Hvals l Hl) as (c & x & p & Hc & _ & _).
        unfold stateOf, bind, getCtx, ret. rewrite Hc. reflexivity.
    + unfold branchesHaveGetVal in Hvals.
      eapply Forall_impl; [| exact Hvals].
      intros l (c & x & p & Hc & Hv & Hp).
      unfold valOf, bind, getCtx, callGetVal, lift, ret. rewrite Hc, Hv, Hp.
      unfold isTRUEVal. destruct x; try discriminate; cbn in Hp; inversion Hp; reflexivity.
  - intros l. rewrite filter_In. unfold keepNext. split.
    + intros [Hin Hk]. split; [exact Hin |].
      destruct (nth_error (heap s1) l) as [c |]; [| discriminate].
      exists c. apply andb_true_iff in Hk. destruct Hk as [Ht Ha].
      split; [reflexivity |]. split.
      * unfold isTRUEVal in Ht. destruct (val c) as [| | [ | [|] | | | | ]]; try discriminate.
        reflexivity.
      * intros v Hv. unfold allPrimedAssigned in Ha. rewrite forallb_forall in Ha.
        specialize (Ha v Hv). intros E. rewrite E in Ha. discriminate.
    + intros [Hin (c & Hc & Hv & Ha)]. split; [exact Hin |].
      rewrite Hc, Hv. cbn. unfold allPrimedAssigned. apply forallb_forall.
      intros v Hvin. specialize (Ha v Hvin).
      destruct (getVarVal (state c) (v ++ "'")); [contradiction | reflexivity | reflexivity].
  - intros c X Hnd. apply deprimeVars_lookup. exact Hnd.
  - intros c Hnd. apply deprimeVars_keys. exact Hnd.
Qed.

Lemma getNextStates_enabled_and_assigned_witness :
  exists s1 cs,
    getNextStates renderData 4 nextPartial [("x", JV (IntValue 0))] [] None emptyStore
    = Ok (filter (keepNext s1 ["x"]) cs, s1)
    /\ List.length cs = 2%nat
    /\ map (fun b => deprimeVars (snd b)) (readBranches s1 (filter (keepNext s1 ["x"]) cs))
       = [[("x", JV (IntValue 1))]].
Proof.
  eexists. eexists.
  eassert (He : evalExpr renderData 4 nextPartial (List.length (heap emptyStore))
                  (nextStore emptyStore [("x", JV (IntValue 0))] [] None)
                = Ok (Some _, _)).
  { vm_compute. reflexivity. }
  match type of He with
  | _ = Ok (Some ?l, ?s) => assert (Hv : branchesHaveGetVal s l)
  end.
  { repeat constructor; eexists; eexists; eexists;
      (split; [vm_compute; reflexivity | split; reflexivity]). }
  destruct (getNextStates_enabled_and_assigned renderData 4 nextPartial
              [("x", JV (IntValue 0))] [] None emptyStore _ _ He Hv) as [H1 _].
  split; [exact H1 |]. split; [reflexivity | vm_compute; reflexivity].
Defined.

(** ** The branches of a disjunction *)
















(** ** Equality: assignment or comparison *)

Lemma hasVar_plain (st : TLAState) (k : string) :
  plainNames st -> hasVar st k = Ok (obj_has st k).
Proof. intros H. unfold hasVar, hasOwnProperty. rewrite H. reflexivity. Qed.

Lemma hasVar_run (st : TLAState) (k : string) (s : Store) :
  plainNames st -> lift (hasVar st k) s = Ok (obj_has st k, s).
Proof. intros H. rewrite (hasVar_plain st k H). reflexivity. Qed.

Lemma isPrimedVar_run (n : Node) (ctx : loc) (s : Store) (c : Context) :
  nth_error (heap s) ctx = Some c ->
  plainNames (state c) ->
  isPrimedVar n ctx s = Ok (isPrimedVarIn (state c) n, s).
Proof.
  intros H Hp. unfold isPrimedVar, isPrimedVarIn.
  destruct (children n) as [| lhs [| symbol rest]]; try reflexivity.
  destruct (typeIs n "bound_postfix_op" && typeIs lhs "identifier_ref"
            && typeIs symbol "prime"); [| reflexivity].
  rewrite (bind_ok _ _ _ _ _ (getCtx_run _ _ _ H)).
  rewrite (bind_ok _ _ _ _ _ (hasVar_run _ _ s Hp)).
  reflexivity.
Qed.


Lemma isPrimedVarIn_identifier (st : TLAState) (n : Node) :
  type n = "identifier_ref" -> isPrimedVarIn st n = false.
Proof.
  intros H. unfold isPrimedVarIn, typeIs. rewrite H.
  destruct (children n) as [| l [| sy r]]; reflexivity.
Qed.


(** An identifier that names a state variable evaluates, outside a primed
    scope, to what the state holds for it. *)
Lemma evalExpr_identifier_var (hashSum : JSData -> string) (fuel : nat) (n : Node)
    (ctx : loc) (s : Store) (c : Context) :
  nth_error (heap s) ctx = Some c ->
  plainNames (state c) ->
  type n = "identifier_ref" ->
  obj_has (state c) (text n) = true ->
  primed c = false ->
  evalExpr hashSum (S fuel) n ctx s
  = Ok (Some [List.length (heap s)],
        storeWith s (setVal (cloned c) (getVarVal (state c) (text n)))).
Proof.
  intros Hc Hplain Hty Hx Hp.
  cbn [evalExpr]. unfold evalExprBody, typeIs, symbolIn. rewrite Hty.
  cbn [existsb String.eqb Ascii.eqb Bool.eqb orb].
  rewrite (bind_ok _ _ _ _ _ (isPrimedVar_run _ _ _ _ Hc Hplain)).
  rewrite (bind_ok _ _ _ _ _ (getCtx_run _ _ _ Hc)).
  rewrite (isPrimedVarIn_identifier _ _ Hty).
  cbn [andb].
  unfold evalIdentifierRef.
  rewrite (bind_ok _ _ _ _ _ (getCtx_run _ _ _ Hc)).
  rewrite (bind_ok _ _ _ _ _ (hasVar_run _ _ s Hplain)).
  rewrite Hx, Hp. cbn [andb negb].
  rewrite (retWithVal_run ctx _ s c Hc). reflexivity.
Qed.

(** In a state with a variable named [hasOwnProperty] an identifier cannot
    be looked up. *)
Lemma evalExpr_identifier_shadowed (hashSum : JSData -> string) (fuel : nat) (n : Node)
    (ctx : loc) (s : Store) (c : Context) :
  nth_error (heap s) ctx = Some c ->
  obj_has (state c) "hasOwnProperty" = true ->
  type n = "identifier_ref" ->
  evalExpr hashSum (S fuel) n ctx s = Throw TypeError.
Proof.
  intros Hc Hsh Hty.
  assert (Hpv : isPrimedVar n ctx s = Ok (false, s)).
  { unfold isPrimedVar, typeIs. rewrite Hty.
    destruct (children n) as [| l [| sy r]]; reflexivity. }
  cbn [evalExpr]. unfold evalExprBody, typeIs, symbolIn. rewrite Hty.
  cbn [existsb String.eqb Ascii.eqb Bool.eqb orb].
  rewrite (bind_ok _ _ _ _ _ Hpv).
  rewrite (bind_ok _ _ _ _ _ (getCtx_run _ _ _ Hc)).
  cbn [andb].
  unfold evalIdentifierRef.
  rewrite (bind_ok _ _ _ _ _ (getCtx_run _ _ _ Hc)).
  unfold hasVar, hasOwnProperty, bind, lift. rewrite Hsh. reflexivity.
Qed.

Lemma evalEq_update_rest (ev : Node -> loc -> M RetVal) (rhs : Node) (ctx : loc)
    (identName : string) (v : JSVal) (st : TLAState) (s : Store) :
  ~ In identName (obj_keys st) ->
  mapM (fun kv : string * JSVal =>
          if String.eqb (fst kv) identName then
            bind (clone ctx) (fun cl =>
            bind (ev rhs cl) (fun rhsVals =>
            bind (singleVal rhsVals) (fun rhsVal =>
            ret (fst kv, if isNull (snd kv) then rhsVal else snd kv))))
          else ret kv) st s
  = Ok (map (fun kv : string * JSVal =>
               (fst kv, if String.eqb (fst kv) identName then v else snd kv)) st, s).
Proof.
  induction st as [| [k' v'] st IH]; intros Hnotin; [reflexivity |].
  cbn [mapM map fst snd].
  destruct (String.eqb_spec k' identName) as [E' | N'].
  - exfalso. apply Hnotin. left. exact E'.
  - rewrite (bind_ok _ _ s s (k', v')) by reflexivity.
    rewrite (bind_ok _ _ _ _ _ (IH (fun Hin => Hnotin (or_intror Hin)))).
    reflexivity.
Qed.




Lemma getAssignPrimed_run (s : Store) : getAssignPrimed s = Ok (ASSIGN_PRIMED s, s).
Proof. reflexivity. Qed.

(** The test of [evalEq] that selects assignment or comparison with the
    assigned value, on a state without a variable named [hasOwnProperty]. *)
Lemma evalEq_test (hashSum : JSData -> string) (ev : Node -> loc -> M RetVal)
    (lhs rhs : Node) (ctx : loc) (s : Store) (c : Context) :
  nth_error (heap s) ctx = Some c ->
  plainNames (state c) ->
  evalEq hashSum ev lhs rhs ctx s
  = (if isPrimedVarIn (state c) lhs
        || (obj_has (state c) (text lhs) && negb (isPrimedVarIn (state c) lhs)
            && negb (ASSIGN_PRIMED s))
     then
       if obj_has (state c) (text lhs) && negb (isNull (getVarVal (state c) (text lhs)))
       then
         bind (ev rhs ctx) (fun rhsVals =>
         bind (singleVal rhsVals) (fun rhsVal =>
         bind (ev lhs ctx) (fun lhsVals =>
         bind (firstVal lhsVals) (fun lhsVal =>
         bind (callFingerprint hashSum lhsVal) (fun lfp =>
         bind (callFingerprint hashSum rhsVal) (fun rfp =>
         bind (withVal ctx (JV (BoolValue (String.eqb lfp rfp)))) (fun r =>
         ret (Some [r]))))))))
       else
         bind (mapM (fun kv : string * JSVal =>
                       if String.eqb (fst kv) (text lhs) then
                         bind (clone ctx) (fun cl =>
                         bind (ev rhs cl) (fun rhsVals =>
                         bind (singleVal rhsVals) (fun rhsVal =>
                         ret (fst kv, if isNull (snd kv) then rhsVal else snd kv))))
                       else ret kv) (state c)) (fun stateUpdated =>
         bind (withValAndState ctx (JV (BoolValue true)) stateUpdated) (fun r =>
         ret (Some [r])))
     else
       bind (clone ctx) (fun cl =>
       bind (ev lhs cl) (fun lhsVals =>
       bind (singleVal lhsVals) (fun lhsVal =>
       bind (clone ctx) (fun cr =>
       bind (ev rhs cr) (fun rhsVals =>
       bind (singleVal rhsVals) (fun rhsVal =>
       bind (callFingerprint hashSum lhsVal) (fun lfp =>
       bind (callFingerprint hashSum rhsVal) (fun rfp =>
       bind (withVal ctx (JV (BoolValue (String.eqb lfp rfp)))) (fun r =>
       ret (Some [r])))))))))))
    s.
Proof.
  intros Hc Hplain. unfold evalEq. cbv zeta.
  rewrite (bind_ok _ _ _ _ _ (getCtx_run _ _ _ Hc)).
  rewrite (bind_ok _ _ _ _ _ (hasVar_run _ _ s Hplain)).
  rewrite (bind_ok _ _ _ _ _ (isPrimedVar_run _ _ _ _ Hc Hplain)).
  rewrite (bind_ok _ _ _ _ _ (getAssignPrimed_run s)).
  reflexivity.
Qed.




Lemma obj_has_false_notin {V : Type} (o : list (string * V)) (k : string) :
  obj_has o k = false -> ~ In k (obj_keys o).
Proof.
  unfold obj_has. induction o as [| [k' v] o IH]; cbn [obj_get obj_keys map fst];
    [intros _ [] |].
  destruct (String.eqb_spec k' k) as [E | N]; [discriminate |].
  intros H [Hk | Hin]; [contradiction | exact (IH H Hin)].
Qed.

Lemma update_absent (st : TLAState) (k : string) (v : JSVal) :
  ~ In k (obj_keys st) ->
  map (fun kv : string * JSVal => (fst kv, if String.eqb (fst kv) k then v else snd kv)) st
  = st.
Proof.
  induction st as [| [k' v'] st IH]; intros Hnotin; [reflexivity |].
  cbn [map fst snd]. cbn [obj_keys map fst] in Hnotin.
  destruct (String.eqb_spec k' k) as [E | _].
  - exfalso. apply Hnotin. left. exact E.
  - rewrite IH; [reflexivity |]. intros Hin. apply Hnotin. right. exact Hin.
Qed.

(** [x' = e] on a state that has no slot for [x'], as in the evaluation of
    [Init], where no variable is primed, while [x] holds a value: nothing
    is bound, [e] is not evaluated, and the result is the single context
    with the value TRUE and the state of the caller. *)
Theorem evalEq_without_slot (hashSum : JSData -> string) (ev : Node -> loc -> M RetVal)
    (lhs rhs : Node) (ctx : loc) (s : Store) (c : Context) :
  nth_error (heap s) ctx = Some c ->
  plainNames (state c) ->
  isPrimedVarIn (state c) lhs = true ->
  obj_has (state c) (text lhs) = false ->
  evalEq hashSum ev lhs rhs ctx s
  = Ok (Some [List.length (heap s)],
        storeWith s (setState (setVal (cloned c) (JV (BoolValue true))) (state c))).
Proof.
  intros Hc Hplain Hp Hhas.
  rewrite (evalEq_test hashSum ev lhs rhs ctx s c Hc Hplain), Hp, Hhas.
  cbn [orb andb].
  rewrite (bind_ok _ _ _ _ _
             (evalEq_update_rest ev rhs ctx (text lhs) JNull (state c) s
                (obj_has_false_notin _ _ Hhas))).
  rewrite (update_absent _ _ JNull (obj_has_false_notin _ _ Hhas)).
  rewrite (bind_ok _ _ _ _ _ (withValAndState_run ctx _ _ s c Hc)).
  reflexivity.
Qed.

Lemma evalEq_without_slot_witness :
  evalEq renderData (evalExpr renderData 1) (primedVar "x") (identifier_ref "foo") 0%nat
    (mkStore [newContext JNull [("x", JV (IntValue 0))] [] [] None] false)
  = Ok (Some [1%nat],
        mkStore [newContext JNull [("x", JV (IntValue 0))] [] [] None;
                 setVal (newContext JNull [("x", JV (IntValue 0))] [] [] None)
                        (JV (BoolValue true))] false).
Proof.
  exact (evalEq_without_slot renderData (evalExpr renderData 1) (primedVar "x")
           (identifier_ref "foo") 0%nat
           (mkStore [newContext JNull [("x", JV (IntValue 0))] [] [] None] false)
           (newContext JNull [("x", JV (IntValue 0))] [] [] None)
           eq_refl eq_refl eq_refl eq_refl).
Defined.






(** ** Fingerprints of the two tuples of C8, for every hash function *)

Lemma insertBy_perm {A : Type} (gt : A -> A -> bool) (x : A) (l : list A) :
  Permutation (insertBy gt x l) (x :: l).
Proof.
  induction l as [| y l IH]; [apply Permutation_refl |].
  cbn. destruct (gt y x); [apply Permutation_refl |].
  apply perm_trans with (y :: x :: l); [apply perm_skip; exact IH | apply perm_swap].
Qed.

Lemma stableSort_perm {A : Type} (gt : A -> A -> bool) (l : list A) :
  Permutation (stableSort gt l) l.
Proof.
  unfold stableSort.
  assert (H : forall acc, Permutation (fold_left (fun a x => insertBy gt x a) l acc)
                                      (acc ++ l)%list).
  { induction l as [| x l IH]; intros acc.
    - cbn. rewrite app_nil_r. apply Permutation_refl.
    - cbn [fold_left]. eapply perm_trans; [apply IH |].
      apply perm_trans with ((x :: acc) ++ l)%list.
      + apply Permutation_app_tail. apply insertBy_perm.
      + cbn. apply Permutation_middle. }
  exact (H []).
Qed.

Lemma pair_hash_eq (hashSum : JSData -> string) (a b a' b' : string) :
  hashSum (DArr [DStr a; DStr b]) = hashSum (DArr [DStr a'; DStr b']) ->
  (a = a' /\ b = b') \/ collision hashSum.
Proof.
  intros H. destruct (string_dec a a') as [Ea | Na].
  - destruct (string_dec b b') as [Eb | Nb].
    + left. split; assumption.
    + right. exists (DArr [DStr a; DStr b]), (DArr [DStr a'; DStr b']).
      split; [| exact H]. intros E. inversion E. contradiction.
  - right. exists (DArr [DStr a; DStr b]), (DArr [DStr a'; DStr b']).
    split; [| exact H]. intros E. inversion E. contradiction.
Qed.

Lemma num_hash_eq (hashSum : JSData -> string) (m n : Z) :
  m <> n -> hashSum (DNum m) = hashSum (DNum n) -> collision hashSum.
Proof.
  intros Hne H. exists (DNum m), (DNum n). split; [| exact H].
  intros E. inversion E. contradiction.
Qed.

Lemma map_DStr_inj (l l' : list string) : map DStr l = map DStr l' -> l = l'.
Proof.
  revert l'. induction l as [| x l IH]; intros [| y l'] H; try discriminate.
  - reflexivity.
  - cbn in H. inversion H. f_equal. apply IH. assumption.
Qed.

(** The fingerprint of [<<7, 5, 5>>], which [toTuple] makes of the function
    of [<<5, 7, 5>>], is the fingerprint of [<<5, 7, 5>>] only when the hash
    function has a collision. *)
Lemma toTuple_roundtrip_fingerprint_collision (hashSum : JSData -> string) :
  fingerprint hashSum (TupleValue [IntValue 7; IntValue 5; IntValue 5])
  = fingerprint hashSum (TupleValue [IntValue 5; IntValue 7; IntValue 5]) ->
  collision hashSum.
Proof.
  cbn [fingerprint map List.length]. unfold fcnFingerprint.
  change (Lodash.range 1 (Z.of_nat 3 + 1)) with [1; 2; 3].
  cbn [map zipPad].
  set (h := fun n => hashSum (DNum n)).
  set (P := fun a b => hashSum (DArr [DStr a; DStr b])).
  change (hashSum (DArr (map DStr (js_sort [P (h 1) (h 7); P (h 2) (h 5); P (h 3) (h 5)])))
          = hashSum (DArr (map DStr (js_sort [P (h 1) (h 5); P (h 2) (h 7); P (h 3) (h 5)])))
          -> collision hashSum).
  intros H.
  destruct (list_eq_dec string_dec
              (js_sort [P (h 1) (h 7); P (h 2) (h 5); P (h 3) (h 5)])
              (js_sort [P (h 1) (h 5); P (h 2) (h 7); P (h 3) (h 5)])) as [E | N].
  - assert (Hperm : Permutation [P (h 1) (h 7); P (h 2) (h 5); P (h 3) (h 5)]
                                [P (h 1) (h 5); P (h 2) (h 7); P (h 3) (h 5)]).
    { eapply perm_trans; [apply Permutation_sym; apply stableSort_perm |].
      unfold js_sort in E. rewrite E. apply stableSort_perm. }
    assert (Hin : In (P (h 1) (h 7)) [P (h 1) (h 5); P (h 2) (h 7); P (h 3) (h 5)]).
    { eapply Permutation_in; [exact Hperm | left; reflexivity]. }
    destruct Hin as [E1 | [E2 | [E3 | []]]].
    + destruct (pair_hash_eq hashSum _ _ _ _ E1) as [[_ E57] | Hc]; [| exact Hc].
      apply (num_hash_eq hashSum 5 7); [discriminate | exact E57].
    + destruct (pair_hash_eq hashSum _ _ _ _ E2) as [[E21 _] | Hc]; [| exact Hc].
      apply (num_hash_eq hashSum 2 1); [discriminate | exact E21].
    + destruct (pair_hash_eq hashSum _ _ _ _ E3) as [[E31 _] | Hc]; [| exact Hc].
      apply (num_hash_eq hashSum 3 1); [discriminate | exact E31].
  - exists (DArr (map DStr (js_sort [P (h 1) (h 7); P (h 2) (h 5); P (h 3) (h 5)]))),
           (DArr (map DStr (js_sort [P (h 1) (h 5); P (h 2) (h 7); P (h 3) (h 5)]))).
    split; [| exact H]. intros E. inversion E as [E']. apply map_DStr_inj in E'.
    contradiction.
Qed.

(** ** The value of a range and the element CHOOSE returns *)

(** [a..b] is the set made of [_.range(a, b + 1)], for the integers [x] and
    [y] that the first branches of the operands hold. *)
Lemma evalBoundInfix_dots_2 (hashSum : JSData -> string) (ev : Node -> loc -> M RetVal)
    (node a sym b : Node) (ctx : loc) (s s1 s2 : Store) (ra rb : loc)
    (resta restb : list loc) (ca cb parent : Context) (x y : Z) :
  children node = [a; sym; b] ->
  type sym = "dots_2" ->
  ev a ctx s = Ok (Some (ra :: resta), s1) ->
  nth_error (heap s1) ra = Some ca ->
  val ca = JV (IntValue x) ->
  ev b ctx s1 = Ok (Some (rb :: restb), s2) ->
  nth_error (heap s2) rb = Some cb ->
  val cb = JV (IntValue y) ->
  nth_error (heap s2) ctx = Some parent ->
  evalBoundInfix hashSum ev node ctx s
  = Ok (Some [List.length (heap s2)],
        storeWith s2 (setVal (cloned parent)
                        (JV (mkSetValue hashSum (map IntValue (Lodash.range x (y + 1))))))).
Proof.
  intros Hch Hsym Ha Hra Hx Hb Hrb Hy Hctx.
  unfold evalBoundInfix. rewrite Hch. cbn [nth_error].
  unfold typeIs, symbolIn. rewrite Hsym. cbn [String.eqb Ascii.eqb Bool.eqb existsb orb].
  assert (Hops : intOperands ev (Some a) (Some b) ctx s = Ok ((x, y), s2)).
  { unfold intOperands. cbn [evalOpt].
    rewrite (bind_ok _ _ _ _ _ Ha).
    rewrite (bind_ok _ _ _ _ _ (firstVal_run ra resta s1 ca Hra)).
    rewrite (bind_ok _ _ _ _ _ Hb).
    rewrite (bind_ok _ _ _ _ _ (firstVal_run rb restb s2 cb Hrb)).
    rewrite Hx, Hy. cbn [instanceofInt assert].
    rewrite (bind_ok _ _ s2 s2 tt) by reflexivity.
    rewrite (bind_ok _ _ s2 s2 tt) by reflexivity.
    reflexivity. }
  rewrite (bind_ok _ _ _ _ _ Hops).
  cbn [fst snd].
  rewrite (retWithVal_run ctx _ s2 parent Hctx). reflexivity.
Qed.

(** The loop of [evalChoose] returns the first element, in the order in
    which the set holds its elements, for which the condition is true, and
    throws when there is none. *)
Lemma chooseFrom_first (ev : Node -> loc -> M RetVal) (condition : Node)
    (boundVar : string) (ctx : loc) (parent : Context) (P : TLAValue -> bool)
    (elems : list TLAValue) :
  boundVar <> "__proto__" ->
  Forall (conditionDecides ev condition boundVar ctx parent P) elems ->
  forall s : Store,
    nth_error (heap s) ctx = Some parent ->
    match find P elems with
    | Some v =>
        exists s' : Store,
          chooseFrom ev boundVar (Some condition) ctx elems s
          = Ok (Some [List.length (heap s')],
                storeWith s' (setVal (cloned parent) (JV v)))
    | None =>
        chooseFrom ev boundVar (Some condition) ctx elems s
        = Throw "No value satisfying CHOOSE predicate"
    end.
Proof.
  intros Hname.
  induction 1 as [| v elems Hv _ IH]; intros s Hctx.
  - reflexivity.
  - destruct (Hv s Hctx) as (r & rest & s' & cr & Hev & Hr & Hval & Hctx').
    assert (Hstep : chooseFrom ev boundVar (Some condition) ctx (v :: elems) s
                    = if P v
                      then Ok (Some [List.length (heap s')],
                               storeWith s' (setVal (cloned parent) (JV v)))
                      else chooseFrom ev boundVar (Some condition) ctx elems s').
    { cbn [chooseFrom].
      assert (Hbound : withBoundVar ctx boundVar (JV v) s
                       = Ok (List.length (heap s),
                             storeWith s (setQuantBound (cloned parent)
                                            (obj_set (quant_bound parent) boundVar (JV v))))).
      { unfold withBoundVar. rewrite (bind_ok _ _ _ _ _ (getCtx_run _ _ _ Hctx)).
        destruct (String.eqb_spec boundVar "__proto__") as [E | _];
          [contradiction | reflexivity]. }
      rewrite (bind_ok _ _ _ _ _ Hbound).
      unfold evalOpt at 1.
      rewrite (bind_ok _ _ _ _ _ Hev).
      rewrite (bind_ok _ _ _ _ _ (firstVal_run r rest s' cr Hr)).
      rewrite Hval. cbn [callGetVal getVal lift].
      rewrite (bind_ok _ _ s' s' (PBool (P v))) by reflexivity.
      cbn [truthy]. destruct (P v); [| reflexivity].
      rewrite (retWithVal_run ctx _ s' parent Hctx'). reflexivity. }
    rewrite Hstep. cbn [find]. destruct (P v).
    + exists s'. reflexivity.
    + apply IH. exact Hctx'.
Qed.

(** ** Disjunctive constructs *)






(** ** A conjunction list writes the value of the caller's context *)

(** [evalConjList] stores [TRUE] in the [val] field of the context it is
    given when that field is [null], before it evaluates the conjuncts. *)
Lemma evalConjList_sets_caller_val (hashSum : JSData -> string) :
  exists s c,
    evalExpr hashSum 3 (conj_list [boolean "TRUE"]) 0%nat storeX0 = Ok (Some [2%nat], s)
    /\ nth_error (heap storeX0) 0%nat = Some parentX0
    /\ val parentX0 = JNull
    /\ nth_error (heap s) 0%nat = Some c
    /\ val c = JV (BoolValue true).
Proof.
  eexists. eexists. repeat split; vm_compute; reflexivity.
Qed.

(** * Further properties *)

(** ** Enumerations *)

Lemma cartesianProductOf_from {A : Type} (arrays : list (list A)) (acc : list (list A))
    (t : list A) :
  In t (fold_left (fun a b => flat_map (fun x => map (fun y => (x ++ [y])%list) b) a) arrays acc)
  <-> exists p r, t = (p ++ r)%list /\ In p acc /\ Forall2 (fun y b => In y b) r arrays.
Proof.
  revert acc t. induction arrays as [| b arrays IH]; intros acc t; cbn [fold_left].
  - split.
    + intros H. exists t, []. rewrite app_nil_r. repeat split; [exact H | constructor].
    + intros (p & r & -> & Hp & Hr). inversion Hr. rewrite app_nil_r. exact Hp.
  - rewrite IH. split.
    + intros (p & r & -> & Hp & Hr).
      apply in_flat_map in Hp. destruct Hp as (x & Hx & Hp).
      apply in_map_iff in Hp. destruct Hp as (y & <- & Hy).
      exists x, (y :: r). rewrite <- app_assoc. repeat split; [exact Hx |].
      constructor; assumption.
    + intros (p & r & -> & Hp & Hr). inversion Hr as [| y b' r' arrays' Hy Hr' E1 E2]; subst.
      exists (p ++ [y])%list, r'. rewrite <- app_assoc. repeat split; [| exact Hr'].
      apply in_flat_map. exists p. split; [exact Hp |].
      apply in_map_iff. exists y. split; [reflexivity | exact Hy].
Qed.

Lemma cartesianProductOf_length_from {A : Type} (arrays : list (list A)) (acc : list (list A)) :
  List.length (fold_left (fun a b => flat_map (fun x => map (fun y => (x ++ [y])%list) b) a)
                 arrays acc)
  = (List.length acc * fold_right Nat.mul 1 (map (@List.length A) arrays))%nat.
Proof.
  revert acc. induction arrays as [| b arrays IH]; intros acc; cbn [fold_left map fold_right].
  - lia.
  - rewrite IH.
    assert (H : List.length (flat_map (fun x => map (fun y => (x ++ [y])%list) b) acc)
                = (List.length acc * List.length b)%nat).
    { clear. induction acc as [| x acc IH]; [reflexivity |].
      cbn [flat_map]. rewrite length_app, length_map, IH. cbn [List.length]. lia. }
    rewrite H. lia.
Qed.

(** The tuples of [cartesianProductOf(a1, ..., an)] are exactly the lists
    that take one element from each argument, in the order of the
    arguments; there are as many as the product of the lengths, so none
    for an empty argument and the empty tuple alone for no argument. *)
Theorem cartesianProductOf_enumerates {A : Type} (arrays : list (list A)) :
  (forall t : list A,
      In t (cartesianProductOf arrays) <-> Forall2 (fun y b => In y b) t arrays)
  /\ List.length (cartesianProductOf arrays)
     = fold_right Nat.mul 1%nat (map (@List.length A) arrays).
Proof.
  split.
  - intros t. unfold cartesianProductOf. rewrite cartesianProductOf_from. split.
    + intros (p & r & -> & [<- | []] & Hr). exact Hr.
    + intros H. exists [], t. repeat split; [left; reflexivity | exact H].
  - unfold cartesianProductOf. rewrite cartesianProductOf_length_from. cbn [List.length]. lia.
Qed.

Lemma generatePowerset_eq {A : Type} (path rest : list A) :
  generatePowerset path rest
  = path :: match rest with
            | [] => []
            | v :: r' =>
                (generatePowerset (path ++ [v]) r' ++ tl (generatePowerset path r'))%list
            end.
Proof.
  destruct rest as [| v r']; [reflexivity |].
  cbn [generatePowerset]. f_equal. f_equal.
  destruct r'; reflexivity.
Qed.

Lemma generatePowerset_in {A : Type} (rest path s : list A) :
  In s (generatePowerset path rest)
  <-> exists t, s = (path ++ t)%list /\ Subseq t rest.
Proof.
  revert path s. induction rest as [| v r' IH]; intros path s;
    rewrite generatePowerset_eq.
  - split.
    + intros [<- | []]. exists []. rewrite app_nil_r. split; [reflexivity | constructor].
    + intros (t & -> & Ht). inversion Ht. rewrite app_nil_r. left; reflexivity.
  - split.
    + intros [<- | H].
      * exists []. rewrite app_nil_r. split; [reflexivity |].
        clear. induction (v :: r'); constructor; assumption.
      * apply in_app_or in H. destruct H as [H | H].
        -- apply IH in H. destruct H as (t & -> & Ht).
           exists (v :: t). rewrite <- app_assoc. split; [reflexivity |].
           constructor; assumption.
        -- assert (H' : In s (generatePowerset path r')).
           { rewrite generatePowerset_eq. right.
             rewrite generatePowerset_eq in H. exact H. }
           apply IH in H'. destruct H' as (t & -> & Ht).
           exists t. split; [reflexivity |]. constructor; assumption.
    + intros (t & -> & Ht).
      inversion Ht as [| x s0 l0 Hs | x s0 l0 Hs]; subst.
      * assert (H : In (path ++ t)%list (generatePowerset path r')).
        { apply IH. exists t. split; [reflexivity | assumption]. }
        rewrite generatePowerset_eq in H. destruct H as [H | H].
        -- left. exact H.
        -- right. apply in_or_app. right.
           rewrite generatePowerset_eq. exact H.
      * right. apply in_or_app. left. apply IH.
        exists s0. rewrite <- app_assoc. split; [reflexivity | assumption].
Qed.

Lemma generatePowerset_length {A : Type} (rest path : list A) :
  List.length (generatePowerset path rest) = (2 ^ List.length rest)%nat.
Proof.
  revert path. induction rest as [| v r' IH]; intros path;
    rewrite generatePowerset_eq; [reflexivity |].
  cbn [List.length]. rewrite length_app, IH.
  specialize (IH path). rewrite generatePowerset_eq in IH. cbn [List.length] in IH.
  cbn [tl]. rewrite Nat.pow_succ_r'. 
  destruct (generatePowerset path r') eqn:E.
  - rewrite generatePowerset_eq in E. discriminate.
  - rewrite generatePowerset_eq in E. injection E as _ E. subst. cbn [tl]. lia.
Qed.

(** [subsets(vals)] lists exactly the subsequences of [vals], the empty one
    first, and has [2 ^ vals.length] entries. *)
Theorem subsets_enumerates {A : Type} (vals : list A) :
  (forall s : list A, In s (subsets vals) <-> Subseq s vals)
  /\ List.length (subsets vals) = (2 ^ List.length vals)%nat
  /\ hd_error (subsets vals) = Some [].
Proof.
  unfold subsets. repeat split.
  - intros H. apply generatePowerset_in in H. destruct H as (t & -> & Ht). exact Ht.
  - intros H. apply generatePowerset_in. exists s. split; [reflexivity | exact H].
  - apply generatePowerset_length.
  - rewrite generatePowerset_eq. reflexivity.
Qed.

Lemma combs_in {A B : Type} (domain : list A) (range : list B) (c : list (A * B)) :
  In c (combs domain range)
  <-> map fst c = rev domain /\ Forall (fun v => In v range) (map snd c).
Proof.
  revert c. induction domain as [| d domain IH]; intros c; cbn [combs rev].
  - split.
    + intros [<- | []]. split; [reflexivity | constructor].
    + intros [H _]. destruct c; [left; reflexivity | discriminate].
  - rewrite in_flat_map. split.
    + intros (v & Hv & Hc). apply in_map_iff in Hc. destruct Hc as (c0 & <- & Hc0).
      apply IH in Hc0. destruct Hc0 as [Hd Hr].
      rewrite !map_app, Hd. cbn [map fst snd]. split; [reflexivity |].
      apply Forall_app. split; [exact Hr | constructor; [exact Hv | constructor]].
    + intros [Hd Hr].
      destruct (rev c) as [| [d' v] c0r] eqn:Ec.
      * apply (f_equal (@rev _)) in Ec. rewrite rev_involutive in Ec. subst c.
        cbn in Hd. destruct (rev domain); discriminate.
      * apply (f_equal (@rev _)) in Ec. rewrite rev_involutive in Ec. cbn [rev] in Ec.
        subst c. rewrite !map_app in Hd, Hr. cbn [map fst snd] in Hd, Hr.
        apply app_inj_tail in Hd. destruct Hd as [Hd ->].
        apply Forall_app in Hr. destruct Hr as [Hr Hv].
        exists v. split; [inversion Hv; assumption |].
        apply in_map_iff. exists (rev c0r). split; [reflexivity |].
        apply IH. split; assumption.
Qed.

Lemma combs_length {A B : Type} (domain : list A) (range : list B) :
  List.length (combs domain range) = (List.length range ^ List.length domain)%nat.
Proof.
  induction domain as [| d domain IH]; [reflexivity |].
  cbn [combs List.length]. rewrite Nat.pow_succ_r'.
  induction range as [| v range IHr].
  - reflexivity.
  - cbn [flat_map]. rewrite length_app, length_map. 
    change (List.length (flat_map _ range)) with
      (List.length (flat_map (fun v0 => map (fun c => (c ++ [(d, v0)])%list)
                                          (combs domain (v :: range))) range)).
    assert (H : forall l : list B,
               List.length (flat_map (fun v0 => map (fun c => (c ++ [(d, v0)])%list)
                                                   (combs domain (v :: range))) l)
               = (List.length l * List.length (combs domain (v :: range)))%nat).
    { clear. induction l as [| x l IHl]; [reflexivity |].
      cbn [flat_map]. rewrite length_app, length_map, IHl. cbn [List.length]. lia. }
    rewrite H, IH. cbn [List.length]. lia.
Qed.

(** [combs(domain, range)] lists exactly the mappings that give every
    element of [domain] one element of [range] (the pairs in the reverse
    order of [domain]), [range.length ^ domain.length] of them: one empty
    mapping for an empty domain, none for an empty range and a domain that
    is not empty. *)
Theorem combs_enumerates {A B : Type} (domain : list A) (range : list B) :
  (forall c : list (A * B),
      In c (combs domain range)
      <-> map fst c = rev domain /\ Forall (fun v => In v range) (map snd c))
  /\ List.length (combs domain range) = (List.length range ^ List.length domain)%nat.
Proof.
  split; [intros c; apply combs_in | apply combs_length].
Qed.

(** ** The order of [Array.prototype.sort] and what is hashed after it *)

Lemma ascii_compare_lt_trans (a b c : ascii) :
  Ascii.compare a b = Lt -> Ascii.compare b c = Lt -> Ascii.compare a c = Lt.
Proof.
  unfold Ascii.compare. rewrite !N.compare_lt_iff. apply N.lt_trans.
Qed.

Lemma string_compare_lt_trans (s1 : string) :
  forall s2 s3 : string,
    String.compare s1 s2 = Lt -> String.compare s2 s3 = Lt -> String.compare s1 s3 = Lt.
Proof.
  induction s1 as [| c1 s1 IH]; intros [| c2 s2] [| c3 s3]; cbn; try congruence.
  destruct (Ascii.compare c1 c2) eqn:E12; try discriminate;
    destruct (Ascii.compare c2 c3) eqn:E23; try discriminate; intros H12 H23.
  - apply Ascii.compare_eq_iff in E12, E23. subst.
    assert (E : Ascii.compare c3 c3 = Eq).
    { unfold Ascii.compare. apply N.compare_refl. }
    rewrite E. eapply IH; eassumption.
  - apply Ascii.compare_eq_iff in E12. subst. rewrite E23. reflexivity.
  - apply Ascii.compare_eq_iff in E23. subst. rewrite E12. reflexivity.
  - rewrite (ascii_compare_lt_trans _ _ _ E12 E23). reflexivity.
Qed.

(** [a] is not behind [b] in the order of the code units. *)
Lemma string_le_trans (a b c : string) :
  String.ltb b a = false -> String.ltb c b = false -> String.ltb c a = false.
Proof.
  unfold String.ltb. intros Hab Hbc.
  destruct (String.compare c a) eqn:Eca; try reflexivity.
  destruct (String.compare b a) eqn:Eba; try discriminate.
  - apply String.compare_eq_iff in Eba. subst. rewrite Eca in Hbc. discriminate.
  - destruct (String.compare c b) eqn:Ecb; try discriminate.
    + apply String.compare_eq_iff in Ecb. subst. congruence.
    + rewrite String.compare_antisym in Eba, Ecb.
      destruct (String.compare a b) eqn:Eab; try discriminate.
      destruct (String.compare b c) eqn:Ebc; try discriminate.
      pose proof (string_compare_lt_trans _ _ _ Eab Ebc) as Hac.
      rewrite String.compare_antisym, Hac in Eca. discriminate.
Qed.

Lemma string_le_antisym (a b : string) :
  String.ltb b a = false -> String.ltb a b = false -> a = b.
Proof.
  unfold String.ltb. intros Hab Hba.
  destruct (String.compare a b) eqn:E; try discriminate.
  - apply String.compare_eq_iff. exact E.
  - rewrite String.compare_antisym, E in Hab. discriminate.
Qed.

Lemma insertBy_in {A : Type} (gt : A -> A -> bool) (x y : A) (l : list A) :
  In y (insertBy gt x l) <-> y = x \/ In y l.
Proof.
  induction l as [| z l IH]; cbn [insertBy].
  - cbn. intuition congruence.
  - destruct (gt z x); cbn [In]; [| rewrite IH]; intuition congruence.
Qed.

Lemma insertBy_sorted (x : string) (l : list string) :
  sortedStrings l -> sortedStrings (insertBy (fun a b => String.ltb b a) x l).
Proof.
  induction l as [| y l IH]; cbn [insertBy sortedStrings]; intros Hs.
  - split; constructor.
  - destruct Hs as [Hy Hl].
    destruct (String.ltb x y) eqn:E; cbn [sortedStrings].
    + split; [| split; assumption].
      assert (Hxy : String.ltb y x = false).
      { unfold String.ltb in *. rewrite String.compare_antisym.
        destruct (String.compare x y); try discriminate. reflexivity. }
      constructor; [exact Hxy |].
      eapply Forall_impl; [| exact Hy].
      intros z Hz. cbv beta in Hz. eapply string_le_trans; eassumption.
    + split; [| apply IH; exact Hl].
      apply Forall_forall. intros z Hz. apply insertBy_in in Hz.
      destruct Hz as [-> | Hz]; [exact E |].
      rewrite Forall_forall in Hy. apply Hy. exact Hz.
Qed.

Lemma js_sort_sorted (l : list string) : sortedStrings (js_sort l).
Proof.
  unfold js_sort, stableSort.
  assert (H : forall acc, sortedStrings acc ->
                sortedStrings (fold_left (fun acc x => insertBy (fun a b => String.ltb b a) x acc)
                                 l acc)).
  { induction l as [| x l IH]; intros acc Hacc; cbn [fold_left]; [exact Hacc |].
    apply IH. apply insertBy_sorted. exact Hacc. }
  apply H. exact I.
Qed.

Lemma sortedStrings_perm_eq (l : list string) :
  forall l' : list string,
    sortedStrings l -> sortedStrings l' -> Permutation l l' -> l = l'.
Proof.
  induction l as [| a l IH]; intros l' Hl Hl' Hp.
  - apply Permutation_nil in Hp. subst. reflexivity.
  - destruct l' as [| b l'].
    + apply Permutation_sym, Permutation_nil in Hp. discriminate.
    + destruct Hl as [Ha Hl]. destruct Hl' as [Hb Hl'].
      assert (Hab : a = b).
      { assert (Hina : In a (b :: l')) by (eapply Permutation_in; [exact Hp | left; reflexivity]).
        assert (Hinb : In b (a :: l)).
        { eapply Permutation_in; [apply Permutation_sym; exact Hp | left; reflexivity]. }
        destruct Hina as [-> | Hina]; [reflexivity |].
        destruct Hinb as [-> | Hinb]; [reflexivity |].
        rewrite Forall_forall in Ha, Hb.
        apply string_le_antisym; [apply Ha; exact Hinb | apply Hb; exact Hina]. }
      subst b. f_equal. apply IH; try assumption.
      eapply Permutation_cons_inv. exact Hp.
Qed.

(** [sort()] gives one result for all the orders of the same strings. *)
Lemma js_sort_perm (l l' : list string) :
  Permutation l l' -> js_sort l = js_sort l'.
Proof.
  intros Hp. apply sortedStrings_perm_eq; try apply js_sort_sorted.
  unfold js_sort.
  eapply Permutation_trans; [apply stableSort_perm |].
  eapply Permutation_trans; [exact Hp | apply Permutation_sym, stableSort_perm].
Qed.

(** ** Sets: the constructor and the fingerprint *)

Lemma existsb_eqb_In (k : string) (seen : list string) :
  existsb (String.eqb k) seen = true <-> In k seen.
Proof.
  rewrite existsb_exists. split.
  - intros (y & Hy & E). apply String.eqb_eq in E. subst. exact Hy.
  - intros H. exists k. split; [exact H | apply String.eqb_refl].
Qed.

Lemma uniqByAux_in {A : Type} (key : A -> string) (l : list A) :
  forall (seen : list string) (x : A),
    In x (Lodash.uniqByAux key seen l) -> In x l /\ ~ In (key x) seen.
Proof.
  induction l as [| y l IH]; intros seen x; cbn [Lodash.uniqByAux]; [intros [] |].
  destruct (existsb (String.eqb (key y)) seen) eqn:E.
  - intros H. apply IH in H. destruct H as [H1 H2]. split; [right; exact H1 | exact H2].
  - intros [<- | H].
    + split; [left; reflexivity |].
      intros Hin. apply existsb_eqb_In in Hin. congruence.
    + apply IH in H. destruct H as [H1 H2]. split; [right; exact H1 |].
      intros Hin. apply H2. right. exact Hin.
Qed.

Lemma uniqByAux_nodup {A : Type} (key : A -> string) (l : list A) :
  forall seen : list string, NoDup (map key (Lodash.uniqByAux key seen l)).
Proof.
  induction l as [| y l IH]; intros seen; cbn [Lodash.uniqByAux]; [constructor |].
  destruct (existsb (String.eqb (key y)) seen); [apply IH |].
  cbn [map]. constructor; [| apply IH].
  intros Hin. apply in_map_iff in Hin. destruct Hin as (x & Hk & Hx).
  apply uniqByAux_in in Hx. destruct Hx as [_ Hx]. apply Hx. left. symmetry. exact Hk.
Qed.

Lemma uniqByAux_keys {A : Type} (key : A -> string) (l : list A) :
  forall (seen : list string) (x : A),
    In x l -> ~ In (key x) seen -> In (key x) (map key (Lodash.uniqByAux key seen l)).
Proof.
  induction l as [| y l IH]; intros seen x; cbn [Lodash.uniqByAux]; [intros [] |].
  intros Hx Hseen.
  destruct (existsb (String.eqb (key y)) seen) eqn:E.
  - destruct Hx as [-> | Hx]; [| apply IH; assumption].
    apply existsb_eqb_In in E. contradiction.
  - cbn [map]. destruct (String.eqb (key y) (key x)) eqn:Ek.
    + left. apply String.eqb_eq. exact Ek.
    + right. destruct Hx as [-> | Hx]; [rewrite String.eqb_refl in Ek; discriminate |].
      apply IH; [exact Hx |].
      intros [Hin | Hin]; [| contradiction].
      rewrite Hin, String.eqb_refl in Ek. discriminate.
Qed.

Lemma uniqByAux_subseq {A : Type} (key : A -> string) (l : list A) :
  forall seen : list string, Subseq (Lodash.uniqByAux key seen l) l.
Proof.
  induction l as [| y l IH]; intros seen; cbn [Lodash.uniqByAux]; [constructor |].
  destruct (existsb (String.eqb (key y)) seen); constructor; apply IH.
Qed.

Lemma uniqByAux_fixed {A : Type} (key : A -> string) (l : list A) :
  forall seen : list string,
    NoDup (map key l) -> (forall x, In x l -> ~ In (key x) seen) ->
    Lodash.uniqByAux key seen l = l.
Proof.
  induction l as [| y l IH]; intros seen Hnd Hseen; cbn [Lodash.uniqByAux]; [reflexivity |].
  destruct (existsb (String.eqb (key y)) seen) eqn:E.
  - apply existsb_eqb_In in E. exfalso. apply (Hseen y); [left; reflexivity | exact E].
  - f_equal. cbn [map] in Hnd. inversion Hnd as [| k ks Hk Hnd' Eq]; subst.
    apply IH; [exact Hnd' |].
    intros x Hx [Hin | Hin].
    + apply Hk. rewrite Hin. apply in_map. exact Hx.
    + apply (Hseen x); [right; exact Hx | exact Hin].
Qed.

Lemma uniqByAux_first {A : Type} (key : A -> string) (l : list A) :
  forall (seen : list string) (x : A),
    In x (Lodash.uniqByAux key seen l) ->
    exists before after : list A,
      l = (before ++ x :: after)%list /\ ~ In (key x) (map key before).
Proof.
  induction l as [| y l IH]; intros seen x; cbn [Lodash.uniqByAux]; [intros [] |].
  destruct (existsb (String.eqb (key y)) seen) eqn:E.
  - intros H. pose proof (uniqByAux_in key l seen x H) as [_ Hseen].
    destruct (IH seen x H) as (before & after & -> & Hb).
    exists (y :: before), after. split; [reflexivity |].
    cbn [map]. intros [Hk | Hin]; [| exact (Hb Hin)].
    apply Hseen. rewrite <- Hk. apply existsb_eqb_In. exact E.
  - intros [<- | H].
    + exists [], l. split; [reflexivity | intros []].
    + pose proof (uniqByAux_in key l (key y :: seen) x H) as [_ Hseen].
      destruct (IH (key y :: seen) x H) as (before & after & -> & Hb).
      exists (y :: before), after. split; [reflexivity |].
      cbn [map]. intros [Hk | Hin]; [| exact (Hb Hin)].
      apply Hseen. left. exact Hk.
Qed.

Lemma uniqByAux_snoc {A : Type} (key : A -> string) (x : A) (l : list A) :
  forall seen : list string,
    Lodash.uniqByAux key seen (l ++ [x])
    = (Lodash.uniqByAux key seen l
       ++ (if existsb (String.eqb (key x)) seen || existsb (String.eqb (key x)) (map key l)
           then [] else [x]))%list.
Proof.
  induction l as [| y l IH]; intros seen; cbn [app Lodash.uniqByAux map existsb].
  - rewrite orb_false_r. destruct (existsb (String.eqb (key x)) seen); reflexivity.
  - destruct (existsb (String.eqb (key y)) seen) eqn:E.
    + rewrite IH. f_equal.
      destruct (String.eqb_spec (key x) (key y)) as [Ek | _]; [| reflexivity].
      rewrite Ek, E. reflexivity.
    + cbn [app]. rewrite IH. cbn [existsb]. f_equal. f_equal.
      destruct (String.eqb (key x) (key y)), (existsb (String.eqb (key x)) seen);
        reflexivity.
Qed.

(** [new SetValue(elems)] keeps, in their order, the first element of
    every fingerprint.  The elements kept are some of [elems], in their
    order; an element is kept only where no element before it in [elems]
    has its fingerprint; no two of the elements kept have the same
    fingerprint; every fingerprint of [elems] is the one of an element
    kept; a set built again from the elements kept is the same set; and
    one more element at the end of [elems] is added at the end of the
    elements kept, unless an element of [elems] has its fingerprint. *)
Theorem mkSetValue_unique_by_fingerprint (hashSum : JSData -> string) (elems : list TLAValue) :
  exists kept : list TLAValue,
    mkSetValue hashSum elems = SetValue kept
    /\ Subseq kept elems
    /\ (forall x : TLAValue,
         mkSetValue hashSum (elems ++ [x])
         = SetValue (if existsb (String.eqb (fingerprint hashSum x))
                               (map (fingerprint hashSum) elems)
                     then kept else kept ++ [x]))
    /\ (forall x, In x kept ->
         exists before after : list TLAValue,
           elems = (before ++ x :: after)%list
           /\ ~ In (fingerprint hashSum x) (map (fingerprint hashSum) before))
    /\ NoDup (map (fingerprint hashSum) kept)
    /\ (forall x, In x elems -> In (fingerprint hashSum x) (map (fingerprint hashSum) kept))
    /\ mkSetValue hashSum kept = SetValue kept.
Proof.
  exists (Lodash.uniqBy (fingerprint hashSum) elems). unfold mkSetValue, Lodash.uniqBy.
  split; [reflexivity |]. split; [apply uniqByAux_subseq |].
  split.
  { intros x. rewrite uniqByAux_snoc. cbn [existsb orb].
    destruct (existsb (String.eqb (fingerprint hashSum x)) (map (fingerprint hashSum) elems));
      [rewrite app_nil_r |]; reflexivity. }
  split; [intros x Hx; exact (uniqByAux_first _ _ [] x Hx) |].
  split; [apply uniqByAux_nodup |]. split.
  - intros x Hx. apply uniqByAux_keys; [exact Hx | intros []].
  - f_equal. apply uniqByAux_fixed; [apply uniqByAux_nodup | intros x _ []].
Qed.

Lemma uniqBy_keys_perm {A : Type} (key : A -> string) (l l' : list A) :
  (forall k, In k (map key l) <-> In k (map key l')) ->
  Permutation (map key (Lodash.uniqBy key l)) (map key (Lodash.uniqBy key l')).
Proof.
  intros H. unfold Lodash.uniqBy.
  apply NoDup_Permutation; try apply uniqByAux_nodup.
  assert (Hk : forall (m : list A) k,
             In k (map key (Lodash.uniqByAux key [] m)) <-> In k (map key m)).
  { intros m k. split; intros Hin; apply in_map_iff in Hin; destruct Hin as (x & <- & Hx).
    - apply uniqByAux_in in Hx. apply in_map. apply Hx.
    - apply uniqByAux_keys; [exact Hx | intros []]. }
  intros k. rewrite !Hk. apply H.
Qed.

(** Two sets built from elements with the same fingerprints, in whatever
    order and however often each occurs, have the same fingerprint. *)
Theorem SetValue_fingerprint_of_elements (hashSum : JSData -> string)
    (elems elems' : list TLAValue) :
  (forall k, In k (map (fingerprint hashSum) elems)
             <-> In k (map (fingerprint hashSum) elems')) ->
  fingerprint hashSum (mkSetValue hashSum elems)
  = fingerprint hashSum (mkSetValue hashSum elems').
Proof.
  intros H. unfold mkSetValue. cbn [fingerprint]. do 3 f_equal.
  apply js_sort_perm. apply uniqBy_keys_perm. exact H.
Qed.

Lemma SetValue_fingerprint_of_elements_witness :
  (forall k, In k (map (fingerprint renderData) [IntValue 1; IntValue 2; IntValue 2])
             <-> In k (map (fingerprint renderData) [IntValue 2; IntValue 1]))
  /\ fingerprint renderData (mkSetValue renderData [IntValue 1; IntValue 2; IntValue 2])
     = fingerprint renderData (mkSetValue renderData [IntValue 2; IntValue 1]).
Proof.
  assert (H : forall k, In k (map (fingerprint renderData) [IntValue 1; IntValue 2; IntValue 2])
                        <-> In k (map (fingerprint renderData) [IntValue 2; IntValue 1])).
  { intros k. cbn. tauto. }
  split; [exact H |].
  exact (SetValue_fingerprint_of_elements renderData _ _ H).
Defined.

(** ** Functions and states: fingerprints do not depend on the order *)

Lemma zipPad_combine (a b : list string) :
  List.length a = List.length b ->
  zipPad a b = map (fun p => DArr [DStr (fst p); DStr (snd p)]) (combine a b).
Proof.
  revert b. induction a as [| x a IH]; intros [| y b]; cbn; try discriminate; [reflexivity |].
  intros H. f_equal. apply IH. lia.
Qed.

Lemma combine_map_both {A B C D : Type} (f : A -> C) (g : B -> D) (a : list A) (b : list B) :
  combine (map f a) (map g b) = map (fun p => (f (fst p), g (snd p))) (combine a b).
Proof.
  revert b. induction a as [| x a IH]; intros [| y b]; cbn; try reflexivity.
  f_equal. apply IH.
Qed.

(** The fingerprint of a function depends on its argument-value pairs, not
    on the order in which the function lists them. *)
Theorem FcnRcdValue_fingerprint_order (hashSum : JSData -> string)
    (d v d' v' : list TLAValue) (r r' : bool) :
  List.length d = List.length v ->
  List.length d' = List.length v' ->
  Permutation (combine d v) (combine d' v') ->
  fingerprint hashSum (FcnRcdValue d v r) = fingerprint hashSum (FcnRcdValue d' v' r').
Proof.
  intros Hl Hl' Hp. cbn [fingerprint]. unfold fcnFingerprint. do 3 f_equal.
  apply js_sort_perm.
  rewrite !zipPad_combine by (rewrite !length_map; assumption).
  rewrite !combine_map_both, !map_map.
  apply Permutation_map. exact Hp.
Qed.

Lemma FcnRcdValue_fingerprint_order_witness :
  Permutation (combine [IntValue 1; IntValue 2] [StringValue "a"; StringValue "b"])
              (combine [IntValue 2; IntValue 1] [StringValue "b"; StringValue "a"])
  /\ fingerprint renderData
       (FcnRcdValue [IntValue 1; IntValue 2] [StringValue "a"; StringValue "b"] false)
     = fingerprint renderData
         (FcnRcdValue [IntValue 2; IntValue 1] [StringValue "b"; StringValue "a"] false).
Proof.
  assert (Hp : Permutation (combine [IntValue 1; IntValue 2] [StringValue "a"; StringValue "b"])
                 (combine [IntValue 2; IntValue 1] [StringValue "b"; StringValue "a"])).
  { apply perm_swap. }
  split; [exact Hp |].
  exact (FcnRcdValue_fingerprint_order renderData
           [IntValue 1; IntValue 2] [StringValue "a"; StringValue "b"]
           [IntValue 2; IntValue 1] [StringValue "b"; StringValue "a"] false false
           eq_refl eq_refl Hp).
Defined.

Lemma obj_get_In {V : Type} (o : list (string * V)) (k : string) (v : V) :
  NoDup (obj_keys o) -> (obj_get o k = Some v <-> In (k, v) o).
Proof.
  unfold obj_keys. induction o as [| [k' v'] o IH]; cbn [obj_get map fst In]; intros Hnd.
  - split; [discriminate | intros []].
  - inversion Hnd as [| x xs Hk Hnd' E]; subst.
    destruct (String.eqb k' k) eqn:Ek.
    + apply String.eqb_eq in Ek. subst k'. split.
      * intros H. injection H as ->. left. reflexivity.
      * intros [H | H]; [injection H as ->; reflexivity |].
        exfalso. apply Hk. apply in_map_iff. exists (k, v). split; [reflexivity | exact H].
    + rewrite (IH Hnd'). split.
      * intros H. right. exact H.
      * intros [H | H]; [| exact H].
        injection H as -> _. rewrite String.eqb_refl in Ek. discriminate.
Qed.

Lemma obj_get_perm {V : Type} (o o' : list (string * V)) (k : string) :
  NoDup (obj_keys o) -> Permutation o o' -> obj_get o k = obj_get o' k.
Proof.
  intros Hnd Hp.
  assert (Hnd' : NoDup (obj_keys o')).
  { unfold obj_keys in *. eapply Permutation_NoDup; [apply Permutation_map; exact Hp | exact Hnd]. }
  destruct (obj_get o k) as [v |] eqn:E.
  - symmetry. apply (obj_get_In o' k v Hnd').
    eapply Permutation_in; [exact Hp |]. apply (obj_get_In o k v Hnd). exact E.
  - destruct (obj_get o' k) as [v' |] eqn:E'; [| reflexivity].
    apply (obj_get_In o' k v' Hnd') in E'.
    apply (Permutation_in _ (Permutation_sym Hp)) in E'.
    apply (obj_get_In o k v' Hnd) in E'. congruence.
Qed.

(** The fingerprint of a state does not depend on the order in which the
    object holds the variables. *)
Theorem TLAState_fingerprint_order (hashSum : JSData -> string) (st st' : TLAState) :
  NoDup (obj_keys st) ->
  Permutation st st' ->
  stateFingerprint hashSum st = stateFingerprint hashSum st'.
Proof.
  intros Hnd Hp. unfold stateFingerprint.
  assert (Hk : js_sort (obj_keys st) = js_sort (obj_keys st')).
  { apply js_sort_perm. unfold obj_keys. apply Permutation_map. exact Hp. }
  rewrite <- Hk. do 2 f_equal.
  apply map_ext. intros k. unfold getVarVal.
  rewrite (obj_get_perm st st' k Hnd Hp). reflexivity.
Qed.

Lemma TLAState_fingerprint_order_witness :
  NoDup (obj_keys [("x", JV (IntValue 0)); ("y", JV (BoolValue true))])
  /\ Permutation [("x", JV (IntValue 0)); ("y", JV (BoolValue true))]
                 [("y", JV (BoolValue true)); ("x", JV (IntValue 0))]
  /\ stateFingerprint renderData [("x", JV (IntValue 0)); ("y", JV (BoolValue true))]
     = stateFingerprint renderData [("y", JV (BoolValue true)); ("x", JV (IntValue 0))].
Proof.
  assert (Hnd : NoDup (obj_keys [("x", JV (IntValue 0)); ("y", JV (BoolValue true))])).
  { repeat constructor; cbn; intuition discriminate. }
  assert (Hp : Permutation [("x", JV (IntValue 0)); ("y", JV (BoolValue true))]
                           [("y", JV (BoolValue true)); ("x", JV (IntValue 0))]).
  { apply perm_swap. }
  split; [exact Hnd |]. split; [exact Hp |].
  exact (TLAState_fingerprint_order renderData _ _ Hnd Hp).
Defined.

(** ** Set operations *)

Lemma list_eqb_eq {A : Type} (eqb : A -> A -> bool) (a : list A) :
  Forall (fun x => forall y, eqb x y = true <-> x = y) a ->
  forall b, list_eqb eqb a b = true <-> a = b.
Proof.
  induction 1 as [| x a Hx _ IH]; intros [| y b]; cbn [list_eqb];
    try (split; [discriminate | discriminate]); [split; reflexivity |].
  rewrite andb_true_iff, Hx, IH. split.
  - intros [-> ->]. reflexivity.
  - intros E. injection E as -> ->. split; reflexivity.
Qed.

(** [_.isEqual] holds of two values exactly when they are the same value,
    written in the same way. *)
Lemma isEqual_eq : forall a b : TLAValue, isEqual a b = true <-> a = b.
Proof.
  fix IH 1. intros a.
  assert (HF : forall l : list TLAValue,
             (fix all (l : list TLAValue) : Prop :=
                match l with
                | [] => True
                | x :: t => (forall y, isEqual x y = true <-> x = y) /\ all t
                end) l -> Forall (fun x => forall y, isEqual x y = true <-> x = y) l).
  { induction l as [| x t IHt]; intros H; constructor; [apply H | apply IHt, H]. }
  destruct a as [n | x | s | es | es | d v r]; intros [m | y | t | fs | fs | d' v' r'];
    cbn [isEqual]; try (split; discriminate).
  - rewrite Z.eqb_eq. split; congruence.
  - rewrite Bool.eqb_true_iff. split; congruence.
  - rewrite String.eqb_eq. split; congruence.
  - rewrite (list_eqb_eq isEqual es); [split; congruence |].
    apply HF. induction es as [| e es IHes]; cbn; [exact I | split; [apply IH | exact IHes]].
  - rewrite (list_eqb_eq isEqual es); [split; congruence |].
    apply HF. induction es as [| e es IHes]; cbn; [exact I | split; [apply IH | exact IHes]].
  - rewrite !andb_true_iff, Bool.eqb_true_iff.
    rewrite (list_eqb_eq isEqual d), (list_eqb_eq isEqual v).
    + split; [intros [[-> ->] ->]; reflexivity | intros E; injection E as -> -> ->; auto].
    + apply HF. induction v as [| e es IHes]; cbn; [exact I | split; [apply IH | exact IHes]].
    + apply HF. induction d as [| e es IHes]; cbn; [exact I | split; [apply IH | exact IHes]].
Qed.

Lemma existsb_isEqual (x : TLAValue) (l : list TLAValue) :
  existsb (isEqual x) l = true <-> In x l.
Proof.
  rewrite existsb_exists. split.
  - intros (y & Hy & E). apply isEqual_eq in E. subst. exact Hy.
  - intros H. exists x. split; [exact H | apply isEqual_eq; reflexivity].
Qed.

Lemma uniqWithFrom_in (array : list TLAValue) :
  forall (result : list TLAValue) (x : TLAValue),
    In x (LodashWith.uniqWithFrom isEqual result array) <-> In x result \/ In x array.
Proof.
  induction array as [| v rest IH]; intros result x; cbn [LodashWith.uniqWithFrom].
  - cbn. tauto.
  - destruct (existsb (isEqual v) result) eqn:E; rewrite IH.
    + apply existsb_isEqual in E. cbn [In]. split; [tauto |].
      intros [H | [<- | H]]; tauto.
    + rewrite in_app_iff. cbn [In]. tauto.
Qed.

Lemma mkSetValue_elems (hashSum : JSData -> string) (l : list TLAValue) :
  exists es : list TLAValue,
    mkSetValue hashSum l = SetValue es
    /\ (forall x, In x es -> In x l)
    /\ (forall x, In x l -> In (fingerprint hashSum x) (map (fingerprint hashSum) es))
    /\ NoDup (map (fingerprint hashSum) es).
Proof.
  exists (Lodash.uniqBy (fingerprint hashSum) l). unfold mkSetValue, Lodash.uniqBy.
  split; [reflexivity |]. split; [| split].
  - intros x Hx. apply uniqByAux_in in Hx. apply Hx.
  - intros x Hx. apply uniqByAux_keys; [exact Hx | intros []].
  - apply uniqByAux_nodup.
Qed.

(** The union of two sets holds elements of the two sets only, one for
    every fingerprint that occurs in them. *)
Theorem unionWith_elements (hashSum : JSData -> string) (elems otherElems : list TLAValue) :
  exists es : list TLAValue,
    unionWith hashSum elems otherElems = SetValue es
    /\ (forall x, In x es -> In x elems \/ In x otherElems)
    /\ (forall x, In x elems \/ In x otherElems ->
                  In (fingerprint hashSum x) (map (fingerprint hashSum) es))
    /\ NoDup (map (fingerprint hashSum) es).
Proof.
  unfold unionWith.
  destruct (mkSetValue_elems hashSum (LodashWith.uniqWith isEqual (elems ++ otherElems)))
    as (es & E & Hsound & Hcompl & Hnd).
  exists es. split; [exact E |]. split; [| split; [| exact Hnd]].
  - intros x Hx. apply Hsound in Hx. unfold LodashWith.uniqWith in Hx.
    apply uniqWithFrom_in in Hx. rewrite in_app_iff in Hx. destruct Hx as [[] | Hx]. exact Hx.
  - intros x Hx. apply Hcompl. unfold LodashWith.uniqWith.
    apply uniqWithFrom_in. right. apply in_app_iff. exact Hx.
Qed.

Lemma intersectionWithFrom_spec (other array : list TLAValue) (maxLength : nat) :
  forall result : list TLAValue,
    NoDup result -> incl result other ->
    (List.length other <= maxLength)%nat \/
    (List.length result + List.length array <= maxLength)%nat ->
    let out := LodashWith.intersectionWithFrom isEqual maxLength other result array in
    NoDup out /\ incl out other
    /\ (forall x, In x out <-> In x result \/ (In x array /\ In x other)).
Proof.
  induction array as [| v rest IH]; intros result Hnd Hincl Hmax;
    cbn [LodashWith.intersectionWithFrom].
  - cbn zeta. split; [exact Hnd |]. split; [exact Hincl |].
    intros x. cbn. tauto.
  - destruct (List.length result <? maxLength)%nat eqn:Elen.
    + destruct (negb (existsb (isEqual v) result) && existsb (isEqual v) other) eqn:E.
      * apply andb_true_iff in E. destruct E as [E1 E2].
        apply negb_true_iff in E1. apply existsb_isEqual in E2.
        assert (Hnot : ~ In v result).
        { intros Hin. apply existsb_isEqual in Hin. congruence. }
        destruct (IH (result ++ [v])%list) as (H1 & H2 & H3).
        -- apply NoDup_app; [exact Hnd | repeat constructor; intros [] |].
           intros y Hy [<- | []]. contradiction.
        -- intros y Hy. apply in_app_iff in Hy. destruct Hy as [Hy | [<- | []]];
             [apply Hincl; exact Hy | exact E2].
        -- destruct Hmax as [Hmax | Hmax]; [left; exact Hmax | right].
           rewrite length_app. cbn [List.length] in *. lia.
        -- cbn zeta. split; [exact H1 |]. split; [exact H2 |].
           intros x. rewrite H3, in_app_iff. cbn [In]. split; [| tauto].
           intros [[H | [<- | []]] | H]; tauto.
      * destruct (IH result Hnd Hincl) as (H1 & H2 & H3).
        -- destruct Hmax as [Hmax | Hmax]; [left; exact Hmax | right].
           cbn [List.length] in Hmax. lia.
        -- cbn zeta. split; [exact H1 |]. split; [exact H2 |].
           intros x. rewrite H3. cbn [In]. split; [tauto |].
           intros [H | [[<- | H] Ho]]; try tauto.
           apply andb_false_iff in E. destruct E as [E | E].
           ++ apply negb_false_iff in E. apply existsb_isEqual in E. tauto.
           ++ apply existsb_isEqual in Ho. congruence.
    + apply Nat.ltb_ge in Elen.
      cbn zeta. split; [exact Hnd |]. split; [exact Hincl |].
      intros x. split; [tauto |]. intros [H | [_ Ho]]; [exact H |].
      destruct Hmax as [Hmax | Hmax]; [| cbn [List.length] in Hmax; lia].
      apply (@NoDup_length_incl _ result other Hnd); [lia | exact Hincl | exact Ho].
Qed.

(** The intersection of two sets holds exactly elements that are in both
    sets as [_.isEqual] finds them, that is, written in the same way; of
    these it holds one for every fingerprint. *)
Theorem intersectionWith_elements (hashSum : JSData -> string)
    (elems otherElems : list TLAValue) :
  exists es : list TLAValue,
    intersectionWith hashSum elems otherElems = SetValue es
    /\ (forall x, In x es -> In x elems /\ In x otherElems)
    /\ (forall x, In x elems -> In x otherElems ->
                  In (fingerprint hashSum x) (map (fingerprint hashSum) es))
    /\ NoDup (map (fingerprint hashSum) es).
Proof.
  unfold intersectionWith.
  destruct (mkSetValue_elems hashSum (LodashWith.intersectionWith isEqual elems otherElems))
    as (es & E & Hsound & Hcompl & Hnd).
  destruct (intersectionWithFrom_spec otherElems elems
              (Nat.min (List.length elems) (List.length otherElems)) [])
    as (_ & _ & H); [constructor | intros x [] | |].
  { cbn [List.length].
    destruct (Nat.le_ge_cases (List.length elems) (List.length otherElems)); [right | left]; lia. }
  exists es. split; [exact E |]. split; [| split; [| exact Hnd]].
  - intros x Hx. apply Hsound in Hx. apply H in Hx. destruct Hx as [[] | Hx]. exact Hx.
  - intros x Hx Ho. apply Hcompl. apply H. right. split; assumption.
Qed.

(** The difference of two sets holds exactly elements of the first set
    that are not in the second as [_.isEqual] finds them; of these it
    holds one for every fingerprint. *)
Theorem diffWith_elements (hashSum : JSData -> string) (elems otherElems : list TLAValue) :
  exists es : list TLAValue,
    diffWith hashSum elems otherElems = SetValue es
    /\ (forall x, In x es -> In x elems /\ ~ In x otherElems)
    /\ (forall x, In x elems -> ~ In x otherElems ->
                  In (fingerprint hashSum x) (map (fingerprint hashSum) es))
    /\ NoDup (map (fingerprint hashSum) es).
Proof.
  unfold diffWith.
  destruct (mkSetValue_elems hashSum (LodashWith.differenceWith isEqual elems otherElems))
    as (es & E & Hsound & Hcompl & Hnd).
  assert (H : forall x, In x (LodashWith.differenceWith isEqual elems otherElems)
                        <-> In x elems /\ ~ In x otherElems).
  { intros x. unfold LodashWith.differenceWith. rewrite filter_In, negb_true_iff.
    split; intros [H1 H2]; (split; [exact H1 |]).
    - intros Hin. apply existsb_isEqual in Hin. congruence.
    - destruct (existsb (isEqual x) otherElems) eqn:Ex; [| reflexivity].
      apply existsb_isEqual in Ex. contradiction. }
  exists es. split; [exact E |]. split; [| split; [| exact Hnd]].
  - intros x Hx. apply H, Hsound, Hx.
  - intros x Hx Ho. apply Hcompl, H. split; assumption.
Qed.

(** ** Function application, update and composition *)

Lemma findIndex_Some {A : Type} (p : A -> bool) (l : list A) :
  forall i : nat,
    LodashWith.findIndex p l = Some i ->
    exists x, nth_error l i = Some x /\ p x = true
              /\ forall j y, (j < i)%nat -> nth_error l j = Some y -> p y = false.
Proof.
  induction l as [| x l IH]; intros i; cbn [LodashWith.findIndex]; [discriminate |].
  destruct (p x) eqn:E.
  - intros H. injection H as <-. exists x. repeat split; [exact E |]. intros j y Hj. lia.
  - destruct (LodashWith.findIndex p l) as [k |]; [| discriminate].
    intros H. injection H as <-. destruct (IH k eq_refl) as (y & Hy & Hp & Hfirst).
    exists y. repeat split; [exact Hy | exact Hp |].
    intros [| j] z Hj Hz; cbn in Hz; [congruence |].
    apply (Hfirst j); [lia | exact Hz].
Qed.

Lemma findIndex_None {A : Type} (p : A -> bool) (l : list A) :
  LodashWith.findIndex p l = None <-> forall x, In x l -> p x = false.
Proof.
  induction l as [| x l IH]; cbn [LodashWith.findIndex In].
  - split; [intros _ y [] | reflexivity].
  - destruct (p x) eqn:E.
    + split; [discriminate |]. intros H. rewrite (H x) in E; [discriminate | left; reflexivity].
    + destruct (LodashWith.findIndex p l) as [k |].
      * split; [discriminate |]. intros H.
        assert (Hn : Some k = None) by (apply IH; intros y Hy; apply H; right; exact Hy).
        discriminate.
      * split; [| reflexivity]. intros _ y [<- | Hy]; [exact E |].
        apply IH; [reflexivity | exact Hy].
Qed.


Lemma findIndex_app {A : Type} (p : A -> bool) (l l' : list A) :
  LodashWith.findIndex p (l ++ l')
  = match LodashWith.findIndex p l with
    | Some i => Some i
    | None => option_map (fun j => (List.length l + j)%nat) (LodashWith.findIndex p l')
    end.
Proof.
  induction l as [| x l IH]; cbn [app LodashWith.findIndex List.length].
  - destruct (LodashWith.findIndex p l'); reflexivity.
  - destruct (p x); [reflexivity |]. rewrite IH.
    destruct (LodashWith.findIndex p l); [reflexivity |].
    destruct (LodashWith.findIndex p l'); reflexivity.
Qed.

Lemma findIndex_ext {A : Type} (p q : A -> bool) (l : list A) :
  (forall x, p x = q x) -> LodashWith.findIndex p l = LodashWith.findIndex q l.
Proof.
  intros H. induction l as [| x l IH]; cbn [LodashWith.findIndex]; [reflexivity |].
  rewrite H, IH. reflexivity.
Qed.

Lemma argIndex_same_fingerprint (hashSum : JSData -> string) (domain : list TLAValue)
    (a b : TLAValue) :
  fingerprint hashSum a = fingerprint hashSum b ->
  argIndex hashSum domain a = argIndex hashSum domain b.
Proof.
  intros E. unfold argIndex. apply findIndex_ext. intros x. rewrite E. reflexivity.
Qed.

Lemma nth_error_replaceNth_same {A : Type} (l : list A) (i : nat) (x : A) :
  (i < List.length l)%nat -> nth_error (replaceNth i x l) i = Some x.
Proof.
  revert i. induction l as [| y l IH]; intros [| i] H; cbn in *; try lia; [reflexivity |].
  apply IH. lia.
Qed.

Lemma nth_error_replaceNth_other {A : Type} (l : list A) (i j : nat) (x : A) :
  i <> j -> nth_error (replaceNth i x l) j = nth_error l j.
Proof.
  revert i j. induction l as [| y l IH]; intros [| i] [| j] H; cbn; try reflexivity;
    try congruence.
  apply IH. congruence.
Qed.

(** [f.updateWith(arg, newVal)] on an argument that has no equal
    fingerprint in the domain returns the function as it is, with no
    error.  On an argument of the domain, the function returned gives
    [newVal] for every argument with the fingerprint of [arg] and what [f]
    gives for the others. *)
Theorem updateWith_applyArg (hashSum : JSData -> string) (domain values : list TLAValue)
    (isRecord : bool) (arg newVal : TLAValue) :
  (argIndex hashSum domain arg = None ->
   updateWith hashSum (FcnRcdValue domain values isRecord) arg newVal
   = Ok (FcnRcdValue domain values isRecord))
  /\
  (forall idx : nat,
      argIndex hashSum domain arg = Some idx ->
      (idx < List.length values)%nat ->
      exists f' : TLAValue,
        updateWith hashSum (FcnRcdValue domain values isRecord) arg newVal = Ok f'
        /\ forall b : TLAValue,
             applyArg hashSum f' b
             = if String.eqb (fingerprint hashSum b) (fingerprint hashSum arg)
               then Ok (JV newVal)
               else applyArg hashSum (FcnRcdValue domain values isRecord) b).
Proof.
  split.
  - intros H. cbn [updateWith]. rewrite H. reflexivity.
  - intros idx Hidx Hlen. cbn [updateWith]. rewrite Hidx.
    apply Nat.ltb_lt in Hlen. rewrite Hlen. apply Nat.ltb_lt in Hlen.
    eexists. split; [reflexivity |]. intros b. cbn [applyArg].
    destruct (String.eqb (fingerprint hashSum b) (fingerprint hashSum arg)) eqn:E.
    + apply String.eqb_eq in E.
      rewrite (argIndex_same_fingerprint hashSum domain b arg E), Hidx.
      rewrite nth_error_replaceNth_same by exact Hlen. reflexivity.
    + destruct (argIndex hashSum domain b) as [j |] eqn:Ej; [| reflexivity].
      rewrite nth_error_replaceNth_other; [reflexivity |].
      intros <-. unfold argIndex in Hidx, Ej.
      apply findIndex_Some in Hidx. destruct Hidx as (x & Hx & Hpx & _).
      apply findIndex_Some in Ej. destruct Ej as (y & Hy & Hpy & _).
      rewrite Hx in Hy. injection Hy as <-.
      apply String.eqb_eq in Hpx, Hpy. rewrite <- Hpx, Hpy, String.eqb_refl in E.
      discriminate.
Qed.

Lemma applyArg_same_fingerprint (hashSum : JSData -> string) (f a b : TLAValue) :
  fingerprint hashSum a = fingerprint hashSum b ->
  applyArg hashSum f a = applyArg hashSum f b.
Proof.
  intros E. destruct f; try reflexivity. cbn [applyArg].
  rewrite (argIndex_same_fingerprint hashSum _ a b E). reflexivity.
Qed.

Lemma inDomain_argIndex (hashSum : JSData -> string) (domain : list TLAValue) (v : TLAValue) :
  existsb (String.eqb (fingerprint hashSum v)) (map (fingerprint hashSum) domain) = false
  <-> argIndex hashSum domain v = None.
Proof.
  unfold argIndex. rewrite findIndex_None. split.
  - intros H x Hx. destruct (String.eqb (fingerprint hashSum x) (fingerprint hashSum v)) eqn:E;
      [| reflexivity].
    apply String.eqb_eq in E.
    assert (Ht : existsb (String.eqb (fingerprint hashSum v))
                   (map (fingerprint hashSum) domain) = true).
    { apply existsb_exists. exists (fingerprint hashSum x). split; [apply in_map; exact Hx |].
      rewrite E. apply String.eqb_refl. }
    congruence.
  - intros H.
    destruct (existsb (String.eqb (fingerprint hashSum v)) (map (fingerprint hashSum) domain))
      eqn:E; [| reflexivity].
    apply existsb_exists in E. destruct E as (k & Hk & E).
    apply in_map_iff in Hk. destruct Hk as (x & <- & Hx).
    apply String.eqb_eq in E. specialize (H x Hx).
    rewrite E, String.eqb_refl in H. discriminate.
Qed.

Lemma argIndex_bound (hashSum : JSData -> string) (domain : list TLAValue) (v : TLAValue)
    (i : nat) :
  argIndex hashSum domain v = Some i -> (i < List.length domain)%nat.
Proof.
  intros H. apply findIndex_Some in H. destruct H as (x & Hx & _).
  apply nth_error_Some. congruence.
Qed.

Lemma definedValues_map {A : Type} (g : A -> Res JSVal) (l : list A) :
  (forall x, In x l -> exists y, g x = Ok (JV y)) ->
  exists vals : list TLAValue,
    definedValues (map g l) = Ok vals
    /\ List.length vals = List.length l
    /\ forall k x, nth_error l k = Some x ->
                   exists y, nth_error vals k = Some y /\ g x = Ok (JV y).
Proof.
  induction l as [| x l IH]; intros H.
  - exists []. repeat split. intros [| k] x Hx; discriminate.
  - destruct IH as (vals & E & Hlen & Hnth); [intros z Hz; apply H; right; exact Hz |].
    destruct (H x (or_introl eq_refl)) as (y & Hy).
    exists (y :: vals). cbn [map definedValues]. rewrite Hy, E.
    split; [reflexivity |]. split; [cbn; lia |].
    intros [| k] z Hz; cbn in Hz.
    + injection Hz as <-. exists y. split; [reflexivity | exact Hy].
    + apply Hnth. exact Hz.
Qed.

(** [f.compose(g)] of two functions that give a value to each of their
    arguments is a function that does so too, and it is
    [[x \in (DOMAIN f) \cup (DOMAIN g) |-> IF x \in DOMAIN f THEN f[x] ELSE g[x]]]:
    applied to an argument with a fingerprint of the domain of [f] it gives
    what [f] gives, and to any other argument what [g] gives (an error
    when [g] has no such argument). *)
Theorem compose_applyArg (hashSum : JSData -> string)
    (domain values otherDomain otherValues : list TLAValue) (isRecord otherIsRecord : bool) :
  List.length domain = List.length values ->
  List.length otherDomain = List.length otherValues ->
  exists newDomain newRange : list TLAValue,
    compose hashSum (FcnRcdValue domain values isRecord)
                    (FcnRcdValue otherDomain otherValues otherIsRecord)
    = Ok (FcnRcdValue newDomain newRange false)
    /\ List.length newDomain = List.length newRange
    /\ forall arg : TLAValue,
         applyArg hashSum (FcnRcdValue newDomain newRange false) arg
         = match argIndex hashSum domain arg with
           | Some _ => applyArg hashSum (FcnRcdValue domain values isRecord) arg
           | None => applyArg hashSum (FcnRcdValue otherDomain otherValues otherIsRecord) arg
           end.
Proof.
  intros Hlen Hlen'.
  set (f := FcnRcdValue domain values isRecord).
  set (other := FcnRcdValue otherDomain otherValues otherIsRecord).
  set (inThis := fun v : TLAValue =>
                   existsb (String.eqb (fingerprint hashSum v))
                           (map (fingerprint hashSum) domain)).
  set (rest := filter (fun v => negb (inThis v)) otherDomain).
  set (g := fun v : TLAValue => if inThis v then applyArg hashSum f v
                                else applyArg hashSum other v).
  assert (Hdef : forall x, In x (domain ++ rest)%list -> exists y, g x = Ok (JV y)).
  { intros x Hx. unfold g. destruct (inThis x) eqn:Ein.
    - unfold f. cbn [applyArg].
      destruct (argIndex hashSum domain x) as [i |] eqn:Ei.
      + pose proof (argIndex_bound _ _ _ _ Ei) as Hi. rewrite Hlen in Hi.
        apply nth_error_Some in Hi.
        destruct (nth_error values i) as [y |]; [| congruence]. exists y. reflexivity.
      + apply inDomain_argIndex in Ei. unfold inThis in Ein. congruence.
    - apply in_app_iff in Hx. destruct Hx as [Hx | Hx].
      + exfalso. unfold inThis in Ein. apply inDomain_argIndex in Ein.
        unfold argIndex in Ein. rewrite findIndex_None in Ein.
        specialize (Ein x Hx). rewrite String.eqb_refl in Ein. discriminate.
      + unfold rest in Hx. apply filter_In in Hx. destruct Hx as [Hx _].
        unfold other. cbn [applyArg].
        destruct (argIndex hashSum otherDomain x) as [j |] eqn:Ej.
        * pose proof (argIndex_bound _ _ _ _ Ej) as Hj. rewrite Hlen' in Hj.
          apply nth_error_Some in Hj.
          destruct (nth_error otherValues j) as [y |]; [| congruence]. exists y. reflexivity.
        * unfold argIndex in Ej. rewrite findIndex_None in Ej.
          specialize (Ej x Hx). rewrite String.eqb_refl in Ej. discriminate. }
  destruct (definedValues_map g (domain ++ rest)%list Hdef) as (vals & Evals & Hlv & Hnth).
  exists (domain ++ rest)%list, vals.
  split; [| split].
  - change (match definedValues (map g (domain ++ rest)%list) with
            | Ok newRange => Ok (FcnRcdValue (domain ++ rest)%list newRange false)
            | Throw msg => Throw msg
            | Unmodelled => Unmodelled
            | OutOfFuel => OutOfFuel
            end = Ok (FcnRcdValue (domain ++ rest)%list vals false)).
    rewrite Evals. reflexivity.
  - symmetry. exact Hlv.
  - intros arg. cbn [applyArg]. unfold argIndex at 1. rewrite findIndex_app.
    fold (argIndex hashSum domain arg). fold (argIndex hashSum rest arg).
    destruct (argIndex hashSum domain arg) as [i |] eqn:Ei.
    + pose proof Ei as Ei'. unfold argIndex in Ei'. apply findIndex_Some in Ei'.
      destruct Ei' as (x & Hx & Hpx & _). apply String.eqb_eq in Hpx.
      destruct (Hnth i x) as (y & Hy & Hg).
      { rewrite nth_error_app1; [exact Hx |]. apply nth_error_Some. congruence. }
      rewrite Hy. unfold g in Hg.
      assert (Ein : inThis x = true).
      { destruct (inThis x) eqn:E; [reflexivity |].
        unfold inThis in E. apply inDomain_argIndex in E.
        rewrite (argIndex_same_fingerprint hashSum domain x arg Hpx) in E. congruence. }
      rewrite Ein, (applyArg_same_fingerprint hashSum f x arg Hpx) in Hg.
      symmetry. exact Hg.
    + destruct (argIndex hashSum rest arg) as [j |] eqn:Ej; cbn [option_map].
      * pose proof Ej as Ej'. unfold argIndex in Ej'. apply findIndex_Some in Ej'.
        destruct Ej' as (x & Hx & Hpx & _). apply String.eqb_eq in Hpx.
        destruct (Hnth (List.length domain + j)%nat x) as (y & Hy & Hg).
        { rewrite nth_error_app2 by lia.
          replace (List.length domain + j - List.length domain)%nat with j by lia. exact Hx. }
        rewrite Hy. unfold g in Hg.
        assert (Ein : inThis x = false).
        { unfold inThis. apply inDomain_argIndex.
          rewrite (argIndex_same_fingerprint hashSum domain x arg Hpx). exact Ei. }
        rewrite Ein, (applyArg_same_fingerprint hashSum other x arg Hpx) in Hg.
        symmetry. exact Hg.
      * assert (Eo : argIndex hashSum otherDomain arg = None).
        { unfold argIndex. apply findIndex_None. intros x Hx.
          destruct (String.eqb (fingerprint hashSum x) (fingerprint hashSum arg)) eqn:E;
            [| reflexivity].
          apply String.eqb_eq in E.
          unfold argIndex in Ej. rewrite findIndex_None in Ej.
          rewrite <- (Ej x); [rewrite E; symmetry; apply String.eqb_refl |].
          unfold rest. apply filter_In. split; [exact Hx |].
          apply negb_true_iff. unfold inThis. apply inDomain_argIndex.
          rewrite (argIndex_same_fingerprint hashSum domain x arg E). exact Ei. }
        unfold other. cbn [applyArg]. rewrite Eo. reflexivity.
Qed.

Lemma compose_applyArg_witness :
  exists newDomain newRange : list TLAValue,
    compose renderData
      (FcnRcdValue [IntValue 1] [StringValue "a"] false)
      (FcnRcdValue [IntValue 1; IntValue 2] [StringValue "b"; StringValue "c"] false)
    = Ok (FcnRcdValue newDomain newRange false)
    /\ List.length newDomain = List.length newRange
    /\ forall arg : TLAValue,
         applyArg renderData (FcnRcdValue newDomain newRange false) arg
         = match argIndex renderData [IntValue 1] arg with
           | Some _ => applyArg renderData (FcnRcdValue [IntValue 1] [StringValue "a"] false) arg
           | None =>
               applyArg renderData
                 (FcnRcdValue [IntValue 1; IntValue 2] [StringValue "b"; StringValue "c"] false)
                 arg
           end.
Proof.
  exact (compose_applyArg renderData [IntValue 1] [StringValue "a"]
           [IntValue 1; IntValue 2] [StringValue "b"; StringValue "c"] false false
           eq_refl eq_refl).
Defined.

(** ** Nested application and update of functions *)

Lemma nth_error_app_last {A : Type} (l : list A) (x : A) :
  nth_error (l ++ [x]) (List.length l) = Some x.
Proof. rewrite nth_error_app2 by lia. rewrite Nat.sub_diag. reflexivity. Qed.

(** After [f.updateWithPath(args, newVal)] has returned [f'],
    [f'.applyPathArg(args)] is [newVal]. *)
Theorem updateWithPath_applyPathArg (hashSum : JSData -> string) (args : list TLAValue) :
  forall (f f' newVal : TLAValue),
    updateWithPath hashSum f args newVal = Ok f' ->
    applyPathArg hashSum f' args = Ok (JV newVal).
Proof.
  induction args as [| arg rest IH]; intros f f' newVal H; [discriminate |].
  cbn [updateWithPath] in H. destruct f as [| | | | | domain values isRecord]; try discriminate.
  destruct rest as [| arg2 rest].
  - destruct (argIndex hashSum domain arg) as [idx |] eqn:Ei; [| discriminate].
    unfold assignIndex in H.
    destruct (idx <? List.length values)%nat eqn:Elt.
    + injection H as <-. cbn [applyPathArg applyArg]. rewrite Ei.
      apply Nat.ltb_lt in Elt. rewrite (nth_error_replaceNth_same values idx newVal Elt).
      reflexivity.
    + destruct (idx =? List.length values)%nat eqn:Eeq; [| discriminate].
      injection H as <-. cbn [applyPathArg applyArg]. rewrite Ei.
      apply Nat.eqb_eq in Eeq. subst idx. rewrite nth_error_app_last. reflexivity.
  - destruct (argIndex hashSum domain arg) as [idx |] eqn:Ei; [| discriminate].
    destruct (nth_error values idx) as [inner |] eqn:En; [| discriminate].
    destruct (updateWithPath hashSum inner (arg2 :: rest) newVal) as [inner' | | |] eqn:Eu;
      try discriminate.
    injection H as <-.
    change (applyPathArg hashSum (FcnRcdValue domain (replaceNth idx inner' values) isRecord)
              (arg :: arg2 :: rest))
      with (match applyArg hashSum (FcnRcdValue domain (replaceNth idx inner' values) isRecord)
                    arg with
            | Ok (JV fApplied) => applyPathArg hashSum fApplied (arg2 :: rest)
            | Ok _ => Throw TypeError
            | Throw msg => Throw msg
            | Unmodelled => Unmodelled
            | OutOfFuel => OutOfFuel
            end).
    cbn [applyArg]. rewrite Ei.
    assert (Hlt : (idx < List.length values)%nat) by (apply nth_error_Some; congruence).
    rewrite (nth_error_replaceNth_same values idx inner' Hlt).
    apply (IH inner inner' newVal Eu).
Qed.

Lemma updateWithPath_applyPathArg_witness :
  exists f' : TLAValue,
    updateWithPath renderData nestedRecord [StringValue "a"; StringValue "b"] (IntValue 2)
    = Ok f'
    /\ applyPathArg renderData f' [StringValue "a"; StringValue "b"] = Ok (JV (IntValue 2)).
Proof.
  eexists.
  eassert (H : updateWithPath renderData nestedRecord [StringValue "a"; StringValue "b"]
                 (IntValue 2) = Ok _).
  { vm_compute. reflexivity. }
  split; [exact H |].
  exact (updateWithPath_applyPathArg renderData _ _ _ _ H).
Defined.

(** ** States: updating a variable *)

(** [withVarVal] keeps the variables of the state and their order, gives
    the new value to the variable named, and leaves the others as they
    are; on a name the state does not hold it returns the state as it is,
    it never adds a variable. *)
Theorem withVarVal_lookup (st : TLAState) (varName : string) (newVal : JSVal) :
  obj_keys (withVarVal st varName newVal) = obj_keys st
  /\ (forall k : string,
         getVarVal (withVarVal st varName newVal) k
         = if String.eqb k varName && obj_has st varName then newVal else getVarVal st k)
  /\ (obj_has st varName = false -> withVarVal st varName newVal = st).
Proof.
  unfold withVarVal, Lodash.mapValues, obj_keys, getVarVal, obj_has.
  split; [| split].
  - rewrite map_map. reflexivity.
  - intros k. induction st as [| [k' v'] st IH]; cbn [map obj_get fst snd].
    + rewrite andb_false_r. reflexivity.
    + destruct (String.eqb_spec k' k) as [-> | N1].
      * destruct (String.eqb_spec k varName) as [E2 | N2]; reflexivity.
      * rewrite IH. destruct (String.eqb_spec k varName) as [<- | N2]; [| reflexivity].
        destruct (String.eqb_spec k' k) as [E3 | N3]; [contradiction | reflexivity].
  - induction st as [| [k' v'] st IH]; cbn [map obj_get fst snd]; [reflexivity |].
    destruct (String.eqb k' varName) eqn:E; [discriminate |].
    intros H. rewrite (IH H). reflexivity.
Qed.

(** ** Conjunction lists stop at FALSE *)

Lemma foldM_app {A B : Type} (f : B -> A -> M B) (l l' : list A) (b : B) (s : Store) :
  foldM f (l ++ l') b s = bind (foldM f l b) (foldM f l') s.
Proof.
  revert b s. induction l as [| x l IH]; intros b s; cbn [app foldM].
  - unfold bind, ret. reflexivity.
  - unfold bind. destruct (f b x s) as [[b' s'] | | |]; try reflexivity.
    rewrite IH. unfold bind. reflexivity.
Qed.

Lemma conj_step_allFalse (ev : Node -> loc -> M RetVal) (conj : Node) (s : Store)
    (ls : list loc) :
  allFalse s ls ->
  mapM (fun ctxPrev =>
          bind (valOf ctxPrev) (fun pv =>
          bind (callGetVal pv) (fun p =>
          match p with
          | PBool false => ret [ctxPrev]
          | _ =>
              bind (ev conj ctxPrev) (fun r =>
              match r with
              | None => throw TypeError
              | Some cs =>
                  mapM (fun ctxCurr =>
                          bind (valOf ctxCurr) (fun cv =>
                          bind (valOf ctxPrev) (fun pv' =>
                          bind (callAnd cv pv') (fun conjVal =>
                          withVal ctxCurr conjVal)))) cs
              end)
          end))) ls s
  = Ok (map (fun l => [l]) ls, s).
Proof.
  intros H. apply mapM_pure. eapply Forall_impl; [| exact H].
  intros l (c & Hc & Hv). cbv beta.
  unfold valOf. rewrite (bind_ok _ _ _ _ _ (bind_ok _ _ _ _ _ (getCtx_run _ _ _ Hc))).
  unfold ret at 1. rewrite Hv. cbn [callGetVal getVal lift].
  rewrite (bind_ok _ _ s s (PBool false)) by reflexivity. reflexivity.
Qed.

Lemma concat_singletons {A : Type} (l : list A) : List.concat (map (fun x => [x]) l) = l.
Proof. induction l as [| x l IH]; [reflexivity |]. cbn. rewrite IH. reflexivity. Qed.

(** When the conjuncts [pre] leave the value FALSE on every branch, the
    conjuncts that follow them in the list are not evaluated: the list
    [pre ++ rest] gives the branches and the store that [pre] alone gives,
    whatever [rest] holds. *)
Theorem evalConjList_short_circuit (ev : Node -> loc -> M RetVal) (parent : Node)
    (pre rest : list Node) (ctx : loc) (s s' : Store) (ls : list loc) :
  evalConjList ev parent pre ctx s = Ok (Some ls, s') ->
  allFalse s' ls ->
  evalConjList ev parent (pre ++ rest) ctx s = Ok (Some ls, s').
Proof.
  unfold evalConjList. intros Hpre Hfalse.
  unfold bind at 1. unfold bind at 1 in Hpre.
  destruct (getCtx ctx s) as [[c s0] | | |]; try discriminate.
  unfold bind at 1. unfold bind at 1 in Hpre.
  destruct ((if isNull (val c) then putCtx ctx (setVal c (JV (BoolValue true))) else ret tt) s0)
    as [[u s1] | | |]; try discriminate.
  rewrite filter_app.
  unfold bind at 1. unfold bind at 1 in Hpre.
  rewrite foldM_app.
  match type of Hpre with
  | match ?m with _ => _ end = _ => destruct m as [[res s2] | | |] eqn:E; try discriminate
  end.
  unfold ret in Hpre. injection Hpre as -> ->.
  rewrite (bind_ok _ _ _ _ _ E).
  assert (Hrest : forall l : list Node,
             foldM (fun prev conj =>
                      bind (mapM (fun ctxPrev =>
                              bind (valOf ctxPrev) (fun pv =>
                              bind (callGetVal pv) (fun p =>
                              match p with
                              | PBool false => ret [ctxPrev]
                              | _ =>
                                  bind (ev conj ctxPrev) (fun r =>
                                  match r with
                                  | None => throw TypeError
                                  | Some cs =>
                                      mapM (fun ctxCurr =>
                                              bind (valOf ctxCurr) (fun cv =>
                                              bind (valOf ctxPrev) (fun pv' =>
                                              bind (callAnd cv pv') (fun conjVal =>
                                              withVal ctxCurr conjVal)))) cs
                                  end)
                              end))) prev)
                           (fun res => ret (List.concat res)))
                   l ls s' = Ok (ls, s')).
  { induction l as [| conj l IH]; [reflexivity |].
    cbn [foldM].
    rewrite (bind_ok _ _ _ _ _ (bind_ok _ _ _ _ _ (conj_step_allFalse ev conj s' ls Hfalse))).
    unfold ret at 1. rewrite concat_singletons. exact IH. }
  rewrite Hrest. reflexivity.
Qed.

Lemma evalConjList_short_circuit_witness :
  exists (s' : Store) (ls : list loc),
    evalConjList (evalExpr renderData 2) (conj_list []) conjFalse 0%nat storeX0
    = Ok (Some ls, s')
    /\ allFalse s' ls
    /\ evalConjList (evalExpr renderData 2) (conj_list []) (conjFalse ++ conjUnbound)
         0%nat storeX0
       = Ok (Some ls, s').
Proof.
  eexists. eexists.
  eassert (Hpre : evalConjList (evalExpr renderData 2) (conj_list []) conjFalse 0%nat storeX0
                  = Ok (Some _, _)).
  { vm_compute. reflexivity. }
  match type of Hpre with
  | _ = Ok (Some ?l, ?s) => assert (Hf : allFalse s l)
  end.
  { repeat constructor. eexists. split; vm_compute; reflexivity. }
  split; [exact Hpre |]. split; [exact Hf |].
  exact (evalConjList_short_circuit (evalExpr renderData 2) (conj_list []) conjFalse
           conjUnbound 0%nat storeX0 _ _ Hpre Hf).
Defined.

(** ** Quantifiers over the empty set *)

(** Over a domain that evaluates to the empty set, [\A x \in D : e] is
    TRUE and [\E x \in D : e] is FALSE, on one copy of the caller's
    context; the body [e] is not evaluated. *)
Theorem evalBoundedQuantification_empty_domain (ev : Node -> loc -> M RetVal)
    (q qText x : string) (dom e : Node) (ctx : loc) (s s1 : Store) (c1 cd : Context)
    (rd : loc) (restd : list loc) :
  q = "exists" \/ q = "forall" ->
  isNamed dom = true ->
  typeIs dom "identifier" = false ->
  isNamed e = true ->
  typeIs e "quantifier_bound" = false ->
  ev (withField "set" dom) ctx s = Ok (Some (rd :: restd), s1) ->
  nth_error (heap s1) rd = Some cd ->
  val cd = JV (SetValue []) ->
  nth_error (heap s1) ctx = Some c1 ->
  evalBoundedQuantification ev (bounded_quantification q qText x dom e) ctx s
  = Ok (Some [List.length (heap s1)],
        storeWith s1 (setVal (cloned c1) (JV (BoolValue (String.eqb q "forall"))))).
Proof.
  intros Hq Hnd Htd Hne Hte Hdom Hrd Hval Hc1.
  destruct dom as [td xd nd fd cd']. destruct e as [te xe ne fe ce].
  cbn [isNamed] in Hnd, Hne. subst nd ne.
  unfold typeIs in Hte, Htd. cbn [type] in Hte, Htd.
  cbn [withField] in Hdom.
  destruct Hq as [-> | ->].
  - unfold evalBoundedQuantification.
    cbn [namedChildren bounded_quantification children filter isNamed withField leaf anon
         quantifier_bound identifier typeIs type String.eqb Ascii.eqb Bool.eqb andb].
    rewrite Hte, Htd. cbn [List.length Nat.eqb assert].
    rewrite (bind_ok _ _ s s tt) by reflexivity.
    rewrite (bind_ok _ _ s s tt) by reflexivity.
    cbn [nth_error orb skipQuantBounds tl typeIs type String.eqb Ascii.eqb Bool.eqb assert].
    rewrite (bind_ok _ _ s s tt) by reflexivity.
    rewrite Hte.
    unfold lastNamedChild.
    cbn [namedChildren children filter isNamed map last evalOpt].
    rewrite (bind_ok _ _ _ _ _ Hdom).
    rewrite (bind_ok _ _ _ _ _ (firstVal_run rd restd s1 cd Hrd)).
    rewrite Hval. cbn [instanceofSet assert].
    rewrite (bind_ok _ _ s1 s1 tt) by reflexivity.
    cbn [filter typeIs type String.eqb Ascii.eqb Bool.eqb text List.length Nat.eqb
         isNamed identifier leaf].
    apply (retWithVal_run ctx _ s1 c1 Hc1).
  - unfold evalBoundedQuantification.
    cbn [namedChildren bounded_quantification children filter isNamed withField leaf anon
         quantifier_bound identifier typeIs type String.eqb Ascii.eqb Bool.eqb andb].
    rewrite Hte, Htd. cbn [List.length Nat.eqb assert].
    rewrite (bind_ok _ _ s s tt) by reflexivity.
    rewrite (bind_ok _ _ s s tt) by reflexivity.
    cbn [nth_error orb skipQuantBounds tl typeIs type String.eqb Ascii.eqb Bool.eqb assert].
    rewrite (bind_ok _ _ s s tt) by reflexivity.
    rewrite Hte.
    unfold lastNamedChild.
    cbn [namedChildren children filter isNamed map last evalOpt].
    rewrite (bind_ok _ _ _ _ _ Hdom).
    rewrite (bind_ok _ _ _ _ _ (firstVal_run rd restd s1 cd Hrd)).
    rewrite Hval. cbn [instanceofSet assert].
    rewrite (bind_ok _ _ s1 s1 tt) by reflexivity.
    cbn [filter typeIs type String.eqb Ascii.eqb Bool.eqb text List.length Nat.eqb
         isNamed identifier leaf].
    apply (retWithVal_run ctx _ s1 c1 Hc1).
Qed.

Lemma evalBoundedQuantification_empty_domain_witness :
  evalBoundedQuantification (evalExpr renderData 2)
    (bounded_quantification "forall" "\A" "v" (finite_set_literal [])
       (identifier_ref "foo")) 0%nat storeX0
  = Ok (Some [2%nat],
        storeWith (storeWith storeX0 (setVal (cloned parentX0) (JV (SetValue []))))
          (setVal (cloned parentX0) (JV (BoolValue true)))).
Proof.
  apply (evalBoundedQuantification_empty_domain (evalExpr renderData 2)
           "forall" "\A" "v" (finite_set_literal []) (identifier_ref "foo") 0%nat storeX0
           (storeWith storeX0 (setVal (cloned parentX0) (JV (SetValue []))))
           parentX0 (setVal (cloned parentX0) (JV (SetValue []))) 1%nat []);
    try reflexivity.
  right. reflexivity.
Defined.

(** ** Conjunction *)

Lemma mapM_one {A B : Type} (f : A -> M B) (x : A) (s s' : Store) (y : B) :
  f x s = Ok (y, s') -> mapM f [x] s = Ok ([y], s').
Proof. intros H. cbn [mapM]. unfold bind. rewrite H. reflexivity. Qed.

(** [lhs /\ rhs], when [lhs] gives one branch and [rhs], evaluated on that
    branch, gives one branch: [rhs] is evaluated also when [lhs] is FALSE,
    and the result is one copy of the branch of [rhs] that holds the
    conjunction of the two values and the state [rhs] left. *)
Theorem evalLand_threads_state (ev : Node -> loc -> M RetVal) (lhs rhs : Node) (ctx : loc)
    (s s1 s2 : Store) (l r : loc) (cl cr : Context) (a b : bool) :
  ev lhs ctx s = Ok (Some [l], s1) ->
  ev rhs l s1 = Ok (Some [r], s2) ->
  nth_error (heap s2) l = Some cl ->
  val cl = JV (BoolValue a) ->
  nth_error (heap s2) r = Some cr ->
  val cr = JV (BoolValue b) ->
  evalLand ev lhs rhs ctx s
  = Ok (Some [List.length (heap s2)],
        storeWith s2 (setState (setVal (cloned cr) (JV (BoolValue (a && b)))) (state cr))).
Proof.
  intros Hl Hr Hcl Hvl Hcr Hvr. unfold evalLand.
  rewrite (bind_ok _ _ _ _ _ Hl).
  assert (Hand : callAnd (JV (BoolValue a)) (JV (BoolValue b)) s2
                 = Ok (JV (BoolValue (a && b)), s2)).
  { destruct a; reflexivity. }
  assert (Hone : (lv <- valOf l ;; av <- valOf r ;; bv <- callAnd lv av ;;
                  st <- stateOf r ;; withValAndState r bv st) s2
                 = Ok (List.length (heap s2),
                       storeWith s2 (setState (setVal (cloned cr) (JV (BoolValue (a && b))))
                                       (state cr)))).
  { unfold valOf, stateOf.
    rewrite (bind_ok _ _ _ _ _ (bind_ok _ _ _ _ _ (getCtx_run _ _ _ Hcl))).
    rewrite (bind_ok _ _ _ _ _ (bind_ok _ _ _ _ _ (getCtx_run _ _ _ Hcr))).
    rewrite Hvl, Hvr.
    rewrite (bind_ok _ _ _ _ _ Hand).
    rewrite (bind_ok _ _ _ _ _ (bind_ok _ _ _ _ _ (getCtx_run _ _ _ Hcr))).
    apply (withValAndState_run r _ _ s2 cr Hcr). }
  match goal with
  | |- bind (mapM ?f [l]) _ _ = _ =>
      assert (HF : f l s1
                   = Ok ([List.length (heap s2)],
                         storeWith s2 (setState (setVal (cloned cr) (JV (BoolValue (a && b))))
                                         (state cr))));
      [| rewrite (bind_ok _ _ _ _ _ (mapM_one f l s1 _ _ HF)); reflexivity]
  end.
  cbv beta. rewrite (bind_ok _ _ _ _ _ Hr).
  apply mapM_one. exact Hone.
Qed.

Lemma evalLand_threads_state_witness :
  exists (s2 : Store) (cr : Context),
    evalLand (evalExpr renderData 3)
      (eq (primedVar "x") (nat_number "1")) (eq (primedVar "x") (nat_number "2"))
      0%nat storeX0
    = Ok (Some [List.length (heap s2)],
          storeWith s2
            (setState (setVal (cloned cr) (JV (BoolValue (true && false)))) (state cr)))
    /\ state cr = [("x", JV (IntValue 0)); ("x'", JV (IntValue 1))].
Proof.
  eexists. eexists. split.
  - eapply (evalLand_threads_state (evalExpr renderData 3)
              (eq (primedVar "x") (nat_number "1")) (eq (primedVar "x") (nat_number "2"))
              0%nat storeX0 _ _ _ _ _ _ true false).
    + vm_compute. reflexivity.
    + vm_compute. reflexivity.
    + vm_compute. reflexivity.
    + reflexivity.
    + vm_compute. reflexivity.
    + reflexivity.
  - reflexivity.
Defined.

(** ** The variables of the states of an evaluation *)

Section KeepsVariables.

Variable base : nat.
Variable vars : list string.


Lemma keeps_ret {A : Type} (a : A) (Q : A -> Prop) : Q a -> keeps base vars (ret a) Q.
Proof. intros H s a' s' Hs E. injection E as <- <-. split; assumption. Qed.

Lemma keeps_bind {A B : Type} (m : M A) (k : A -> M B) (Q : A -> Prop) (R : B -> Prop) :
  keeps base vars m Q -> (forall a, Q a -> keeps base vars (k a) R) -> keeps base vars (bind m k) R.
Proof.
  intros Hm Hk s b s' Hs E. unfold bind in E.
  destruct (m s) as [[a s1] | | |] eqn:Em; try discriminate.
  destruct (Hm s a s1 Hs Em) as [Hs1 Ha].
  exact (Hk a Ha s1 b s' Hs1 E).
Qed.

Lemma keeps_weaken {A : Type} (m : M A) (Q R : A -> Prop) :
  keeps base vars m Q -> (forall a, Q a -> R a) -> keeps base vars m R.
Proof.
  intros Hm H s a s' Hs E. destruct (Hm s a s' Hs E) as [Hs' Ha].
  split; [exact Hs' | apply H; exact Ha].
Qed.

Lemma keeps_throw {A : Type} (msg : string) (Q : A -> Prop) : keeps base vars (throw msg) Q.
Proof. intros s a s' _ E. discriminate. Qed.

Lemma keeps_unmodelled {A : Type} (Q : A -> Prop) : keeps base vars unmodelled Q.
Proof. intros s a s' _ E. discriminate. Qed.

Lemma keeps_outOfFuel {A : Type} (Q : A -> Prop) : keeps base vars outOfFuel Q.
Proof. intros s a s' _ E. discriminate. Qed.

Lemma keeps_pure {A : Type} (m : M A) :
  (forall s a s', m s = Ok (a, s') -> s' = s) -> keeps base vars m (fun _ => True).
Proof. intros H s a s' Hs E. rewrite (H s a s' E). split; [exact Hs | exact I]. Qed.

Lemma keeps_assert (b : bool) : keeps base vars (assert b) (fun _ => b = true).
Proof.
  intros s a s' Hs E. unfold assert in E. destruct b; [| discriminate].
  injection E as _ <-. split; [exact Hs | reflexivity].
Qed.

Lemma keeps_lift {A : Type} (r : Res A) : keeps base vars (lift r) (fun a => r = Ok a).
Proof.
  intros s a s' Hs E. unfold lift in E. destruct r; try discriminate.
  injection E as <- <-. split; [exact Hs | reflexivity].
Qed.

Lemma keeps_getCtx (l : loc) :
  (base <= l)%nat -> keeps base vars (getCtx l) (fun c => obj_keys (state c) = vars).
Proof.
  intros Hl s c s' Hs E. unfold getCtx in E.
  destruct (nth_error (heap s) l) as [c' |] eqn:En; [| discriminate].
  injection E as <- <-. split; [exact Hs |]. exact (proj2 Hs l c' Hl En).
Qed.

Lemma keeps_alloc (c : Context) :
  obj_keys (state c) = vars -> keeps base vars (alloc c) (fun l => (base <= l)%nat).
Proof.
  intros Hc s l s' [Hb Hs] E. unfold alloc in E. injection E as <- <-.
  split; [| exact Hb]. split; cbn [heap].
  - rewrite length_app. lia.
  - intros l c' Hl En.
    destruct (Nat.lt_ge_cases l (List.length (heap s))) as [Hlt | Hge].
    + rewrite nth_error_app1 in En by exact Hlt. exact (Hs l c' Hl En).
    + rewrite nth_error_app2 in En by exact Hge.
      destruct (l - List.length (heap s))%nat as [| n]; cbn in En.
      * injection En as <-. exact Hc.
      * destruct n; discriminate.
Qed.

Lemma nth_error_replaceNth {A : Type} (l : list A) (i j : nat) (x y : A) :
  nth_error (replaceNth i x l) j = Some y -> y = x \/ nth_error l j = Some y.
Proof.
  revert i j. induction l as [| z l IH]; intros [| i] [| j] H; cbn in H; try discriminate.
  - injection H as <-. left. reflexivity.
  - right. exact H.
  - right. exact H.
  - apply IH in H. exact H.
Qed.

Lemma length_replaceNth {A : Type} (l : list A) (i : nat) (x : A) :
  List.length (replaceNth i x l) = List.length l.
Proof.
  revert i. induction l as [| z l IH]; intros [| i]; cbn; try reflexivity.
  rewrite IH. reflexivity.
Qed.

Lemma keeps_putCtx (l : loc) (c : Context) :
  obj_keys (state c) = vars -> keeps base vars (putCtx l c) (fun _ => True).
Proof.
  intros Hc s u s' [Hb Hs] E. unfold putCtx in E. injection E as _ <-.
  split; [| exact I]. split; cbn [heap].
  - rewrite length_replaceNth. exact Hb.
  - intros l' c' Hl En. apply nth_error_replaceNth in En.
    destruct En as [-> | En]; [exact Hc | exact (Hs l' c' Hl En)].
Qed.

Lemma keeps_getAssignPrimed : keeps base vars getAssignPrimed (fun _ => True).
Proof. apply keeps_pure. intros s a s' E. injection E as _ <-. reflexivity. Qed.

Lemma keeps_mapM {A B : Type} (f : A -> M B) (R : A -> B -> Prop) (l : list A) :
  (forall x, In x l -> keeps base vars (f x) (R x)) ->
  keeps base vars (mapM f l) (fun ys => Forall2 R l ys).
Proof.
  induction l as [| x l IH]; intros H; cbn [mapM].
  - apply keeps_ret. constructor.
  - eapply keeps_bind; [apply H; left; reflexivity |]. intros y Hy.
    eapply keeps_bind; [apply IH; intros z Hz; apply H; right; exact Hz |].
    intros ys Hys. apply keeps_ret. constructor; assumption.
Qed.

Lemma keeps_mapM_all {A B : Type} (f : A -> M B) (Q : B -> Prop) (l : list A) :
  (forall x, In x l -> keeps base vars (f x) Q) -> keeps base vars (mapM f l) (Forall Q).
Proof.
  intros H. eapply keeps_weaken; [apply (keeps_mapM f (fun _ => Q)); exact H |].
  intros ys Hys. cbv beta in Hys. clear H. induction Hys; constructor; assumption.
Qed.

Lemma keeps_foldM {A B : Type} (f : B -> A -> M B) (I : B -> Prop) (l : list A) (b : B) :
  I b -> (forall b x, I b -> keeps base vars (f b x) I) -> keeps base vars (foldM f l b) I.
Proof.
  revert b. induction l as [| x l IH]; intros b Hb H; cbn [foldM].
  - apply keeps_ret. exact Hb.
  - eapply keeps_bind; [apply H; exact Hb |]. intros b' Hb'. apply IH; assumption.
Qed.

(** The methods of [Context]. *)
Lemma keeps_clone (ctx : loc) :
  (base <= ctx)%nat -> keeps base vars (clone ctx) (fun l => (base <= l)%nat).
Proof.
  intros H. unfold clone. eapply keeps_bind; [apply keeps_getCtx; exact H |].
  intros c Hc. apply keeps_alloc. exact Hc.
Qed.

Lemma keeps_withVal (ctx : loc) (v : JSVal) :
  (base <= ctx)%nat -> keeps base vars (withVal ctx v) (fun l => (base <= l)%nat).
Proof.
  intros H. unfold withVal. eapply keeps_bind; [apply keeps_getCtx; exact H |].
  intros c Hc. apply keeps_alloc. exact Hc.
Qed.

Lemma keeps_withValAndState (ctx : loc) (v : JSVal) (st : TLAState) :
  (base <= ctx)%nat -> obj_keys st = vars ->
  keeps base vars (withValAndState ctx v st) (fun l => (base <= l)%nat).
Proof.
  intros H Hst. unfold withValAndState. eapply keeps_bind; [apply keeps_getCtx; exact H |].
  intros c Hc. apply keeps_alloc. exact Hst.
Qed.

Lemma keeps_withBoundVar (ctx : loc) (name : string) (v : JSVal) :
  (base <= ctx)%nat -> keeps base vars (withBoundVar ctx name v) (fun l => (base <= l)%nat).
Proof.
  intros H. unfold withBoundVar. eapply keeps_bind; [apply keeps_getCtx; exact H |].
  intros c Hc. destruct (String.eqb name "__proto__"); [apply keeps_unmodelled |].
  apply keeps_alloc. exact Hc.
Qed.

Lemma keeps_withPrimed (ctx : loc) :
  (base <= ctx)%nat -> keeps base vars (withPrimed ctx) (fun l => (base <= l)%nat).
Proof.
  intros H. unfold withPrimed. eapply keeps_bind; [apply keeps_getCtx; exact H |].
  intros c Hc. apply keeps_alloc. exact Hc.
Qed.

Lemma keeps_retWithVal (ctx : loc) (v : JSVal) :
  (base <= ctx)%nat -> keeps base vars (retWithVal ctx v) (fromBase base).
Proof.
  intros H. unfold retWithVal. eapply keeps_bind; [apply keeps_withVal; exact H |].
  intros l Hl. apply keeps_ret. cbn. constructor; [exact Hl | constructor].
Qed.

Lemma keeps_valOf (l : loc) : (base <= l)%nat -> keeps base vars (valOf l) (fun _ => True).
Proof.
  intros H. unfold valOf. eapply keeps_bind; [apply keeps_getCtx; exact H |].
  intros c _. apply keeps_ret. exact I.
Qed.

Lemma keeps_stateOf (l : loc) :
  (base <= l)%nat -> keeps base vars (stateOf l) (fun st => obj_keys st = vars).
Proof.
  intros H. unfold stateOf. eapply keeps_bind; [apply keeps_getCtx; exact H |].
  intros c Hc. apply keeps_ret. exact Hc.
Qed.

Lemma keeps_firstVal (r : RetVal) : (fromBase base) r -> keeps base vars (firstVal r) (fun _ => True).
Proof.
  intros H. unfold firstVal. destruct r as [[| l ls] |]; try apply keeps_throw.
  cbn in H. inversion H; subst.
  eapply keeps_bind; [apply keeps_getCtx; assumption |].
  intros c _. apply keeps_ret. exact I.
Qed.

Lemma keeps_singleVal (r : RetVal) : (fromBase base) r -> keeps base vars (singleVal r) (fun _ => True).
Proof.
  intros H. unfold singleVal. destruct r as [ls |]; [| apply keeps_throw].
  eapply keeps_bind; [apply keeps_assert |]. intros _ _. apply keeps_firstVal. exact H.
Qed.

Lemma keeps_callGetVal (v : JSVal) : keeps base vars (callGetVal v) (fun _ => True).
Proof.
  unfold callGetVal. destruct v; try apply keeps_throw.
  eapply keeps_weaken; [apply keeps_lift | intros; exact I].
Qed.

Lemma keeps_callAnd (a b : JSVal) : keeps base vars (callAnd a b) (fun _ => True).
Proof.
  unfold callAnd. destruct a as [| | [n | [|] | s | es | es | d v r]]; try apply keeps_throw.
  - eapply keeps_bind; [apply keeps_callGetVal |]. intros p _.
    destruct p; try apply keeps_unmodelled. apply keeps_ret. exact I.
  - apply keeps_ret. exact I.
Qed.

Lemma keeps_toNumber (p : Prim) : keeps base vars (toNumber p) (fun _ => True).
Proof.
  unfold toNumber. destruct p; try apply keeps_unmodelled; apply keeps_ret; exact I.
Qed.

Lemma keeps_callFingerprint (hashSum : JSData -> string) (v : JSVal) :
  keeps base vars (callFingerprint hashSum v) (fun _ => True).
Proof.
  unfold callFingerprint. destruct v; try apply keeps_throw. apply keeps_ret. exact I.
Qed.

Lemma keeps_newSetValue (hashSum : JSData -> string) (vals : list JSVal) :
  keeps base vars (newSetValue hashSum vals) (fun _ => True).
Proof.
  unfold newSetValue. destruct (allSome (map unJV vals)); [apply keeps_ret; exact I |].
  apply keeps_throw.
Qed.

Lemma keeps_newTupleValue (vals : list JSVal) : keeps base vars (newTupleValue vals) (fun _ => True).
Proof.
  unfold newTupleValue. destruct (allSome (map unJV vals)); [apply keeps_ret; exact I |].
  apply keeps_unmodelled.
Qed.

Lemma keeps_callGetElems (v : JSVal) : keeps base vars (callGetElems v) (fun _ => True).
Proof.
  unfold callGetElems.
  destruct v as [| | [n | b | s | es | es | d v r]]; try apply keeps_throw;
    apply keeps_ret; exact I.
Qed.


Lemma allSome_Some_in {A : Type} (l : list (option A)) (xs : list A) :
  allSome l = Some xs -> forall x, In x xs -> In (Some x) l.
Proof.
  revert xs. induction l as [| [y |] l IH]; intros xs H x Hx; cbn [allSome] in H.
  - injection H as <-. destruct Hx.
  - destruct (allSome l) as [ys |]; [| discriminate]. cbn in H. injection H as <-.
    destruct Hx as [<- | Hx]; [left; reflexivity | right; apply (IH ys eq_refl); exact Hx].
  - discriminate.
Qed.

Lemma allSome_fromBase (cs : list (option loc)) (ls : list loc) :
  (forall l, In (Some l) cs -> (base <= l)%nat) ->
  allSome cs = Some ls -> Forall (fun l => (base <= l)%nat) ls.
Proof.
  intros H E. apply Forall_forall. intros l Hl. apply H.
  apply (allSome_Some_in cs ls E). exact Hl.
Qed.

Lemma flattenDeep_fromBase (rs : list RetVal) :
  Forall (fromBase base) rs -> forall l, In (Some l) (flattenDeep rs) -> (base <= l)%nat.
Proof.
  intros H l Hl. unfold flattenDeep in Hl. apply in_flat_map in Hl.
  destruct Hl as (r & Hr & Hl). rewrite Forall_forall in H. specialize (H r Hr).
  destruct r as [ls |].
  - apply in_map_iff in Hl. destruct Hl as (l' & E & Hl'). injection E as ->.
    cbn in H. rewrite Forall_forall in H. apply H. exact Hl'.
  - destruct Hl as [E | []]. discriminate.
Qed.

Lemma concat_fromBase (lss : list (list loc)) :
  Forall (Forall (fun l => (base <= l)%nat)) lss ->
  Forall (fun l => (base <= l)%nat) (List.concat lss).
Proof.
  induction 1 as [| ls lss Hls _ IH]; cbn [List.concat]; [constructor |].
  apply Forall_app. split; assumption.
Qed.

Ltac ks_prim :=
  first
    [ apply keeps_throw | apply keeps_unmodelled | apply keeps_outOfFuel
    | apply keeps_getCtx; assumption
    | apply keeps_clone; assumption
    | apply keeps_withVal; assumption
    | apply keeps_withBoundVar; assumption
    | apply keeps_withPrimed; assumption
    | apply keeps_retWithVal; assumption
    | apply keeps_valOf; assumption
    | apply keeps_stateOf; assumption
    | apply keeps_firstVal; assumption
    | apply keeps_singleVal; assumption
    | apply keeps_callGetVal | apply keeps_callAnd | apply keeps_toNumber
    | apply keeps_callFingerprint | apply keeps_newSetValue | apply keeps_newTupleValue
    | apply keeps_callGetElems | apply keeps_getAssignPrimed | apply keeps_assert
    | apply keeps_lift ].

Ltac ks :=
  repeat
    (cbv beta in *;
     first
       [ progress intros
       | ks_prim
       | match goal with
         | |- keeps _ _ (bind _ _) _ => eapply keeps_bind
         | |- keeps _ _ (ret _) _ => apply keeps_ret
         | |- keeps _ _ (if ?b then _ else _) _ => destruct b eqn:?
         | |- keeps _ _ (match ?x with _ => _ end) _ => destruct x eqn:?
         end ]).

Section KeepsHandlers.

Variable hashSum : JSData -> string.
Variable ev : Node -> loc -> M RetVal.
Hypothesis Hev : forall (node : Node) (ctx : loc),
    (base <= ctx)%nat -> keeps base vars (ev node ctx) (fromBase base).

Lemma keeps_evalOpt (n : option Node) (ctx : loc) :
  (base <= ctx)%nat -> keeps base vars (evalOpt ev n ctx) (fromBase base).
Proof.
  intros H. unfold evalOpt. destruct n; [apply Hev; exact H | apply keeps_throw].
Qed.

Lemma keeps_evalLnot (v : Node) (ctx : loc) :
  (base <= ctx)%nat -> keeps base vars (evalLnot ev v ctx) (fromBase base).
Proof.
  intros H. unfold evalLnot.
  eapply keeps_bind; [apply Hev; exact H |]. ks.
Qed.

Lemma keeps_processDisjunctiveContexts (ctx : loc) (retCtxs : list (option loc))
    (currAssignedVars : list string) :
  (base <= ctx)%nat ->
  (forall l, In (Some l) retCtxs -> (base <= l)%nat) ->
  keeps base vars (processDisjunctiveContexts ctx retCtxs currAssignedVars) (fromBase base).
Proof.
  intros H Hret. unfold processDisjunctiveContexts, returnCtxs.
  destruct (1 <? List.length retCtxs)%nat.
  - destruct (allSome retCtxs) as [ls |] eqn:E; [| apply keeps_throw].
    pose proof (allSome_fromBase retCtxs ls Hret E) as Hls.
    eapply keeps_bind.
    { apply keeps_mapM_all with (Q := fun _ => True). intros l Hl. apply keeps_valOf.
      rewrite Forall_forall in Hls. apply Hls. exact Hl. }
    intros vals _.
    eapply keeps_bind; [apply keeps_assert |]. intros _ _.
    eapply keeps_bind; [apply keeps_assert |]. intros _ _.
    eapply keeps_bind.
    { apply keeps_mapM_all with (Q := fun _ => True). intros l Hl.
      eapply keeps_weaken; [apply keeps_stateOf | intros; exact I].
      rewrite Forall_forall in Hls. apply Hls. exact Hl. }
    intros states _.
    match goal with |- keeps _ _ (if ?b then _ else _) _ => destruct b end.
    + apply keeps_ret. exact Hls.
    + eapply keeps_bind.
      { apply keeps_mapM_all with (Q := fun _ => True). intros v _. apply keeps_callGetVal. }
      intros prims _. ks.
  - destruct (allSome retCtxs) as [ls |] eqn:E; [| apply keeps_unmodelled].
    apply keeps_ret. exact (allSome_fromBase retCtxs ls Hret E).
Qed.

Lemma keeps_evalLand (lhs rhs : Node) (ctx : loc) :
  (base <= ctx)%nat -> keeps base vars (evalLand ev lhs rhs ctx) (fromBase base).
Proof.
  intros H. unfold evalLand.
  eapply keeps_bind; [apply Hev; exact H |]. intros l Hl.
  eapply keeps_bind.
  { apply keeps_mapM_all with (Q := Forall (fun l => (base <= l)%nat)).
    intros lctx Hlctx.
    assert (Hb : (base <= lctx)%nat).
    { destruct l as [ls |]; [| destruct Hlctx]. cbn in Hl. rewrite Forall_forall in Hl.
      apply Hl. exact Hlctx. }
    eapply keeps_bind; [apply Hev; exact Hb |]. intros r Hr.
    destruct r as [acs |]; [| apply keeps_throw].
    apply keeps_mapM_all. intros actx Hactx.
    assert (Ha : (base <= actx)%nat).
    { cbn in Hr. rewrite Forall_forall in Hr. apply Hr. exact Hactx. }
    eapply keeps_bind; [apply keeps_valOf; exact Hb |]. intros lv _.
    eapply keeps_bind; [apply keeps_valOf; exact Ha |]. intros av _.
    eapply keeps_bind; [apply keeps_callAnd |]. intros b _.
    eapply keeps_bind; [apply keeps_stateOf; exact Ha |]. intros st Hst.
    apply keeps_withValAndState; assumption. }
  intros rhsEval Hrhs. apply keeps_ret. cbn. apply concat_fromBase. exact Hrhs.
Qed.

Lemma keeps_evalLor (lhs rhs : Node) (ctx : loc) :
  (base <= ctx)%nat -> keeps base vars (evalLor ev lhs rhs ctx) (fromBase base).
Proof.
  intros H. unfold evalLor.
  eapply keeps_bind; [apply keeps_stateOf; exact H |]. intros st _.
  eapply keeps_bind; [apply Hev; exact H |]. intros l Hl.
  eapply keeps_bind; [apply Hev; exact H |]. intros r Hr.
  destruct l as [ls |]; [| apply keeps_throw].
  apply keeps_processDisjunctiveContexts; [exact H |].
  intros x Hx. apply in_app_iff in Hx. destruct Hx as [Hx | Hx].
  - apply in_map_iff in Hx. destruct Hx as (y & E & Hy). injection E as ->.
    cbn in Hl. rewrite Forall_forall in Hl. apply Hl. exact Hy.
  - destruct r as [rs |].
    + apply in_map_iff in Hx. destruct Hx as (y & E & Hy). injection E as ->.
      cbn in Hr. rewrite Forall_forall in Hr. apply Hr. exact Hy.
    + destruct Hx as [E | []]. discriminate.
Qed.

Lemma keeps_isPrimedVar (treeNode : Node) (ctx : loc) :
  (base <= ctx)%nat -> keeps base vars (isPrimedVar treeNode ctx) (fun _ => True).
Proof.
  intros H. unfold isPrimedVar.
  destruct (children treeNode) as [| lhs [| symbol rest]]; try (apply keeps_ret; exact I).
  match goal with |- keeps _ _ (if ?b then _ else _) _ => destruct b end;
    [| apply keeps_ret; exact I].
  eapply keeps_bind; [apply keeps_getCtx; exact H |]. intros c _.
  eapply keeps_bind; [apply keeps_lift |]. intros h _. apply keeps_ret. exact I.
Qed.

Lemma Forall2_keys (st ys : list (string * JSVal)) :
  Forall2 (fun kv y => fst y = fst kv) st ys -> obj_keys ys = obj_keys st.
Proof.
  unfold obj_keys. induction 1 as [| kv y st ys E _ IH]; [reflexivity |].
  cbn [map]. rewrite E, IH. reflexivity.
Qed.

Lemma keeps_evalEq (lhs rhs : Node) (ctx : loc) :
  (base <= ctx)%nat -> keeps base vars (evalEq hashSum ev lhs rhs ctx) (fromBase base).
Proof.
  intros H. unfold evalEq.
  eapply keeps_bind; [apply keeps_getCtx; exact H |]. intros c Hc.
  eapply keeps_bind; [apply keeps_lift |]. intros hasIdent _.
  eapply keeps_bind; [apply keeps_isPrimedVar; exact H |]. intros pv _.
  eapply keeps_bind; [apply keeps_getAssignPrimed |]. intros ap _.
  match goal with |- keeps _ _ (if ?b then _ else _) _ => destruct b end.
  - match goal with |- keeps _ _ (if ?b then _ else _) _ => destruct b end.
    + eapply keeps_bind; [apply Hev; exact H |]. intros rhsVals Hr.
      eapply keeps_bind; [apply keeps_singleVal; exact Hr |]. intros rhsVal _.
      eapply keeps_bind; [apply Hev; exact H |]. intros lhsVals Hl.
      eapply keeps_bind; [apply keeps_firstVal; exact Hl |]. intros lhsVal _.
      ks.
    + eapply keeps_bind.
      { apply (keeps_mapM _ (fun kv y => fst y = fst kv)). intros kv _.
        destruct (String.eqb (fst kv) (text lhs)); [| apply keeps_ret; reflexivity].
        eapply keeps_bind; [apply keeps_clone; exact H |]. intros cl Hcl.
        eapply keeps_bind; [apply Hev; exact Hcl |]. intros rhsVals Hr.
        eapply keeps_bind; [apply keeps_singleVal; exact Hr |]. intros rhsVal _.
        apply keeps_ret. reflexivity. }
      intros stateUpdated Hst.
      eapply keeps_bind.
      { apply keeps_withValAndState; [exact H |].
        rewrite (Forall2_keys _ _ Hst). exact Hc. }
      intros r Hr. apply keeps_ret. cbn. repeat constructor. exact Hr.
  - eapply keeps_bind; [apply keeps_clone; exact H |]. intros cl Hcl.
    eapply keeps_bind; [apply Hev; exact Hcl |]. intros lhsVals Hl.
    eapply keeps_bind; [apply keeps_singleVal; exact Hl |]. intros lhsVal _.
    eapply keeps_bind; [apply keeps_clone; exact H |]. intros cr Hcr.
    eapply keeps_bind; [apply Hev; exact Hcr |]. intros rhsVals Hr.
    eapply keeps_bind; [apply keeps_singleVal; exact Hr |]. intros rhsVal _.
    ks.
Qed.

Lemma withVarVal_keys (st : TLAState) (x : string) (v : JSVal) :
  obj_keys (withVarVal st x v) = obj_keys st.
Proof. unfold withVarVal, Lodash.mapValues, obj_keys. rewrite map_map. reflexivity. Qed.

Lemma keeps_assignUnchanged (elem : Node) (ctx : loc) :
  (base <= ctx)%nat -> keeps base vars (assignUnchanged ev elem ctx) (fun _ => True).
Proof.
  intros H. unfold assignUnchanged.
  eapply keeps_bind; [apply Hev; exact H |]. intros r Hr.
  eapply keeps_bind; [apply keeps_firstVal; exact Hr |]. intros v _.
  eapply keeps_bind; [apply keeps_getCtx; exact H |]. intros c Hc.
  apply keeps_putCtx. cbn [state setState]. rewrite withVarVal_keys. exact Hc.
Qed.

Lemma keeps_evalUnchanged (node : Node) (ctx : loc) :
  (base <= ctx)%nat -> keeps base vars (evalUnchanged ev node ctx) (fromBase base).
Proof.
  intros H. unfold evalUnchanged.
  eapply keeps_bind; [apply keeps_getCtx; exact H |]. intros c Hc.
  destruct (nth_error (namedChildren node) 1) as [n1 |]; [| apply keeps_throw].
  eapply keeps_bind; [apply keeps_lift |]. intros unchangedVal _.
  destruct (typeIs unchangedVal "tuple_literal").
  - eapply keeps_bind.
    { apply keeps_mapM_all with (Q := fun _ => True). intros elem _.
      apply keeps_assignUnchanged. exact H. }
    intros _ _. ks.
  - eapply keeps_bind; [apply keeps_assert |]. intros _ _.
    eapply keeps_bind; [apply keeps_assignUnchanged; exact H |]. intros _ _. ks.
Qed.

Lemma keeps_intOperands (lhs rhs : option Node) (ctx : loc) :
  (base <= ctx)%nat -> keeps base vars (intOperands ev lhs rhs ctx) (fun _ => True).
Proof.
  intros H. unfold intOperands.
  eapply keeps_bind; [apply keeps_evalOpt; exact H |]. intros l Hl.
  eapply keeps_bind; [apply keeps_firstVal; exact Hl |]. intros lhsVal _.
  eapply keeps_bind; [apply keeps_evalOpt; exact H |]. intros r Hr.
  eapply keeps_bind; [apply keeps_firstVal; exact Hr |]. intros rhsVal _.
  ks; exact I.
Qed.

Lemma keeps_numOperands (lhs rhs : option Node) (ctx : loc) :
  (base <= ctx)%nat -> keeps base vars (numOperands ev lhs rhs ctx) (fun _ => True).
Proof.
  intros H. unfold numOperands.
  eapply keeps_bind; [apply keeps_evalOpt; exact H |]. intros l Hl.
  eapply keeps_bind; [apply keeps_firstVal; exact Hl |]. intros lhsVal _.
  eapply keeps_bind; [apply keeps_evalOpt; exact H |]. intros r Hr.
  eapply keeps_bind; [apply keeps_firstVal; exact Hr |]. intros rhsVal _.
  ks; exact I.
Qed.

Ltac ks_if :=
  match goal with
  | |- keeps _ _ (if ?b then _ else _) _ => destruct b
  end.

Lemma keeps_number (n : Z) : keeps base vars (number n) (fun _ => True).
Proof.
  unfold number. ks_if; [apply keeps_ret; exact I | apply keeps_unmodelled].
Qed.

Lemma keeps_evalBoundInfix (node : Node) (ctx : loc) :
  (base <= ctx)%nat -> keeps base vars (evalBoundInfix hashSum ev node ctx) (fromBase base).
Proof.
  intros H. unfold evalBoundInfix.
  destruct (nth_error (children node) 1) as [symbol |]; [| apply keeps_throw].
  repeat (ks_if;
          [ first
              [ eapply keeps_bind; [apply keeps_intOperands; exact H |]; intros ab _;
                first [ apply keeps_retWithVal; exact H
                      | eapply keeps_bind; [apply keeps_number |]; intros m _;
                        apply keeps_retWithVal; exact H ]
              | eapply keeps_bind; [apply keeps_numOperands; exact H |]; intros ab _;
                first [ apply keeps_retWithVal; exact H
                      | eapply keeps_bind; [apply keeps_number |]; intros m _;
                        apply keeps_retWithVal; exact H
                      | ks_if; [apply keeps_unmodelled | apply keeps_retWithVal; exact H] ]
              | apply keeps_throw
              | apply keeps_unmodelled
              | idtac ]
          | ]); try apply keeps_throw.
  - destruct (nth_error (children node) 0), (nth_error (children node) 2);
      try apply keeps_throw. apply keeps_evalLor. exact H.
  - destruct (nth_error (children node) 0), (nth_error (children node) 2);
      try apply keeps_throw. apply keeps_evalLand. exact H.
  - eapply keeps_bind; [apply keeps_evalOpt; exact H |]. intros l Hl.
    eapply keeps_bind; [apply keeps_firstVal; exact Hl |]. intros a _.
    eapply keeps_bind; [apply keeps_evalOpt; exact H |]. intros r Hr.
    eapply keeps_bind; [apply keeps_firstVal; exact Hr |]. intros b _.
    ks.
  - destruct (nth_error (children node) 0), (nth_error (children node) 2);
      try apply keeps_throw. apply keeps_evalEq. exact H.
  - destruct (nth_error (children node) 0) as [lnode |]; [| apply keeps_throw].
    eapply keeps_bind; [apply Hev; exact H |]. intros l Hl.
    eapply keeps_bind; [apply keeps_firstVal; exact Hl |]. intros lhsVal _.
    eapply keeps_bind; [apply keeps_evalOpt; exact H |]. intros r Hr.
    eapply keeps_bind; [apply keeps_singleVal; exact Hr |]. intros rhsVal _.
    ks.
Qed.

Lemma keeps_evalBoundPrefix (node : Node) (ctx : loc) :
  (base <= ctx)%nat -> keeps base vars (evalBoundPrefix ev node ctx) (fromBase base).
Proof.
  intros H. unfold evalBoundPrefix.
  destruct (nth_error (children node) 0) as [symbol |]; [| apply keeps_throw].
  ks_if; [apply keeps_unmodelled |].
  ks_if.
  { eapply keeps_bind; [apply keeps_evalOpt; exact H |]. intros r Hr.
    eapply keeps_bind; [apply keeps_firstVal; exact Hr |]. intros rhsVal _.
    ks. }
  ks_if.
  { destruct (nth_error (children node) 1); [| apply keeps_throw].
    apply keeps_evalLnot. exact H. }
  ks_if; [apply keeps_evalUnchanged; exact H |].
  apply keeps_ret. exact I.
Qed.

Lemma keeps_evalBoundPostfix (node : Node) (ctx : loc) :
  (base <= ctx)%nat -> keeps base vars (evalBoundPostfix ev node ctx) (fromBase base).
Proof.
  intros H. unfold evalBoundPostfix.
  destruct (nth_error (namedChildren node) 1) as [symbol |]; [| apply keeps_throw].
  ks_if; [| apply keeps_ret; exact I].
  eapply keeps_bind; [apply keeps_withPrimed; exact H |]. intros p Hp.
  apply keeps_evalOpt. exact Hp.
Qed.

Lemma keeps_evalDisjList (parent : Node) (disjs : list Node) (ctx : loc) :
  (base <= ctx)%nat -> keeps base vars (evalDisjList ev parent disjs ctx) (fromBase base).
Proof.
  intros H. unfold evalDisjList.
  eapply keeps_bind; [apply keeps_stateOf; exact H |]. intros st _.
  eapply keeps_bind.
  { apply keeps_mapM_all with (Q := fromBase base). intros disj _. apply Hev. exact H. }
  intros rs Hrs. apply keeps_processDisjunctiveContexts; [exact H |].
  apply flattenDeep_fromBase. exact Hrs.
Qed.

Lemma keeps_evalConjList (parent : Node) (conjs : list Node) (ctx : loc) :
  (base <= ctx)%nat -> keeps base vars (evalConjList ev parent conjs ctx) (fromBase base).
Proof.
  intros H. unfold evalConjList.
  eapply keeps_bind; [apply keeps_getCtx; exact H |]. intros c Hc.
  eapply keeps_bind with (Q := fun _ => True).
  { destruct (isNull (val c)); [apply keeps_putCtx; exact Hc | apply keeps_ret; exact I]. }
  intros _ _.
  eapply keeps_bind.
  { apply keeps_foldM with (I := Forall (fun l => (base <= l)%nat)).
    - constructor; [exact H | constructor].
    - intros prev conj Hprev.
      eapply keeps_bind.
      { apply keeps_mapM_all with (Q := Forall (fun l => (base <= l)%nat)).
        intros ctxPrev Hin.
        assert (Hb : (base <= ctxPrev)%nat) by (rewrite Forall_forall in Hprev; auto).
        eapply keeps_bind; [apply keeps_valOf; exact Hb |]. intros pv _.
        eapply keeps_bind; [apply keeps_callGetVal |]. intros p _.
        assert (Hgo : keeps base vars
                        (r <- ev conj ctxPrev ;;
                         match r with
                         | None => throw TypeError
                         | Some cs =>
                             mapM (fun ctxCurr =>
                                     cv <- valOf ctxCurr ;;
                                     pv' <- valOf ctxPrev ;;
                                     conjVal <- callAnd cv pv' ;;
                                     withVal ctxCurr conjVal) cs
                         end)
                        (Forall (fun l => (base <= l)%nat))).
        { eapply keeps_bind; [apply Hev; exact Hb |]. intros r Hr.
          destruct r as [cs |]; [| apply keeps_throw].
          apply keeps_mapM_all. intros ctxCurr Hcur.
          assert (Hcb : (base <= ctxCurr)%nat).
          { cbn in Hr. rewrite Forall_forall in Hr. auto. }
          eapply keeps_bind; [apply keeps_valOf; exact Hcb |]. intros cv _.
          eapply keeps_bind; [apply keeps_valOf; exact Hb |]. intros pv' _.
          eapply keeps_bind; [apply keeps_callAnd |]. intros conjVal _.
          apply keeps_withVal. exact Hcb. }
        destruct p as [n | [|] | str]; try exact Hgo.
        apply keeps_ret. constructor; [exact Hb | constructor]. }
      intros res Hres. apply keeps_ret. apply concat_fromBase. exact Hres. }
  intros res Hres. apply keeps_ret. exact Hres.
Qed.

Lemma keeps_evalIdentifierRef (node : Node) (ctx : loc) :
  (base <= ctx)%nat -> keeps base vars (evalIdentifierRef ev node ctx) (fromBase base).
Proof.
  intros H. unfold evalIdentifierRef.
  eapply keeps_bind; [apply keeps_getCtx; exact H |]. intros c Hc.
  eapply keeps_bind; [apply keeps_lift |]. intros isVar _.
  ks_if; [apply keeps_retWithVal; exact H |].
  eapply keeps_bind; [apply keeps_lift |]. intros isVarPrimed _.
  ks_if; [apply keeps_retWithVal; exact H |].
  eapply keeps_bind; [apply keeps_lift |]. intros bound _.
  destruct bound; [apply keeps_retWithVal; exact H |].
  eapply keeps_bind; [apply keeps_lift |]. intros defn _.
  destruct defn as [d |].
  { ks_if; [apply keeps_unmodelled | apply Hev; exact H]. }
  destruct (constants c) as [cs |]; [| apply keeps_ret; exact I].
  eapply keeps_bind; [apply keeps_lift |]. intros constant _.
  destruct constant; [apply keeps_retWithVal; exact H |].
  apply keeps_ret. exact I.
Qed.

Lemma keeps_evalBoundedQuantification (node : Node) (ctx : loc) :
  (base <= ctx)%nat ->
  keeps base vars (evalBoundedQuantification ev node ctx) (fromBase base).
Proof.
  intros H. unfold evalBoundedQuantification.
  eapply keeps_bind; [apply keeps_assert |]. intros _ _.
  eapply keeps_bind; [apply keeps_assert |]. intros _ _.
  destruct (nth_error (namedChildren node) 0) as [quantifier |]; [| apply keeps_throw].
  eapply keeps_bind; [apply keeps_assert |]. intros _ _.
  destruct (skipQuantBounds (tl (namedChildren node)) 1) as [currInd |];
    [| apply keeps_throw].
  destruct (nth_error (namedChildren node) 1) as [quantBound |]; [| apply keeps_throw].
  eapply keeps_bind; [apply keeps_evalOpt; exact H |]. intros r Hr.
  eapply keeps_bind; [apply keeps_firstVal; exact Hr |]. intros domainVal _.
  eapply keeps_bind; [apply keeps_assert |]. intros _ _.
  destruct (filter (fun c => typeIs c "identifier") (namedChildren quantBound))
    as [| ident idents]; [apply keeps_throw |].
  ks_if; [apply keeps_retWithVal; exact H |].
  eapply keeps_bind; [apply keeps_stateOf; exact H |]. intros st _.
  eapply keeps_bind.
  { apply keeps_mapM_all with (Q := fromBase base). intros domVal _.
    eapply keeps_bind; [apply keeps_clone; exact H |]. intros boundContext Hbc.
    eapply keeps_bind; [apply keeps_getCtx; exact Hbc |]. intros bc Hkeys.
    eapply keeps_bind.
    { ks_if; [apply keeps_unmodelled | apply keeps_putCtx; exact Hkeys]. }
    intros _ _.
    eapply keeps_bind; [apply keeps_clone; exact Hbc |]. intros bc2 Hbc2.
    apply keeps_evalOpt. exact Hbc2. }
  intros rs Hrs.
  ks_if.
  - destruct (allSome (flattenDeep rs)) as [ls |] eqn:E; [| apply keeps_throw].
    pose proof (allSome_fromBase _ ls (flattenDeep_fromBase rs Hrs) E) as Hls.
    eapply keeps_bind.
    { apply keeps_mapM_all with (Q := fun _ => True). intros l Hl. apply keeps_valOf.
      rewrite Forall_forall in Hls. auto. }
    intros vals _.
    eapply keeps_bind.
    { apply keeps_mapM_all with (Q := fun _ => True). intros v _. apply keeps_callGetVal. }
    intros prims _. apply keeps_retWithVal. exact H.
  - apply keeps_processDisjunctiveContexts; [exact H |].
    apply flattenDeep_fromBase. exact Hrs.
Qed.

Lemma keeps_chooseFrom (boundVar : string) (condition : option Node) (ctx : loc)
    (elems : list TLAValue) :
  (base <= ctx)%nat ->
  keeps base vars (chooseFrom ev boundVar condition ctx elems) (fromBase base).
Proof.
  intros H. induction elems as [| v rest IH]; cbn [chooseFrom]; [apply keeps_throw |].
  eapply keeps_bind; [apply keeps_withBoundVar; exact H |]. intros boundCtx Hb.
  eapply keeps_bind; [apply keeps_evalOpt; exact Hb |]. intros r Hr.
  eapply keeps_bind; [apply keeps_firstVal; exact Hr |]. intros condVal _.
  eapply keeps_bind; [apply keeps_callGetVal |]. intros p _.
  ks_if; [apply keeps_retWithVal; exact H | exact IH].
Qed.

Lemma keeps_evalChoose (node : Node) (ctx : loc) :
  (base <= ctx)%nat -> keeps base vars (evalChoose ev node ctx) (fromBase base).
Proof.
  intros H. unfold evalChoose.
  eapply keeps_bind; [apply keeps_evalOpt; exact H |]. intros r Hr.
  eapply keeps_bind; [apply keeps_firstVal; exact Hr |]. intros domainVal _.
  eapply keeps_bind; [apply keeps_callGetElems |]. intros elems _.
  destruct elems as [| e elems]; [apply keeps_throw |].
  destruct (nth_error (namedChildren node) 0); [| apply keeps_throw].
  apply keeps_chooseFrom. exact H.
Qed.

Lemma keeps_evalFiniteSetLiteral (node : Node) (ctx : loc) :
  (base <= ctx)%nat ->
  keeps base vars (evalFiniteSetLiteral hashSum ev node ctx) (fromBase base).
Proof.
  intros H. unfold evalFiniteSetLiteral.
  eapply keeps_bind.
  { apply keeps_mapM_all with (Q := fun _ => True). intros child _.
    eapply keeps_bind; [apply Hev; exact H |]. intros r Hr.
    apply keeps_singleVal. exact Hr. }
  intros vals _.
  eapply keeps_bind; [apply keeps_newSetValue |]. intros sv _.
  apply keeps_retWithVal. exact H.
Qed.

Lemma keeps_evalTupleLiteral (node : Node) (ctx : loc) :
  (base <= ctx)%nat -> keeps base vars (evalTupleLiteral ev node ctx) (fromBase base).
Proof.
  intros H. unfold evalTupleLiteral.
  eapply keeps_bind.
  { apply keeps_mapM_all with (Q := fun _ => True). intros el _.
    eapply keeps_bind; [apply Hev; exact H |]. intros r Hr.
    apply keeps_firstVal. exact Hr. }
  intros vals _.
  eapply keeps_bind; [apply keeps_newTupleValue |]. intros t _.
  apply keeps_retWithVal. exact H.
Qed.

Lemma keeps_evalIfThenElse (node : Node) (ctx : loc) :
  (base <= ctx)%nat -> keeps base vars (evalIfThenElse ev node ctx) (fromBase base).
Proof.
  intros H. unfold evalIfThenElse.
  eapply keeps_bind; [apply keeps_clone; exact H |]. intros c0 Hc0.
  eapply keeps_bind; [apply keeps_evalOpt; exact Hc0 |]. intros r Hr.
  eapply keeps_bind; [apply keeps_firstVal; exact Hr |]. intros condVal _.
  eapply keeps_bind; [apply keeps_callGetVal |]. intros p _.
  eapply keeps_bind; [apply keeps_clone; exact H |]. intros c1 Hc1.
  ks_if; apply keeps_evalOpt; exact Hc1.
Qed.

Lemma keeps_evalExprBody (node : Node) (ctx : loc) :
  (base <= ctx)%nat -> keeps base vars (evalExprBody hashSum ev node ctx) (fromBase base).
Proof.
  intros H. unfold evalExprBody.
  ks_if; [apply keeps_evalOpt; exact H |].
  ks_if; [apply keeps_unmodelled |].
  ks_if; [apply keeps_evalChoose; exact H |].
  ks_if; [apply keeps_unmodelled |].
  eapply keeps_bind; [apply keeps_isPrimedVar; exact H |]. intros pv _.
  eapply keeps_bind; [apply keeps_getCtx; exact H |]. intros c Hc.
  ks_if; [apply keeps_retWithVal; exact H |].
  ks_if; [apply keeps_evalConjList; exact H |].
  ks_if; [apply keeps_evalDisjList; exact H |].
  ks_if; [apply keeps_evalOpt; exact H |].
  ks_if; [apply keeps_evalOpt; exact H |].
  ks_if; [apply keeps_unmodelled |].
  ks_if; [apply keeps_evalBoundInfix; exact H |].
  ks_if; [apply keeps_evalBoundPrefix; exact H |].
  ks_if; [apply keeps_evalBoundPostfix; exact H |].
  ks_if; [apply keeps_evalBoundedQuantification; exact H |].
  ks_if; [apply keeps_evalIdentifierRef; exact H |].
  ks_if; [apply keeps_evalIfThenElse; exact H |].
  ks_if; [apply keeps_unmodelled |].
  ks_if.
  { eapply keeps_bind; [apply keeps_newSetValue |]. intros sv _.
    apply keeps_retWithVal. exact H. }
  ks_if.
  { destruct (parseInt (text node)); [| apply keeps_unmodelled].
    eapply keeps_bind; [apply keeps_number |]. intros m _.
    apply keeps_retWithVal. exact H. }
  ks_if; [apply keeps_retWithVal; exact H |].
  ks_if.
  { ks_if; [apply keeps_unmodelled | apply keeps_retWithVal; exact H]. }
  ks_if; [apply keeps_evalFiniteSetLiteral; exact H |].
  ks_if; [apply keeps_evalTupleLiteral; exact H |].
  apply keeps_ret. exact I.
Qed.

End KeepsHandlers.

(** Every context the evaluation of an expression allocates, and every
    context it writes, holds a state over the variables of the context it
    started from. *)
Lemma keeps_evalExpr (hashSum : JSData -> string) (fuel : nat) :
  forall (node : Node) (ctx : loc),
    (base <= ctx)%nat -> keeps base vars (evalExpr hashSum fuel node ctx) (fromBase base).
Proof.
  induction fuel as [| fuel IH]; intros node ctx H; cbn [evalExpr].
  - apply keeps_outOfFuel.
  - apply keeps_evalExprBody; [exact IH | exact H].
Qed.

End KeepsVariables.

Lemma statesOver_fresh (vars : list string) (s : Store) (b : bool) :
  statesOver (List.length (heap s)) vars (mkStore (heap s) b).
Proof.
  split; cbn [heap]; [lia |].
  intros l c Hl E. apply nth_error_None in Hl. congruence.
Qed.

Lemma initVarVals_keys (vars : list string) :
  NoDup vars -> obj_keys (fold_left (fun o v => obj_set o v JNull) vars []) = vars.
Proof.
  assert (H : forall (acc : list (string * JSVal)),
             NoDup (obj_keys acc ++ vars) ->
             obj_keys (fold_left (fun o v => obj_set o v JNull) vars acc)
             = (obj_keys acc ++ vars)%list).
  { induction vars as [| v vars IH]; intros acc Hnd; cbn [fold_left].
    - rewrite app_nil_r. reflexivity.
    - rewrite obj_set_fresh.
      + rewrite IH.
        * unfold obj_keys. rewrite map_app, <- app_assoc. reflexivity.
        * unfold obj_keys. rewrite map_app, <- app_assoc. exact Hnd.
      + intros Hin. apply NoDup_remove_2 in Hnd. apply Hnd.
        apply in_or_app. left. exact Hin. }
  intros Hnd. apply (H []). exact Hnd.
Qed.

(** Every initial state [computeInitStates] returns is a state over the
    keys of [var_decls], as [for (v in vars)] yields them (each key once)
    and in this order: the evaluation of [Init] neither adds a variable to
    a state nor drops one. *)
Theorem computeInitStates_variables (hashSum : JSData -> string) (fuel : nat)
    (treeObjs : TreeObjs) (constvals : option (list (string * JSVal)))
    (s0 s : Store) (sts : list TLAState) :
  NoDup (var_decls treeObjs) ->
  computeInitStates hashSum fuel treeObjs constvals s0 = Ok (sts, s) ->
  Forall (fun st => obj_keys st = var_decls treeObjs) sts.
Proof.
  intros Hnd E. unfold computeInitStates in E.
  destruct (obj_get (assignDefs (op_defs treeObjs) (fn_defs treeObjs)) "Init") as [initDef |];
    [| discriminate].
  unfold getInitStates in E.
  set (base := List.length (heap s0)) in *.
  set (vars := var_decls treeObjs) in *.
  unfold bind at 1 2 in E. cbn [setAssignPrimed] in E.
  assert (Hk : keeps base vars
                 (r <- ((if existsb (String.eqb "__proto__") vars then unmodelled
                         else ret tt) ;;;
                        initCtx <- alloc (newContext JNull
                                            (fold_left (fun o v => obj_set o v JNull) vars [])
                                            (assignDefs (op_defs treeObjs) (fn_defs treeObjs))
                                            [] constvals) ;;
                        ret_ctxs <- evalExpr hashSum fuel (defn_node initDef) initCtx ;;
                        match ret_ctxs with
                        | None => throw TypeError
                        | Some _ => ret ret_ctxs
                        end) ;;
                  kept <- mapM (fun actx =>
                                  v <- valOf actx ;;
                                  p <- callGetVal v ;;
                                  st <- stateOf actx ;;
                                  ret (truthy p, st))
                               (match r with Some ls => ls | None => [] end) ;;
                  ret (map snd (filter fst kept)))
                 (Forall (fun st => obj_keys st = vars))).
  { eapply keeps_bind with (Q := fromBase base).
    - eapply keeps_bind with (Q := fun _ => True).
      { destruct (existsb (String.eqb "__proto__") vars);
          [apply keeps_unmodelled | apply keeps_ret; exact I]. }
      intros _ _.
      eapply keeps_bind.
      + apply keeps_alloc. cbn [state newContext]. apply initVarVals_keys. exact Hnd.
      + intros initCtx Hc. cbv beta in Hc.
        eapply keeps_bind; [apply keeps_evalExpr; exact Hc |].
        intros r Hr. destruct r; [apply keeps_ret; exact Hr | apply keeps_throw].
    - intros r Hr.
      eapply keeps_bind.
      + apply keeps_mapM_all with (Q := fun p : bool * TLAState => obj_keys (snd p) = vars).
        intros actx Hin.
        assert (Hb : (base <= actx)%nat).
        { destruct r as [ls |]; [| destruct Hin]. cbn in Hr. rewrite Forall_forall in Hr.
          apply Hr. exact Hin. }
        eapply keeps_bind; [apply keeps_valOf; exact Hb |]. intros v _.
        eapply keeps_bind; [apply keeps_callGetVal |]. intros p _.
        eapply keeps_bind; [apply keeps_stateOf; exact Hb |]. intros st Hst.
        apply keeps_ret. exact Hst.
      + intros kept Hkept. apply keeps_ret.
        apply Forall_forall. intros st Hin. apply in_map_iff in Hin.
        destruct Hin as ([b st'] & <- & Hin). apply filter_In in Hin.
        rewrite Forall_forall in Hkept. apply (Hkept (b, st')). apply Hin. }
  exact (proj2 (Hk _ _ _ (statesOver_fresh vars s0 false) E)).
Qed.

Lemma computeInitStates_variables_witness :
  exists (sts : list TLAState) (s : Store),
    computeInitStates renderData 4 initTwice None emptyStore = Ok (sts, s)
    /\ List.length sts = 2%nat
    /\ Forall (fun st => obj_keys st = ["x"]) sts.
Proof.
  eexists. eexists.
  eassert (E : computeInitStates renderData 4 initTwice None emptyStore = Ok (_, _)).
  { vm_compute. reflexivity. }
  split; [exact E |]. split; [reflexivity |].
  refine (computeInitStates_variables renderData 4 initTwice None emptyStore _ _ _ E).
  repeat constructor. intros [].
Defined.

Lemma append_prime_inj (a b : string) : (a ++ "'")%string = (b ++ "'")%string -> a = b.
Proof.
  intros H. rewrite <- (dropLast_app a), <- (dropLast_app b), H. reflexivity.
Qed.

Lemma addPrimed_keys (st : TLAState) :
  NoDup (obj_keys st) ->
  Forall (fun k => endsWithPrime k = false) (obj_keys st) ->
  obj_keys (addPrimed st)
  = (obj_keys st ++ map (fun k => (k ++ "'")%string) (obj_keys st))%list.
Proof.
  intros Hnd Hnp. unfold addPrimed.
  assert (H : forall (ks : list string) (acc : TLAState),
             NoDup ks ->
             (forall k, In k ks -> ~ In (k ++ "'")%string (obj_keys acc)) ->
             obj_keys (fold_left (fun o k => obj_set o (k ++ "'")%string JNull) ks acc)
             = (obj_keys acc ++ map (fun k => (k ++ "'")%string) ks)%list).
  { induction ks as [| k ks IH]; intros acc Hks Hfresh; cbn [fold_left map].
    - rewrite app_nil_r. reflexivity.
    - inversion Hks as [| k0 ks0 Hk Hks' E0]; subst.
      rewrite obj_set_fresh by (apply Hfresh; left; reflexivity).
      rewrite IH.
      + unfold obj_keys. rewrite map_app, <- app_assoc. reflexivity.
      + exact Hks'.
      + intros k' Hk' Hin. unfold obj_keys in Hin. rewrite map_app in Hin.
        apply in_app_iff in Hin. destruct Hin as [Hin | [E | []]].
        * apply (Hfresh k'); [right; exact Hk' | exact Hin].
        * cbn in E. apply append_prime_inj in E. subst. contradiction. }
  apply H; [exact Hnd |].
  intros k Hk Hin. rewrite Forall_forall in Hnp.
  specialize (Hnp _ Hin). rewrite endsWithPrime_app in Hnp. discriminate.
Qed.

Lemma primed_keys_deprimed (ks : list string) :
  Forall (fun k => endsWithPrime k = false) ks ->
  map dropLast (filter endsWithPrime (ks ++ map (fun k => (k ++ "'")%string) ks)) = ks.
Proof.
  intros Hnp. rewrite filter_app.
  assert (H1 : filter endsWithPrime ks = []).
  { induction Hnp as [| k ks Hk _ IH]; [reflexivity |]. cbn. rewrite Hk. exact IH. }
  assert (H2 : forall l : list string,
             map dropLast (filter endsWithPrime (map (fun k => (k ++ "'")%string) l)) = l).
  { induction l as [| k l IH]; [reflexivity |].
    cbn [map filter]. rewrite endsWithPrime_app. cbn [map]. rewrite dropLast_app, IH.
    reflexivity. }
  rewrite H1. cbn [app]. apply H2.
Qed.

Lemma primed_keys_nodup (ks : list string) :
  NoDup ks ->
  Forall (fun k => endsWithPrime k = false) ks ->
  NoDup (ks ++ map (fun k => (k ++ "'")%string) ks).
Proof.
  intros Hnd Hnp. apply NoDup_app.
  - exact Hnd.
  - clear Hnp. induction Hnd as [| k ks Hk _ IH]; cbn [map]; constructor; [| exact IH].
    intros Hin. apply in_map_iff in Hin. destruct Hin as (k' & E & Hk').
    apply append_prime_inj in E. subst. contradiction.
  - intros k Hk Hin. apply in_map_iff in Hin. destruct Hin as (k' & <- & _).
    rewrite Forall_forall in Hnp. specialize (Hnp _ Hk).
    rewrite endsWithPrime_app in Hnp. discriminate.
Qed.

(** The branches [getNextStates] returns from a state over variables that
    hold no prime in their names: each holds a state over these variables
    followed by their primed versions, and [deprimeVars] makes of it a
    state over the variables of the current state, in their order. *)
Theorem getNextStates_variables (hashSum : JSData -> string) (fuel : nat) (nextDef : Node)
    (currStateVars : TLAState) (ds : list (string * Defn))
    (constvals : option (list (string * JSVal))) (s0 s : Store) (ls : list loc) :
  NoDup (obj_keys currStateVars) ->
  Forall (fun k => endsWithPrime k = false) (obj_keys currStateVars) ->
  getNextStates hashSum fuel nextDef currStateVars ds constvals s0 = Ok (ls, s) ->
  forall (l : loc) (c : Context),
    In l ls -> nth_error (heap s) l = Some c ->
    obj_keys (state c)
    = (obj_keys currStateVars
       ++ map (fun k => (k ++ "'")%string) (obj_keys currStateVars))%list
    /\ obj_keys (deprimeVars (state c)) = obj_keys currStateVars.
Proof.
  intros Hnd Hnp E l c Hl Hc.
  set (base := List.length (heap s0)) in *.
  set (vars := (obj_keys currStateVars
                ++ map (fun k => (k ++ "'")%string) (obj_keys currStateVars))%list).
  unfold getNextStates in E. unfold bind at 1 in E. cbn [setAssignPrimed] in E.
  assert (Hk : keeps base vars
                 (initCtx <- alloc (newContext JNull (addPrimed currStateVars) ds []
                                      constvals) ;;
                  r <- evalExpr hashSum fuel nextDef initCtx ;;
                  match r with
                  | None => throw TypeError
                  | Some cs =>
                      enabled <- mapM (fun c => v <- valOf c ;; p <- callGetVal v ;;
                                                ret (isTrue p, c)) cs ;;
                      let ret1 := map snd (filter fst enabled) in
                      full <- mapM (fun c => st <- stateOf c ;;
                                             ret (allPrimedAssigned
                                                    (obj_keys currStateVars) st, c)) ret1 ;;
                      ret (map snd (filter fst full))
                  end)
                 (Forall (fun l => (base <= l)%nat))).
  { eapply keeps_bind.
    - apply keeps_alloc. cbn [state newContext]. apply addPrimed_keys; assumption.
    - intros initCtx Hi. cbv beta in Hi.
      eapply keeps_bind; [apply keeps_evalExpr; exact Hi |].
      intros r Hr. destruct r as [cs |]; [| apply keeps_throw]. cbn in Hr.
      eapply keeps_bind.
      + apply keeps_mapM_all with (Q := fun p : bool * loc => (base <= snd p)%nat).
        intros x Hx. assert (Hb : (base <= x)%nat) by (rewrite Forall_forall in Hr; auto).
        eapply keeps_bind; [apply keeps_valOf; exact Hb |]. intros v _.
        eapply keeps_bind; [apply keeps_callGetVal |]. intros p _.
        apply keeps_ret. exact Hb.
      + intros enabled Hen. cbv zeta.
        assert (Hret1 : Forall (fun l => (base <= l)%nat) (map snd (filter fst enabled))).
        { apply Forall_forall. intros x Hx. apply in_map_iff in Hx.
          destruct Hx as (p & <- & Hp). apply filter_In in Hp.
          rewrite Forall_forall in Hen. apply Hen. apply Hp. }
        eapply keeps_bind.
        * apply keeps_mapM_all with (Q := fun p : bool * loc => (base <= snd p)%nat).
          intros x Hx.
          assert (Hb : (base <= x)%nat) by (rewrite Forall_forall in Hret1; auto).
          eapply keeps_bind; [apply keeps_stateOf; exact Hb |]. intros st _.
          apply keeps_ret. exact Hb.
        * intros full Hfull. apply keeps_ret.
          apply Forall_forall. intros x Hx. apply in_map_iff in Hx.
          destruct Hx as (p & <- & Hp). apply filter_In in Hp.
          rewrite Forall_forall in Hfull. apply Hfull. apply Hp. }
  destruct (Hk _ _ _ (statesOver_fresh vars s0 true) E) as [[_ Hs] Hls].
  rewrite Forall_forall in Hls.
  assert (Hkeys : obj_keys (state c) = vars) by (apply (Hs l c); [apply Hls; exact Hl | exact Hc]).
  split; [exact Hkeys |].
  rewrite deprimeVars_keys.
  - rewrite Hkeys. apply primed_keys_deprimed. exact Hnp.
  - rewrite Hkeys. apply primed_keys_nodup; assumption.
Qed.

Lemma getNextStates_variables_witness :
  exists (ls : list loc) (s : Store) (l : loc) (c : Context),
    getNextStates renderData 4 twoBranches [("x", JV (IntValue 0))] [] None emptyStore
    = Ok (ls, s)
    /\ In l ls /\ nth_error (heap s) l = Some c
    /\ obj_keys (state c) = ["x"; "x'"]
    /\ obj_keys (deprimeVars (state c)) = ["x"].
Proof.
  eexists. eexists. eexists. eexists.
  eassert (E : getNextStates renderData 4 twoBranches [("x", JV (IntValue 0))] [] None
                 emptyStore = Ok (_, _)).
  { vm_compute. reflexivity. }
  split; [exact E |].
  split; [left; reflexivity |].
  eassert (Hc : nth_error (heap _) _ = Some _).
  2: { split; [exact Hc |].
       refine (getNextStates_variables renderData 4 twoBranches [("x", JV (IntValue 0))] []
                 None emptyStore _ _ _ _ E _ _ (or_introl eq_refl) Hc).
       - repeat constructor. intros [].
       - repeat constructor. }
  vm_compute. reflexivity.
Defined.

(** ** Reachable states *)

Lemma existsb_eqb_false (h : string) (seen : list string) :
  existsb (String.eqb h) seen = false -> ~ In h seen.
Proof.
  intros E Hin. apply existsb_eqb_In in Hin. congruence.
Qed.

Lemma reachLoop_inv (hashSum : JSData -> string) (fuel : nat) (treeObjs : TreeObjs)
    (constvals : option (list (string * JSVal))) (init : list TLAState) (steps : nat) :
  forall (queue : list TLAState) (seen : list string) (reachable : list TLAState)
         (es : list (TLAState * TLAState)) (s0 s : Store)
         (r : list TLAState * list (TLAState * TLAState)),
    reachInv hashSum init queue seen reachable es ->
    reachLoop hashSum fuel steps treeObjs constvals queue seen reachable es s0 = Ok (r, s) ->
    exists seen' : list string, reachInv hashSum init [] seen' (fst r) (snd r).
Proof.
  induction steps as [| steps IH]; intros queue seen reachable es s0 s r Hinv E;
    cbn [reachLoop] in E; [discriminate |].
  destruct (rev queue) as [| curr before] eqn:Eq.
  - injection E as <- <-.
    assert (Hq : queue = []).
    { apply (f_equal (@rev _)) in Eq. rewrite rev_involutive in Eq. exact Eq. }
    subst queue. exists seen. exact Hinv.
  - assert (Hq : queue = (rev before ++ [curr])%list).
    { apply (f_equal (@rev _)) in Eq. rewrite rev_involutive in Eq. exact Eq. }
    clear Eq. subst queue.
    destruct Hinv as (H1 & H2 & H3 & H4 & H5).
    destruct (stateFingerprint hashSum curr) as [h |] eqn:Eh; [| discriminate].
    destruct (existsb (String.eqb h) seen) eqn:Eseen.
    + apply existsb_eqb_In in Eseen.
      apply (IH _ _ _ _ _ _ _) in E; [exact E |].
      split; [exact H1 |]. split; [exact H2 |]. split; [| split; [| exact H5]].
      * intros st Hst. destruct (H3 st Hst) as [Hin | Hex]; [| right; exact Hex].
        apply in_app_iff in Hin. destruct Hin as [Hin | [<- | []]]; [left; exact Hin |].
        right. exists h. split; assumption.
      * intros st [Hst | Hst]; apply H4; [left; exact Hst |].
        right. apply in_app_iff. left. exact Hst.
    + apply existsb_eqb_false in Eseen.
      unfold bind at 1 in E.
      destruct (computeNextStates hashSum fuel treeObjs constvals [curr] s0)
        as [[cs s1] | | |]; try discriminate.
      unfold bind at 1 in E.
      destruct (mapM (fun c => st <- stateOf c ;; ret (deprimeVars st)) cs s1)
        as [[nextStates s2] | | |]; try discriminate.
      apply (IH _ _ _ _ _ _ _) in E; [exact E |].
      split; [| split; [| split; [| split]]].
      * rewrite map_app, H1. cbn [rev map]. rewrite map_app, Eh. reflexivity.
      * constructor; assumption.
      * intros st Hst.
        assert (Hold : In st (rev before ++ [curr])%list
                       \/ (exists h0, stateFingerprint hashSum st = Some h0 /\ In h0 seen)
                       \/ In st nextStates).
        { destruct Hst as [Hst | (e & He & <-)].
          - destruct (H3 st (or_introl Hst)) as [Hin | Hex]; [left; exact Hin |].
            right. left. exact Hex.
          - apply in_app_iff in He. destruct He as [He | He].
            + destruct (H3 (snd e)) as [Hin | Hex];
                [right; exists e; split; [exact He | reflexivity] | left; exact Hin |].
              right. left. exact Hex.
            + apply in_map_iff in He. destruct He as (n & <- & Hn).
              right. right. exact Hn. }
        destruct Hold as [Hin | [(h0 & Eh0 & Hh0) | Hn]].
        -- apply in_app_iff in Hin. destruct Hin as [Hin | [<- | []]].
           ++ left. apply in_app_iff. left. exact Hin.
           ++ right. exists h. split; [exact Eh | left; reflexivity].
        -- right. exists h0. split; [exact Eh0 | right; exact Hh0].
        -- left. apply in_app_iff. right. exact Hn.
      * intros st Hst.
        assert (Hcases : In st reachable \/ In st (rev before ++ [curr])%list
                         \/ In st nextStates).
        { destruct Hst as [Hst | Hst]; apply in_app_iff in Hst.
          - destruct Hst as [Hst | [<- | []]]; [left; exact Hst |].
            right. left. apply in_app_iff. right. left. reflexivity.
          - destruct Hst as [Hst | Hst]; [| right; right; exact Hst].
            right. left. apply in_app_iff. left. exact Hst. }
        destruct Hcases as [Hst' | [Hst' | Hst']].
        -- destruct (H4 st (or_introl Hst')) as [Hi | (e & He & Es)]; [left; exact Hi |].
           right. exists e. split; [apply in_app_iff; left; exact He | exact Es].
        -- destruct (H4 st (or_intror Hst')) as [Hi | (e & He & Es)]; [left; exact Hi |].
           right. exists e. split; [apply in_app_iff; left; exact He | exact Es].
        -- right. exists (curr, st). split; [| reflexivity].
           apply in_app_iff. right. apply in_map_iff. exists st. split; [reflexivity | exact Hst'].
      * intros e He. apply in_app_iff in He. apply in_app_iff.
        destruct He as [He | He]; [left; apply H5; exact He |].
        apply in_map_iff in He. destruct He as (n & <- & _). right. left. reflexivity.
Qed.

(** The states [computeReachableStates] returns have pairwise different
    fingerprints.  Every initial state and every successor state of an
    edge has the fingerprint of one of them, every edge starts at one of
    them, and each of them is an initial state or a successor state of an
    edge. *)
Theorem computeReachableStates_closed (hashSum : JSData -> string) (fuel steps : nat)
    (treeObjs : TreeObjs) (constvals : option (list (string * JSVal)))
    (s0 s : Store) (R : Reachable) :
  computeReachableStates hashSum fuel steps treeObjs constvals s0 = Ok (R, s) ->
  exists fps : list string,
    map (stateFingerprint hashSum) (states R) = map Some fps
    /\ NoDup fps
    /\ (forall st, In st (initStates R) ->
          exists h, stateFingerprint hashSum st = Some h /\ In h fps)
    /\ (forall e, In e (edges R) ->
          In (fst e) (states R)
          /\ exists h, stateFingerprint hashSum (snd e) = Some h /\ In h fps)
    /\ (forall st, In st (states R) ->
          In st (initStates R) \/ exists e, In e (edges R) /\ snd e = st).
Proof.
  intros E. unfold computeReachableStates in E.
  unfold bind at 1 in E.
  destruct (computeInitStates hashSum fuel treeObjs constvals s0) as [[init s1] | | |];
    try discriminate.
  cbv zeta in E. unfold bind at 1 in E.
  match type of E with
  | match ?m with _ => _ end = _ => destruct m as [[r s2] | | |] eqn:El; try discriminate
  end.
  unfold ret in E. injection E as <- <-. cbn [initStates states edges].
  apply reachLoop_inv with (init := init) in El.
  - destruct El as (seen & H1 & H2 & H3 & H4 & H5).
    exists (rev seen). split; [exact H1 |]. split; [apply NoDup_rev; exact H2 |].
    split; [| split].
    + intros st Hst. destruct (H3 st (or_introl Hst)) as [[] | (h & Eh & Hh)].
      exists h. split; [exact Eh | apply in_rev in Hh; exact Hh].
    + intros e He. split; [apply H5; exact He |].
      destruct (H3 (snd e)) as [[] | (h & Eh & Hh)].
      { right. exists e. split; [exact He | reflexivity]. }
      exists h. split; [exact Eh | apply in_rev in Hh; exact Hh].
    + intros st Hst. apply H4. left. exact Hst.
  - split; [reflexivity |]. split; [constructor |]. split; [| split].
    + intros st [Hst | (e & [] & _)]. left. exact Hst.
    + intros st [[] | Hst]. left. exact Hst.
    + intros e [].
Qed.

Lemma computeReachableStates_closed_witness :
  exists (R : Reachable) (s : Store) (fps : list string),
    computeReachableStates renderData 4 6 specFlip None emptyStore = Ok (R, s)
    /\ states R = [[("x", JV (IntValue 0))]; [("x", JV (IntValue 1))]]
    /\ map (stateFingerprint renderData) (states R) = map Some fps
    /\ NoDup fps.
Proof.
  eexists. eexists.
  eassert (E : computeReachableStates renderData 4 6 specFlip None emptyStore = Ok (_, _)).
  { vm_compute. reflexivity. }
  destruct (computeReachableStates_closed renderData 4 6 specFlip None emptyStore _ _ E)
    as (fps & H1 & H2 & _).
  exists fps. split; [exact E |]. split; [reflexivity |]. split; [exact H1 | exact H2].
Defined.

(** ** Numerals *)

Lemma parseDigits_pos (d : Decimal.uint) :
  forall acc : positive,
    parseDigits (NilEmpty.string_of_uint d) (Some (Z.pos acc))
    = Some (Z.pos (Pos.of_uint_acc d acc)).
Proof.
  induction d; intros acc; cbn [NilEmpty.string_of_uint parseDigits Pos.of_uint_acc];
    try reflexivity;
    match goal with
    | |- context [digitOf ?c] =>
        let v := eval vm_compute in (digitOf c) in change (digitOf c) with v
    end;
    cbv iota; rewrite <- IHd; do 2 f_equal; lia.
Qed.

Lemma parseDigits_zero (d : Decimal.uint) :
  parseDigits (NilEmpty.string_of_uint d) (Some 0) = Some (Z.of_N (Pos.of_uint d)).
Proof.
  induction d; cbn [NilEmpty.string_of_uint parseDigits Pos.of_uint]; try reflexivity;
    match goal with
    | |- context [digitOf ?c] =>
        let v := eval vm_compute in (digitOf c) in change (digitOf c) with v
    end;
    cbv iota;
    first [ exact IHd
          | match goal with
            | |- parseDigits _ (Some ?z) = _ =>
                let p := eval vm_compute in (Z.to_pos z) in
                change z with (Z.pos p); rewrite parseDigits_pos; reflexivity
            end ].
Qed.

Lemma parseDigits_start (d : Decimal.uint) :
  d <> Decimal.Nil ->
  parseDigits (NilEmpty.string_of_uint d) None
  = parseDigits (NilEmpty.string_of_uint d) (Some 0).
Proof.
  destruct d; intros H; [contradiction | ..]; reflexivity.
Qed.

Lemma parseInt_num_toString (n : N) : parseInt (num_toString (Z.of_N n)) = Some (Z.of_N n).
Proof.
  unfold parseInt, num_toString. destruct n as [| p]; [reflexivity |].
  cbn [Z.of_N Z.to_int NilZero.string_of_int]. unfold NilZero.string_of_uint.
  pose proof (DecimalPos.Unsigned.to_uint_nonnil p) as Hnil.
  pose proof (DecimalPos.Unsigned.of_to p) as Hof.
  destruct (Pos.to_uint p) eqn:E; [contradiction | ..];
    rewrite parseDigits_start by discriminate;
    rewrite parseDigits_zero, Hof; reflexivity.
Qed.

(** The text [toString] gives for a natural number that a JavaScript
    number holds exactly (one up to [2^53 - 1]) is a numeral that evaluates
    to this number. *)
Theorem nat_number_roundtrip (hashSum : JSData -> string) (fuel : nat) (ap : bool)
    (st : TLAState) (ds : list (string * Defn)) (n : N) :
  (n <= 9007199254740991)%N ->
  exists t : string,
    toString (IntValue (Z.of_N n)) = Some t
    /\ evalFresh hashSum (S fuel) ap st ds (nat_number t)
       = Ok (Some [(JV (IntValue (Z.of_N n)), st)]).
Proof.
  intros Hn. exists (num_toString (Z.of_N n)). split; [reflexivity |].
  assert (Hsafe : (Z.abs (Z.of_N n) <=? maxSafeInteger) = true)
    by (apply Z.leb_le; unfold maxSafeInteger; lia).
  unfold evalFresh. cbn [evalExpr]. unfold evalExprBody.
  set (node := nat_number (num_toString (Z.of_N n))).
  change (typeIs node "parentheses") with false.
  change (symbolIn node ["let_in"; "prev_func_val"]) with false.
  change (typeIs node "choose") with false.
  change (symbolIn node ["except"; "function_evaluation"]) with false.
  cbv iota.
  set (c := newContext JNull st ds [] None).
  set (s := mkStore [c] ap).
  assert (Hc : nth_error (heap s) 0%nat = Some c) by reflexivity.
  rewrite (bind_ok _ _ s s false) by reflexivity.
  rewrite (bind_ok _ _ _ _ _ (getCtx_run 0%nat s c Hc)).
  cbn [andb].
  change (typeIs node "conj_list") with false.
  change (typeIs node "disj_list") with false.
  change (typeIs node "conj_item") with false.
  change (typeIs node "disj_item") with false.
  change (typeIs node "bound_op") with false.
  change (typeIs node "bound_infix_op") with false.
  change (typeIs node "bound_prefix_op") with false.
  change (typeIs node "bound_postfix_op") with false.
  change (typeIs node "bounded_quantification") with false.
  change (typeIs node "identifier_ref") with false.
  change (typeIs node "if_then_else") with false.
  change (symbolIn node unmodelledTypes) with false.
  change (typeIs node "boolean_set") with false.
  change (typeIs node "nat_number") with true.
  cbv iota.
  change (text node) with (num_toString (Z.of_N n)).
  rewrite parseInt_num_toString.
  unfold number. rewrite Hsafe.
  rewrite (bind_ok _ _ s s (Z.of_N n)) by reflexivity.
  rewrite (retWithVal_run 0%nat _ s c Hc). reflexivity.
Qed.

Lemma nat_number_roundtrip_witness :
  (42 <= 9007199254740991)%N
  /\ exists t : string,
       toString (IntValue (Z.of_N 42)) = Some t
       /\ evalFresh renderData 1 true stateX0 [] (nat_number t)
          = Ok (Some [(JV (IntValue (Z.of_N 42)), stateX0)]).
Proof.
  assert (H : (42 <= 9007199254740991)%N) by (vm_compute; discriminate).
  split; [exact H |].
  exact (nat_number_roundtrip renderData 0 true stateX0 [] 42%N H).
Defined.

(** ** Tuples with different elements *)

Lemma insertBy_last {A : Type} (gt : A -> A -> bool) (x : A) (acc : list A) :
  Forall (fun y => gt y x = false) acc -> insertBy gt x acc = (acc ++ [x])%list.
Proof.
  induction 1 as [| y acc Hy _ IH]; cbn [insertBy app]; [reflexivity |].
  rewrite Hy, IH. reflexivity.
Qed.

Lemma ordered_app_cons {A : Type} (gt : A -> A -> bool) (acc : list A) (x : A) (l : list A) :
  ordered gt (acc ++ x :: l) -> Forall (fun y => gt y x = false) acc.
Proof.
  induction acc as [| y acc IH]; cbn [app ordered]; [constructor |].
  intros [Hy Hrest]. constructor; [| apply IH; exact Hrest].
  rewrite Forall_forall in Hy. apply Hy. apply in_or_app. right. left. reflexivity.
Qed.

Lemma stableSort_ordered {A : Type} (gt : A -> A -> bool) (l : list A) :
  ordered gt l -> stableSort gt l = l.
Proof.
  unfold stableSort.
  assert (H : forall acc, ordered gt (acc ++ l) ->
                fold_left (fun a x => insertBy gt x a) l acc = (acc ++ l)%list).
  { induction l as [| x l IH]; intros acc Hord; cbn [fold_left].
    - rewrite app_nil_r. reflexivity.
    - rewrite (insertBy_last gt x acc (ordered_app_cons gt acc x l Hord)).
      rewrite IH; rewrite <- app_assoc; [reflexivity | exact Hord]. }
  intros Hord. apply (H [] Hord).
Qed.

Lemma ordered_map {A B : Type} (gt : B -> B -> bool) (f : A -> B) (l : list A) :
  ordered gt (map f l) -> ordered (fun a b => gt (f a) (f b)) l.
Proof.
  induction l as [| x l IH]; cbn [map ordered]; [exact (fun H => H) |].
  intros [Hx Hl]. split; [| apply IH; exact Hl].
  rewrite Forall_map in Hx. exact Hx.
Qed.

Lemma obj_get_set_same {V : Type} (o : list (string * V)) (k : string) (v : V) :
  obj_get (obj_set o k v) k = Some v.
Proof.
  induction o as [| [k' v'] o IH]; cbn [obj_set obj_get].
  - rewrite String.eqb_refl. reflexivity.
  - destruct (String.eqb k' k) eqn:E; cbn [obj_get]; rewrite E; [reflexivity | exact IH].
Qed.

Lemma obj_get_set_other {V : Type} (o : list (string * V)) (k k' : string) (v : V) :
  k <> k' -> obj_get (obj_set o k v) k' = obj_get o k'.
Proof.
  intros N. induction o as [| [k0 v0] o IH]; cbn [obj_set obj_get].
  - destruct (String.eqb_spec k k'); [contradiction | reflexivity].
  - destruct (String.eqb_spec k0 k) as [-> | N0]; cbn [obj_get].
    + destruct (String.eqb_spec k k'); [contradiction | reflexivity].
    + destruct (String.eqb k0 k'); [reflexivity | exact IH].
Qed.

Lemma valsRevIndexFrom_other (keys : list string) :
  forall (dom : list TLAValue) (o : list (string * option TLAValue)) (k : string),
    ~ In k keys -> obj_get (valsRevIndexFrom keys dom o) k = obj_get o k.
Proof.
  induction keys as [| k0 keys IH]; intros dom o k Hk; cbn [valsRevIndexFrom]; [reflexivity |].
  rewrite IH by (intros Hin; apply Hk; right; exact Hin).
  apply obj_get_set_other. intros ->. apply Hk. left. reflexivity.
Qed.

Lemma valsRevIndexFrom_nth (keys : list string) :
  forall (dom : list TLAValue) (o : list (string * option TLAValue)) (i : nat) (k : string),
    NoDup keys -> nth_error keys i = Some k ->
    obj_get (valsRevIndexFrom keys dom o) k = Some (nth_error dom i).
Proof.
  induction keys as [| k0 keys IH]; intros dom o i k Hnd Hi; [destruct i; discriminate |].
  inversion Hnd as [| x xs Hk0 Hnd' E]; subst. cbn [valsRevIndexFrom].
  destruct i as [| i]; cbn [nth_error] in Hi.
  - injection Hi as <-. rewrite valsRevIndexFrom_other by exact Hk0.
    rewrite obj_get_set_same. destruct dom; reflexivity.
  - rewrite (IH (tl dom) _ i k Hnd' Hi). destruct dom; [destruct i |]; reflexivity.
Qed.

Lemma allSome_nth {A : Type} (l : list (option A)) (xs : list A) :
  allSome l = Some xs -> forall i, nth_error l i = option_map Some (nth_error xs i).
Proof.
  revert xs. induction l as [| [x |] l IH]; intros xs H i; cbn [allSome] in H.
  - injection H as <-. destruct i; reflexivity.
  - destruct (allSome l) as [ys |]; [| discriminate]. cbn in H. injection H as <-.
    destruct i as [| i]; [reflexivity |]. cbn [nth_error]. apply IH. reflexivity.
  - discriminate.
Qed.

Lemma nth_error_same {A : Type} (l l' : list A) :
  (forall i, nth_error l i = nth_error l' i) -> l = l'.
Proof.
  revert l'. induction l as [| x l IH]; intros [| y l'] H.
  - reflexivity.
  - specialize (H 0%nat). discriminate.
  - specialize (H 0%nat). discriminate.
  - pose proof (H 0%nat) as H0. injection H0 as ->. f_equal. apply IH.
    intros i. exact (H (S i)).
Qed.

Lemma revIndex_of_elements (elems dom : list TLAValue) (keys : list string) :
  allSome (map toString elems) = Some keys ->
  NoDup keys ->
  List.length dom = List.length elems ->
  map (revIndexLookup (valsRevIndexFrom keys dom [])) elems = map Some dom.
Proof.
  intros Hkeys Hnd Hlen. apply nth_error_same. intros i.
  rewrite !nth_error_map.
  pose proof (allSome_nth _ _ Hkeys i) as Hi. rewrite nth_error_map in Hi.
  destruct (nth_error elems i) as [e |] eqn:Ee; cbn [option_map] in *.
  - destruct (nth_error keys i) as [k |] eqn:Ek; cbn [option_map] in Hi; [| discriminate].
    injection Hi as Hs. unfold revIndexLookup. rewrite Hs.
    rewrite (valsRevIndexFrom_nth keys dom [] i k Hnd Ek).
    destruct (nth_error dom i) as [d |] eqn:Ed; [reflexivity |].
    apply nth_error_None in Ed. assert (i < List.length elems)%nat.
    { apply nth_error_Some. congruence. }
    lia.
  - apply nth_error_None in Ee.
    assert (Ed : nth_error dom i = None) by (apply nth_error_None; lia).
    rewrite Ed. reflexivity.
Qed.

Lemma tuple_domain_ordered (n : nat) :
  (n <= 9)%nat ->
  ordered critGt (map Some (map IntValue (Lodash.range 1 (Z.of_nat n + 1))))
  /\ list_eqb Z.eqb (Lodash.range 1 (Z.of_nat n + 1))
       (Lodash.sortBy Z.gtb (fun x => x) (Lodash.range 1 (Z.of_nat n + 1))) = true.
Proof.
  intros Hn.
  do 10 (destruct n as [| n];
         [split; [cbn; repeat split; repeat constructor | vm_compute; reflexivity] |]).
  lia.
Qed.

Lemma range_tuple_length (n : nat) :
  List.length (Lodash.range 1 (Z.of_nat n + 1)) = n.
Proof.
  unfold Lodash.range. destruct (1 <? Z.of_nat n + 1) eqn:E.
  - rewrite length_map, length_seq. lia.
  - apply Z.ltb_ge in E. rewrite length_map, length_seq. lia.
Qed.

(** For a tuple of at most nine elements whose texts are all different,
    [t.toFcnRcd().toTuple()] is the tuple [t]. *)
Theorem toTuple_roundtrip_distinct (elems : list TLAValue) (keys : list string) :
  allSome (map toString elems) = Some keys ->
  NoDup keys ->
  (List.length elems <= 9)%nat ->
  toTuple (toFcnRcd elems) = Ok (TupleValue elems).
Proof.
  intros Hkeys Hnd Hlen. unfold toFcnRcd, toTuple.
  set (r := Lodash.range 1 (Z.of_nat (List.length elems) + 1)).
  destruct (tuple_domain_ordered (List.length elems) Hlen) as [Hord Heq]. fold r in Hord, Heq.
  assert (Hint : forallb isIntValue (map IntValue r) = true).
  { apply forallb_forall. intros x Hx. apply in_map_iff in Hx.
    destruct Hx as (z & <- & _). reflexivity. }
  rewrite Hint. cbn [negb].
  assert (Hnums : flat_map (fun d => match d with IntValue z => [z] | _ => [] end)
                    (map IntValue r) = r).
  { clear. induction r as [| z r IH]; [reflexivity |]. cbn. rewrite IH. reflexivity. }
  rewrite Hnums, length_map.
  unfold r at 1. rewrite range_tuple_length. fold r. rewrite Heq. cbn [negb].
  rewrite Hkeys. do 2 f_equal.
  unfold Lodash.sortBy. apply stableSort_ordered. apply ordered_map.
  rewrite (revIndex_of_elements elems (map IntValue r) keys Hkeys Hnd).
  - exact Hord.
  - rewrite length_map. unfold r. apply range_tuple_length.
Qed.

Lemma toTuple_roundtrip_distinct_witness :
  toTuple (toFcnRcd [IntValue 5; IntValue 7; StringValue "a"])
  = Ok (TupleValue [IntValue 5; IntValue 7; StringValue "a"]).
Proof.
  eapply (toTuple_roundtrip_distinct [IntValue 5; IntValue 7; StringValue "a"]).
  - vm_compute. reflexivity.
  - repeat constructor; cbn; intuition discriminate.
  - cbn. lia.
Defined.

(** ** What [toTuple] accepts *)

Lemma list_eqb_Z_eq (a b : list Z) : list_eqb Z.eqb a b = true -> a = b.
Proof.
  intros H. apply (list_eqb_eq Z.eqb a); [| exact H].
  apply Forall_forall. intros x _ y. apply Z.eqb_eq.
Qed.

Lemma intValues_numbers (dom : list TLAValue) :
  forallb isIntValue dom = true ->
  dom = map IntValue (flat_map (fun d => match d with IntValue n => [n] | _ => [] end) dom).
Proof.
  induction dom as [| d dom IH]; [reflexivity |].
  cbn [forallb]. intros H. apply andb_true_iff in H. destruct H as [Hd Hdom].
  destruct d; try discriminate. cbn [flat_map app map]. rewrite <- (IH Hdom). reflexivity.
Qed.

(** [toTuple] returns a tuple for a function only when the domain of the
    function holds exactly the integers [1 .. n], each once, in whatever
    order; the elements of the tuple are then the values of the function,
    rearranged.  For every other function it throws. *)
Theorem toTuple_tuple_domain (dom vals : list TLAValue) (isRecord : bool) (t : TLAValue) :
  toTuple (FcnRcdValue dom vals isRecord) = Ok t ->
  exists elems : list TLAValue,
    t = TupleValue elems
    /\ Permutation elems vals
    /\ Permutation dom
         (map IntValue (Lodash.range 1 (Z.of_nat (List.length dom) + 1))).
Proof.
  unfold toTuple. intros H.
  destruct (forallb isIntValue dom) eqn:Hint; [| discriminate]. cbn [negb] in H.
  match type of H with
  | (if negb (list_eqb Z.eqb ?r (Lodash.sortBy Z.gtb ?f ?nums)) then _ else _) = _ =>
      destruct (list_eqb Z.eqb r (Lodash.sortBy Z.gtb f nums)) eqn:Heq; [| discriminate]
  end.
  cbn [negb] in H.
  destruct (allSome (map toString vals)) as [keys |]; [| discriminate].
  injection H as <-. eexists. split; [reflexivity |]. split.
  - unfold Lodash.sortBy. apply stableSort_perm.
  - apply list_eqb_Z_eq in Heq. rewrite Heq.
    rewrite (intValues_numbers dom Hint) at 1.
    apply Permutation_map. apply Permutation_sym. unfold Lodash.sortBy. apply stableSort_perm.
Qed.

Lemma toTuple_tuple_domain_witness :
  toTuple (FcnRcdValue [IntValue 2; IntValue 1] [StringValue "b"; StringValue "a"] false)
  = Ok (TupleValue [StringValue "a"; StringValue "b"])
  /\ exists elems : list TLAValue,
       TupleValue [StringValue "a"; StringValue "b"] = TupleValue elems
       /\ Permutation elems [StringValue "b"; StringValue "a"]
       /\ Permutation [IntValue 2; IntValue 1]
            (map IntValue
               (Lodash.range 1 (Z.of_nat (List.length [IntValue 2; IntValue 1]) + 1))).
Proof.
  assert (H : toTuple (FcnRcdValue [IntValue 2; IntValue 1]
                         [StringValue "b"; StringValue "a"] false)
              = Ok (TupleValue [StringValue "a"; StringValue "b"])).
  { vm_compute. reflexivity. }
  split; [exact H |].
  exact (toTuple_tuple_domain _ _ _ _ H).
Defined.

(** ** IF THEN ELSE *)

(** [IF c THEN a ELSE b]: the condition is evaluated on one copy of the
    caller's context and the branch it selects on another; the other
    branch is not evaluated, and what the condition did to its copy does
    not reach the branch. *)
Theorem evalIfThenElse_selected_branch (ev : Node -> loc -> M RetVal) (c a b : Node)
    (ctx : loc) (s s1 : Store) (cc c1 cr : Context) (r0 : loc) (rest : list loc) (p : bool) :
  nth_error (heap s) ctx = Some cc ->
  ev (withField "if" c) (List.length (heap s)) (storeWith s (cloned cc))
  = Ok (Some (r0 :: rest), s1) ->
  nth_error (heap s1) r0 = Some cr ->
  val cr = JV (BoolValue p) ->
  nth_error (heap s1) ctx = Some c1 ->
  evalIfThenElse ev (if_then_else c a b) ctx s
  = ev (if p then withField "then" a else withField "else" b)
       (List.length (heap s1)) (storeWith s1 (cloned c1)).
Proof.
  intros Hcc Hcond Hr0 Hval Hc1.
  destruct c as [tc xc nc fc cc']. destruct a as [ta xa na fa ca].
  destruct b as [tb xb nb fb cb].
  unfold evalIfThenElse.
  rewrite (bind_ok _ _ _ _ _ (clone_run ctx s cc Hcc)).
  cbn [childForFieldName if_then_else children find fieldName withField anon
       String.eqb Ascii.eqb Bool.eqb evalOpt].
  cbn [withField] in Hcond.
  rewrite (bind_ok _ _ _ _ _ Hcond).
  rewrite (bind_ok _ _ _ _ _ (firstVal_run r0 rest s1 cr Hr0)).
  rewrite Hval. cbn [callGetVal getVal lift].
  rewrite (bind_ok _ _ s1 s1 (PBool p)) by reflexivity.
  rewrite (bind_ok _ _ _ _ _ (clone_run ctx s1 c1 Hc1)).
  cbn [truthy]. destruct p; reflexivity.
Qed.

Lemma evalIfThenElse_selected_branch_witness :
  exists (s1 : Store) (c1 : Context),
    evalIfThenElse (evalExpr renderData 3)
      (if_then_else (eq (primedVar "x") (nat_number "1")) (boolean "TRUE")
                    (identifier_ref "foo")) 0%nat storeX0
    = evalExpr renderData 3 (withField "then" (boolean "TRUE"))
        (List.length (heap s1)) (storeWith s1 (cloned c1))
    /\ state c1 = stateX0.
Proof.
  eexists. eexists. split.
  - eapply (evalIfThenElse_selected_branch (evalExpr renderData 3)
              (eq (primedVar "x") (nat_number "1")) (boolean "TRUE") (identifier_ref "foo")
              0%nat storeX0 _ _ _ _ _ _ true).
    + reflexivity.
    + vm_compute. reflexivity.
    + vm_compute. reflexivity.
    + reflexivity.
    + vm_compute. reflexivity.
  - reflexivity.
Defined.

(** ** An unassigned variable on the right of an equation *)

(** [e = x], where [e] is no variable that the equation could assign and
    the variable [x] has no value yet, is an error: the equation assigns
    to its left-hand side only, and the comparison calls [fingerprint] on
    [null]. *)
Theorem evalEq_unassigned_right (hashSum : JSData -> string) (fuel : nat) (lhs : Node)
    (x : string) (ctx : loc) (s s1 : Store) (c c1 cl : Context) (l : loc) (lv : TLAValue) :
  nth_error (heap s) ctx = Some c ->
  isPrimedVarIn (state c) lhs
  || (obj_has (state c) (text lhs) && negb (isPrimedVarIn (state c) lhs)
      && negb (ASSIGN_PRIMED s)) = false ->
  evalExpr hashSum (S fuel) lhs (List.length (heap s)) (storeWith s (cloned c))
  = Ok (Some [l], s1) ->
  nth_error (heap s1) l = Some cl ->
  val cl = JV lv ->
  nth_error (heap s1) ctx = Some c1 ->
  obj_has (state c1) x = true ->
  getVarVal (state c1) x = JNull ->
  evalEq hashSum (evalExpr hashSum (S fuel)) lhs (identifier_ref x) ctx s = Throw TypeError.
Proof.
  intros Hc Hcond Hlhs Hl Hlv Hc1 Hx Hnull.
  destruct (obj_has (state c) "hasOwnProperty") eqn:Hsh.
  { unfold evalEq. cbv zeta.
    rewrite (bind_ok _ _ _ _ _ (getCtx_run _ _ _ Hc)).
    unfold hasVar, hasOwnProperty, bind, lift. rewrite Hsh. reflexivity. }
  rewrite (evalEq_test hashSum _ lhs (identifier_ref x) ctx s c Hc Hsh), Hcond.
  rewrite (bind_ok _ _ _ _ _ (clone_run ctx s c Hc)).
  rewrite (bind_ok _ _ _ _ _ Hlhs).
  rewrite (bind_ok _ _ _ _ _ (singleVal_run l s1 cl Hl)).
  rewrite (bind_ok _ _ _ _ _ (clone_run ctx s1 c1 Hc1)).
  assert (Hnew : nth_error (heap (storeWith s1 (cloned c1))) (List.length (heap s1))
                 = Some (cloned c1)).
  { cbn [heap storeWith]. rewrite nth_error_app2 by lia. rewrite Nat.sub_diag. reflexivity. }
  destruct (obj_has (state c1) "hasOwnProperty") eqn:Hsh1.
  { unfold bind at 1.
    rewrite (evalExpr_identifier_shadowed hashSum fuel (identifier_ref x) _ _ (cloned c1)
               Hnew Hsh1 eq_refl).
    reflexivity. }
  rewrite (bind_ok _ _ _ _ _
             (evalExpr_identifier_var hashSum fuel (identifier_ref x) _ _ (cloned c1)
                Hnew Hsh1 eq_refl Hx eq_refl)).
  assert (Hlast : nth_error
                    (heap (storeWith (storeWith s1 (cloned c1))
                             (setVal (cloned (cloned c1))
                                (getVarVal (state (cloned c1)) (text (identifier_ref x))))))
                    (List.length (heap (storeWith s1 (cloned c1))))
                  = Some (setVal (cloned (cloned c1))
                            (getVarVal (state (cloned c1)) (text (identifier_ref x))))).
  { cbn [heap storeWith]. rewrite nth_error_app2 by lia. rewrite Nat.sub_diag. reflexivity. }
  rewrite (bind_ok _ _ _ _ _ (singleVal_run _ _ _ Hlast)).
  rewrite Hlv. cbn [callFingerprint val setVal cloned state].
  rewrite (bind_ok _ _ _ _ (fingerprint hashSum lv)) by reflexivity.
  change (text (identifier_ref x)) with x.
  rewrite Hnull. reflexivity.
Qed.

Lemma evalEq_unassigned_right_witness :
  evalEq renderData (evalExpr renderData 1) (nat_number "1") (identifier_ref "x") 0%nat
    (mkStore [newContext JNull [("x", JNull)] [] [] None] false)
  = Throw TypeError.
Proof.
  eapply (evalEq_unassigned_right renderData 0 (nat_number "1") "x" 0%nat
            (mkStore [newContext JNull [("x", JNull)] [] [] None] false)).
  - reflexivity.
  - reflexivity.
  - vm_compute. reflexivity.
  - vm_compute. reflexivity.
  - reflexivity.
  - vm_compute. reflexivity.
  - reflexivity.
  - reflexivity.
Defined.

(** ** UNCHANGED and a variable that is assigned already *)

Lemma ownProperty_absent {V : Type} (o : list (string * V)) (k : string) :
  hasOwnProperty o k = Ok false -> ownProperty o k = Ok None.
Proof.
  unfold hasOwnProperty, ownProperty, obj_has.
  destruct (obj_get o "hasOwnProperty"); [discriminate |].
  destruct (obj_get o k); [discriminate | reflexivity].
Qed.

(** [UNCHANGED x], where the test [ctx.defns.hasOwnProperty(x)] answers
    that no definition is named [x], gives [x'] the value of [x] and yields
    TRUE whatever [x'] held before: a value assigned to [x'] earlier is not
    compared with the value of [x], it is replaced. *)
Theorem evalUnchanged_overwrites (ev : Node -> loc -> M RetVal) (x : string) (ctx : loc)
    (s s1 : Store) (c c1 c0 : Context) (r0 : loc) (rest : list loc) :
  nth_error (heap s) ctx = Some c ->
  hasOwnProperty (defns c) x = Ok false ->
  ev (withField "rhs" (identifier_ref x)) ctx s = Ok (Some (r0 :: rest), s1) ->
  nth_error (heap s1) r0 = Some c0 ->
  nth_error (heap s1) ctx = Some c1 ->
  exists (s' : Store) (cr : Context),
    evalUnchanged ev (unchanged (identifier_ref x)) ctx s
    = Ok (Some [List.length (heap s1)], s')
    /\ nth_error (heap s') (List.length (heap s1)) = Some cr
    /\ val cr = JV (BoolValue true)
    /\ state cr = withVarVal (state c1) (x ++ "'") (val c0).
Proof.
  intros Hc Hdef Hev Hr0 Hc1.
  set (c' := setState c1 (withVarVal (state c1) (x ++ "'") (val c0))).
  set (s2 := mkStore (replaceNth ctx c' (heap s1)) (ASSIGN_PRIMED s1)).
  exists (storeWith s2 (setVal (cloned c') (JV (BoolValue true)))),
         (setVal (cloned c') (JV (BoolValue true))).
  assert (Hlen : List.length (heap s2) = List.length (heap s1)).
  { unfold s2. cbn [heap]. apply length_replaceNth. }
  assert (Hc2 : nth_error (heap s2) ctx = Some c').
  { unfold s2. cbn [heap]. apply nth_error_replaceNth_same.
    apply nth_error_Some. congruence. }
  split; [| split; [| split; reflexivity]].
  - unfold evalUnchanged.
    rewrite (bind_ok _ _ _ _ _ (getCtx_run _ _ _ Hc)).
    cbn [namedChildren unchanged bound_prefix_op children filter isNamed withField leaf
         identifier_ref nth_error].
    cbn [expandUnchanged typeIs type String.eqb Ascii.eqb Bool.eqb text andb].
    rewrite (ownProperty_absent _ _ Hdef). cbn [lift].
    rewrite (bind_ok _ _ s s (mkNode "identifier_ref" x true "rhs" [])) by reflexivity.
    change (typeIs (mkNode "identifier_ref" x true "rhs" []) "tuple_literal") with false.
    change (typeIs (mkNode "identifier_ref" x true "rhs" []) "identifier_ref") with true.
    cbv iota.
    rewrite (bind_ok _ _ s s tt) by reflexivity.
    assert (Hassign : assignUnchanged ev (mkNode "identifier_ref" x true "rhs" []) ctx s
                      = Ok (tt, s2)).
    { unfold assignUnchanged.
      cbn [withField identifier_ref leaf] in Hev.
      rewrite (bind_ok _ _ _ _ _ Hev).
      rewrite (bind_ok _ _ _ _ _ (firstVal_run r0 rest s1 c0 Hr0)).
      rewrite (bind_ok _ _ _ _ _ (getCtx_run _ _ _ Hc1)).
      reflexivity. }
    rewrite (bind_ok _ _ _ _ _ Hassign).
    rewrite (bind_ok _ _ _ _ _ (withVal_run ctx _ s2 c' Hc2)).
    rewrite Hlen. reflexivity.
  - rewrite <- Hlen. cbn [heap storeWith]. apply nth_error_app_last.
Qed.

Lemma evalUnchanged_overwrites_witness :
  exists (s' : Store) (cr : Context) (n : nat),
    evalUnchanged (evalExpr renderData 2) (unchanged (identifier_ref "x")) 0%nat storeX1
    = Ok (Some [n], s')
    /\ nth_error (heap s') n = Some cr
    /\ val cr = JV (BoolValue true)
    /\ state cr = [("x", JV (IntValue 0)); ("x'", JV (IntValue 0))].
Proof.
  destruct (evalUnchanged_overwrites (evalExpr renderData 2) "x" 0%nat storeX1
              (storeWith storeX1
                 (setVal (cloned (newContext JNull
                                    [("x", JV (IntValue 0)); ("x'", JV (IntValue 1))]
                                    [] [] None))
                         (JV (IntValue 0))))
              (newContext JNull [("x", JV (IntValue 0)); ("x'", JV (IntValue 1))] [] [] None)
              (newContext JNull [("x", JV (IntValue 0)); ("x'", JV (IntValue 1))] [] [] None)
              (setVal (cloned (newContext JNull
                                 [("x", JV (IntValue 0)); ("x'", JV (IntValue 1))]
                                 [] [] None))
                      (JV (IntValue 0)))
              1%nat [] eq_refl eq_refl eq_refl eq_refl eq_refl)
    as (s' & cr & H1 & H2 & H3 & H4).
  exists s', cr, 2%nat. split; [exact H1 |]. split; [exact H2 |]. split; [exact H3 |].
  rewrite H4. reflexivity.
Defined.
